(** * Tag cleanup: classify, plan, execute

    A shallow embedding of [scripts/release/cleanup/cleanup_tags.py] and the
    properties of its classify / plan / execute engine.

    The script drives an external [git] binary through [subprocess.run].  The
    embedding keeps the script's functions as they are written and puts the
    binary behind a small model: a world holding the local tag namespace, the
    remotes' tag namespaces and the hosted releases, together with a fault
    schedule that can make any single invocation exit non-zero. *)

From Stdlib Require Import Ascii.
From stdpp Require Import base option list sorting gmap strings pretty.

Open Scope string_scope.
Open Scope list_scope.

(** ** Python string operations used by the script

    A [string] stands for a Python [str] whose code points are below 256. *)

(** [s.startswith(p)] *)
Fixpoint startswith (s p : string) {struct p} : bool :=
  match p with
  | "" => true
  | String c p' =>
      match s with
      | "" => false
      | String d s' => if decide (c = d) then startswith s' p' else false
      end
  end.

(** [s[n:]] *)
Fixpoint slice_from (n : nat) (s : string) : string :=
  match n with
  | O => s
  | S n' => match s with "" => "" | String _ s' => slice_from n' s' end
  end.

(** [s[:n]] *)
Fixpoint slice_to (n : nat) (s : string) : string :=
  match n with
  | O => ""
  | S n' => match s with "" => "" | String c s' => String c (slice_to n' s') end
  end.

(** [c.isspace()] for a code point below 256. *)
Definition isspace (c : ascii) : bool :=
  match c with
  | "009" | "010" | "011" | "012" | "013"
  | "028" | "029" | "030" | "031" | " " | "133" | "160" => true
  | _ => false
  end%char.

Fixpoint lstrip (s : string) : string :=
  match s with
  | "" => ""
  | String c s' => if isspace c then lstrip s' else s
  end.

Fixpoint rstrip (s : string) : string :=
  match s with
  | "" => ""
  | String c s' =>
      match rstrip s' with
      | "" => if isspace c then "" else String c ""
      | r => String c r
      end
  end.

(** [s.strip()] *)
Definition strip (s : string) : string := rstrip (lstrip s).

(** The text whose [splitlines()] is [ls]: every line ends in a newline. *)
Definition unlines (ls : list string) : string :=
  foldr (λ l acc, l +:+ String "010"%char acc) "" ls.

(** [sorted(xs)] on strings: ascending code-point order. *)
Definition sorted (xs : list string) : list string := merge_sort String.le xs.

(** [s1] occurs inside [s2]. *)
Definition occurs_in (s1 s2 : string) : Prop :=
  ∃ pre post, s2 = pre +:+ s1 +:+ post.

(** ** Data model of the script *)

Inductive TagClassification := RENAME | DELETE.

Global Instance TagClassification_eq_dec : EqDecision TagClassification.
Proof. solve_decision. Defined.

Record ClassifiedTag := mkClassifiedTag {
  name : string;
  classification : TagClassification;
}.

Record RenameEntry := mkRenameEntry {
  old_name : string;
  new_name : string;
}.

Record AuditReport := mkAuditReport {
  tags : list ClassifiedTag;
}.

Definition total (r : AuditReport) : nat := length (tags r).

Definition rename_count (r : AuditReport) : nat :=
  length (filter (λ t, classification t = RENAME) (tags r)).

Definition delete_count (r : AuditReport) : nat :=
  length (filter (λ t, classification t = DELETE) (tags r)).

Record CleanupPlan := mkCleanupPlan {
  to_rename : list RenameEntry;
  to_delete : list ClassifiedTag;
}.

Record ExecuteResult := mkExecuteResult {
  renamed_count : nat;
  renamed_tags : list string;
  deleted_count : nat;
  deleted_tags : list string;
  errors : list string;
}.

(** The field defaults of the dataclasses. *)
Definition AuditReport0 : AuditReport := mkAuditReport [].
Definition CleanupPlan0 : CleanupPlan := mkCleanupPlan [] [].
Definition ExecuteResult0 : ExecuteResult := mkExecuteResult 0 [] 0 [] [].

(** ** Classifier *)

Definition NWAVE_PREFIX : string := "nWave_v".

Definition classify_tag (tag : string) : TagClassification :=
  if startswith tag NWAVE_PREFIX then RENAME else DELETE.

Definition rename_target (tag : string) : string :=
  "v" +:+ slice_from (String.length NWAVE_PREFIX) tag.

(** ** The external processes

    Every [subprocess.run] of the script is one [Command].  The constructors
    name the argument vectors the script builds:
    - [TagList]                 [git tag --list]
    - [RevList t]               [git rev-list -n 1 t]
    - [TagCreate t c]           [git tag t c]
    - [TagDelete t]             [git tag -d t]
    - [PushTag r t]             [git push r refs/tags/t]
    - [PushDelete r t]          [git push r :refs/tags/t]
    - [ReleaseDelete repo t]    [gh release delete t --repo repo --yes] *)
Inductive Command :=
  | TagList
  | RevList (tag : string)
  | TagCreate (tag commit : string)
  | TagDelete (tag : string)
  | PushTag (remote tag : string)
  | PushDelete (remote tag : string)
  | ReleaseDelete (repo tag : string).

Global Instance Command_eq_dec : EqDecision Command.
Proof. solve_decision. Defined.

(** What a finished process hands back: its standard output, kept as the list
    of its lines, or the standard error text of a non-zero exit. *)
Inductive Completed :=
  | Exit0 (stdout : list string)
  | ExitFail (stderr : string).

(** The world the processes act on.  [history] records every invocation and
    how it ended; [faults n = Some err] makes the invocation that finds [n]
    entries in [history] exit non-zero with [err] on standard error, without
    touching anything. *)
Record World := mkWorld {
  local_tags : gmap string string;
  remotes : gmap string (gmap string string);
  releases : gset (string * string);
  faults : nat → option string;
  history : list (Command * Completed);
}.

Definition refs_of (w : World) :
    gmap string string * gmap string (gmap string string) * gset (string * string) :=
  (local_tags w, remotes w, releases w).

(** The effect of a command that is not hit by a fault, on a store whose refs
    are tags: a name resolves when it is a local tag, a tag is created when
    its name is free, and a deletion, local or on a remote, exits non-zero
    when there is no such tag to delete. *)
Definition perform (c : Command) (w : World) : Completed * World :=
  match c with
  | TagList => (Exit0 (map_to_list (local_tags w)).*1, w)
  | RevList t =>
      match local_tags w !! t with
      | Some commit => (Exit0 [commit], w)
      | None => (ExitFail ("fatal: ambiguous argument '" +:+ t +:+ "'"), w)
      end
  | TagCreate t commit =>
      match local_tags w !! t with
      | Some _ => (ExitFail ("fatal: tag '" +:+ t +:+ "' already exists"), w)
      | None =>
          (Exit0 [],
           mkWorld (<[t := commit]> (local_tags w)) (remotes w) (releases w)
                   (faults w) (history w))
      end
  | TagDelete t =>
      match local_tags w !! t with
      | Some commit =>
          (Exit0 ["Deleted tag '" +:+ t +:+ "' (was " +:+ commit +:+ ")"],
           mkWorld (delete t (local_tags w)) (remotes w) (releases w)
                   (faults w) (history w))
      | None => (ExitFail ("error: tag '" +:+ t +:+ "' not found."), w)
      end
  | PushTag r t =>
      match remotes w !! r, local_tags w !! t with
      | None, _ =>
          (ExitFail ("fatal: '" +:+ r +:+ "' does not appear to be a git repository"), w)
      | Some _, None =>
          (ExitFail ("error: src refspec refs/tags/" +:+ t +:+ " does not match any"), w)
      | Some there, Some commit =>
          match there !! t with
          | Some c' =>
              if decide (c' = commit) then (Exit0 [], w)
              else (ExitFail ("! [rejected] " +:+ t +:+ " (already exists)"), w)
          | None =>
              (Exit0 [],
               mkWorld (local_tags w) (<[r := <[t := commit]> there]> (remotes w))
                       (releases w) (faults w) (history w))
          end
      end
  | PushDelete r t =>
      match remotes w !! r with
      | None =>
          (ExitFail ("fatal: '" +:+ r +:+ "' does not appear to be a git repository"), w)
      | Some there =>
          match there !! t with
          | None =>
              (ExitFail ("error: unable to delete '" +:+ t +:+ "': remote ref does not exist"), w)
          | Some _ =>
              (Exit0 [],
               mkWorld (local_tags w) (<[r := delete t there]> (remotes w))
                       (releases w) (faults w) (history w))
          end
      end
  | ReleaseDelete repo t =>
      if decide ((repo, t) ∈ releases w) then
        (Exit0 [],
         mkWorld (local_tags w) (remotes w) (releases w ∖ {[(repo, t)]})
                 (faults w) (history w))
      else (ExitFail "release not found", w)
  end.

Definition log (c : Command) (r : Completed) (w : World) : World :=
  mkWorld (local_tags w) (remotes w) (releases w) (faults w) (history w ++ [(c, r)]).

(** One process invocation: the fault schedule is consulted first. *)
Definition invoke (c : Command) (w : World) : Completed * World :=
  match faults w (length (history w)) with
  | Some err => (ExitFail err, log c (ExitFail err) w)
  | None => let '(r, w') := perform c w in (r, log c r w')
  end.

(** ** Computations that may raise [subprocess.CalledProcessError]

    The only exception the model raises is [CalledProcessError]; it carries
    the standard error text of the failed process.  Every invocation of the
    model runs to an exit status: a binary that cannot be started
    ([FileNotFoundError]) is outside it. *)
Inductive Outcome (A : Type) :=
  | Return (a : A) (w : World)
  | Raise (stderr : string) (w : World).
Arguments Return {A} a w.
Arguments Raise {A} stderr w.

Definition world_of {A} (o : Outcome A) : World :=
  match o with Return _ w => w | Raise _ w => w end.

(** The returned value, or [d] when the computation raised. *)
Definition value_of {A} (d : A) (o : Outcome A) : A :=
  match o with Return a _ => a | Raise _ _ => d end.

Definition M (A : Type) : Type := World → Outcome A.

Definition ret {A} (a : A) : M A := λ w, Return a w.

Definition bind {A B} (m : M A) (k : A → M B) : M B :=
  λ w, match m w with
       | Return a w' => k a w'
       | Raise e w' => Raise e w'
       end.

(** [try: m except subprocess.CalledProcessError as e: ...] *)
Definition try_ {A} (m : M A) : M (A + string) :=
  λ w, match m w with
       | Return a w' => Return (inl a) w'
       | Raise e w' => Return (inr e) w'
       end.

Declare Scope py_scope.
Delimit Scope py_scope with py.
Notation "x <- m ;; k" := (bind m (λ x, k))
  (at level 100, m at next level, right associativity) : py_scope.
Notation "m ;; k" := (bind m (λ _, k))
  (at level 100, right associativity) : py_scope.
Open Scope py_scope.

(** [subprocess.run(..., check=True, capture_output=True, text=True)] of a
    process that starts and runs to an exit status. *)
Definition subprocess_run (c : Command) : M (list string) :=
  λ w, match invoke c w with
       | (Exit0 out, w') => Return out w'
       | (ExitFail err, w') => Raise err w'
       end.

(** ** TagCleaner *)

Section TagCleaner.

(** [self.gh_repo]; [self.repo_path] selects the world the processes see. *)
Variable gh_repo : option string.

(** Truth value of an optional string: [None] and [""] are false. *)
Definition truthy (o : option string) : option string :=
  match o with
  | Some "" => None
  | Some s => Some s
  | None => None
  end.

Definition _run_git (c : Command) : M (list string) := subprocess_run c.

Definition _list_tags : M (list string) :=
  stdout <- _run_git TagList ;;
  ret (sorted (filter (λ l, l ≠ "") (strip <$> stdout))).

Definition _get_tag_commit (tag : string) : M string :=
  stdout <- _run_git (RevList tag) ;;
  ret (strip (unlines stdout)).

Definition audit : M AuditReport :=
  tags' <- _list_tags ;;
  ret (foldl (λ report tag,
                mkAuditReport
                  (report.(tags) ++ [mkClassifiedTag tag (classify_tag tag)]))
             AuditReport0 tags').

(** The body of the loop of [plan]. *)
Definition plan_step (result : CleanupPlan) (tag : string) : CleanupPlan :=
  let classification := classify_tag tag in
  if decide (classification = RENAME) then
    mkCleanupPlan
      (result.(to_rename) ++ [mkRenameEntry tag (rename_target tag)])
      result.(to_delete)
  else
    mkCleanupPlan
      result.(to_rename)
      (result.(to_delete) ++ [mkClassifiedTag tag classification]).

Definition plan : M CleanupPlan :=
  tags' <- _list_tags ;;
  ret (foldl plan_step CleanupPlan0 tags').

Definition add_error (result : ExecuteResult) (msg : string) : ExecuteResult :=
  mkExecuteResult result.(renamed_count) result.(renamed_tags)
                  result.(deleted_count) result.(deleted_tags)
                  (result.(errors) ++ [msg]).

Definition add_renamed (result : ExecuteResult) (msg : string) : ExecuteResult :=
  mkExecuteResult (result.(renamed_count) + 1) (result.(renamed_tags) ++ [msg])
                  result.(deleted_count) result.(deleted_tags)
                  result.(errors).

Definition add_deleted (result : ExecuteResult) (tag : string) : ExecuteResult :=
  mkExecuteResult result.(renamed_count) result.(renamed_tags)
                  (result.(deleted_count) + 1) (result.(deleted_tags) ++ [tag])
                  result.(errors).

(** The helpers below mutate [result] in place; here they return it. *)
Definition _delete_tag_local (tag : string) (result : ExecuteResult)
    : M (bool * ExecuteResult) :=
  r <- try_ (_run_git (TagDelete tag)) ;;
  match r with
  | inl _ => ret (true, result)
  | inr stderr =>
      ret (false,
           add_error result ("Failed to delete local tag " +:+ tag +:+ ": " +:+ stderr))
  end.

Definition _delete_tag_remote (tag remote : string) (result : ExecuteResult)
    : M (bool * ExecuteResult) :=
  r <- try_ (_run_git (PushDelete remote tag)) ;;
  match r with
  | inl _ => ret (true, result)
  | inr stderr =>
      ret (false,
           add_error result ("Failed to delete remote tag " +:+ tag +:+ ": " +:+ stderr))
  end.

(** Both [CalledProcessError] and [FileNotFoundError] are passed over. *)
Definition _delete_gh_release (repo tag : string) : M unit :=
  try_ (subprocess_run (ReleaseDelete repo tag)) ;;
  ret tt.

(** The body of the phase 1 loop of [execute], for one entry of
    [cleanup_plan.to_rename]; the state is [(result, protected_tags)]. *)
Definition rename_step (remote : option string) (entry : RenameEntry)
    (st : ExecuteResult * gset string) : M (ExecuteResult * gset string) :=
  let '(result, protected_tags) := st in
  let old_tag := entry.(old_name) in
  let new_tag := entry.(new_name) in
  existing_tags <- _list_tags ;;
  if decide (new_tag ∈ existing_tags) then
    old_commit <- _get_tag_commit old_tag ;;
    new_commit <- _get_tag_commit new_tag ;;
    if decide (old_commit = new_commit) then
      d <- _delete_tag_local old_tag result ;;
      d <- match truthy remote with
           | Some remote => _delete_tag_remote old_tag remote d.2
           | None => ret d
           end ;;
      ret (add_renamed d.2 (old_tag +:+ " -> " +:+ new_tag +:+ " (conflict resolved)"),
           {[new_tag]} ∪ protected_tags)
    else
      ret (add_error result
             ("Conflict: " +:+ old_tag +:+ " and " +:+ new_tag
              +:+ " point to different commits. "
              +:+ "Old: " +:+ slice_to 8 old_commit
              +:+ ", existing: " +:+ slice_to 8 new_commit +:+ ". Skipped."),
           protected_tags)
  else
    commit <- _get_tag_commit old_tag ;;
    created <- try_ (_run_git (TagCreate new_tag commit)) ;;
    match created with
    | inr stderr =>
        ret (add_error result ("Failed to create tag " +:+ new_tag +:+ ": " +:+ stderr),
             protected_tags)
    | inl _ =>
        result <- match truthy remote with
                  | Some remote =>
                      pushed <- try_ (_run_git (PushTag remote new_tag)) ;;
                      match pushed with
                      | inl _ => ret result
                      | inr stderr =>
                          ret (add_error result
                                 ("Failed to push tag " +:+ new_tag
                                  +:+ " to remote: " +:+ stderr))
                      end
                  | None => ret result
                  end ;;
        d <- _delete_tag_local old_tag result ;;
        d <- match truthy remote with
             | Some remote => _delete_tag_remote old_tag remote d.2
             | None => ret d
             end ;;
        ret (add_renamed d.2 (old_tag +:+ " -> " +:+ new_tag),
             {[new_tag]} ∪ protected_tags)
    end.

(** [for entry in cleanup_plan.to_rename: ...] *)
Fixpoint rename_phase (remote : option string) (entries : list RenameEntry)
    (st : ExecuteResult * gset string) : M (ExecuteResult * gset string) :=
  match entries with
  | [] => ret st
  | entry :: rest =>
      st' <- rename_step remote entry st ;;
      rename_phase remote rest st'
  end.

(** The body of the phase 2 loop of [execute], for one current tag. *)
Definition delete_step (remote : option string) (protected_tags : gset string)
    (tag : string) (result : ExecuteResult) : M ExecuteResult :=
  if decide (tag ∈ protected_tags) then ret result
  else if decide (classify_tag tag = DELETE) then
    d <- _delete_tag_local tag result ;;
    if d.1 then
      d <- match truthy remote with
           | Some remote => _delete_tag_remote tag remote d.2
           | None => ret d
           end ;;
      let result := add_deleted d.2 tag in
      match truthy gh_repo with
      | Some repo => _delete_gh_release repo tag ;; ret result
      | None => ret result
      end
    else ret d.2
  else ret result.

(** [for tag in current_tags: ...] *)
Fixpoint delete_loop (remote : option string) (protected_tags : gset string)
    (current_tags : list string) (result : ExecuteResult) : M ExecuteResult :=
  match current_tags with
  | [] => ret result
  | tag :: rest =>
      result' <- delete_step remote protected_tags tag result ;;
      delete_loop remote protected_tags rest result'
  end.

Definition delete_phase (remote : option string) (protected_tags : gset string)
    (result : ExecuteResult) : M ExecuteResult :=
  current_tags <- _list_tags ;;
  delete_loop remote protected_tags current_tags result.

Definition execute (remote : option string) : M ExecuteResult :=
  cleanup_plan <- plan ;;
  st <- rename_phase remote cleanup_plan.(to_rename) (ExecuteResult0, ∅) ;;
  delete_phase remote st.2 st.1.

End TagCleaner.

(** ** Command line

    The printing functions and [main].  Standard output is the list of the
    texts handed to [print], in order. *)

(** [s * n] *)
Fixpoint str_mul (s : string) (n : nat) : string :=
  match n with
  | O => ""
  | S n' => s +:+ str_mul s n'
  end.

(** [f"{s:<n}"]: [s] padded with spaces on the right to width [n], never cut. *)
Definition ljust (n : nat) (s : string) : string :=
  s +:+ str_mul " " (n - String.length s).

(** [str(n)] of a non-negative integer. *)
Definition str (n : nat) : string := pretty n.

(** [classification.value.upper()] *)
Definition label (c : TagClassification) : string :=
  match c with
  | RENAME => "RENAME"
  | DELETE => "DELETE"
  end.

Definition newline : string := String "010"%char "".

(** The printing functions: the texts they hand to [print], in order. *)
Definition _print_audit (report : AuditReport) : list string :=
  [newline +:+ ljust 30 "Tag" +:+ " " +:+ ljust 15 "Classification";
   str_mul "-" 45]
  ++ ((λ tag, ljust 30 (name tag) +:+ " " +:+ ljust 15 (label (classification tag)))
        <$> tags report)
  ++ [str_mul "-" 45;
      "Total: " +:+ str (total report) +:+ "  |  Rename: " +:+ str (rename_count report)
      +:+ "  |  Delete: " +:+ str (delete_count report)].

Definition _print_plan (p : CleanupPlan) : list string :=
  [newline +:+ "Tags to RENAME (" +:+ str (length (to_rename p)) +:+ "):"]
  ++ ((λ entry, "  ~ " +:+ old_name entry +:+ " -> " +:+ new_name entry) <$> to_rename p)
  ++ [newline +:+ "Tags to DELETE (" +:+ str (length (to_delete p)) +:+ "):"]
  ++ ((λ tag, "  - " +:+ name tag) <$> to_delete p).

Definition _print_result (result : ExecuteResult) : list string :=
  (match renamed_tags result with
   | [] => []
   | _ => (newline +:+ "Renamed " +:+ str (renamed_count result) +:+ " tag(s):")
          :: ((λ tag, "  ~ " +:+ tag) <$> renamed_tags result)
   end)
  ++ (match deleted_tags result with
      | [] => []
      | _ => (newline +:+ "Deleted " +:+ str (deleted_count result) +:+ " tag(s):")
             :: ((λ tag, "  - " +:+ tag) <$> deleted_tags result)
      end)
  ++ (match errors result with
      | [] => []
      | _ => (newline +:+ "Errors (" +:+ str (length (errors result)) +:+ "):")
             :: ((λ err, "  ! " +:+ err) <$> errors result)
      end).

(** What [parser.parse_args(argv)] returns, as far as [main] reads it;
    [args.repo_path] selects the world. *)
Record Namespace := mkNamespace {
  args_repo : string;
  args_plan : bool;
  args_execute : bool;
  args_remote : option string;
}.

(** [main] from the parsed arguments on: what it prints, and the exit status
    it returns or the error it lets through. *)
Definition main (args : Namespace) (w : World) : list string * Outcome nat :=
  let gh_repo := Some (args_repo args) in
  if args_execute args then
    match plan w with
    | Raise e w' => ([], Raise e w')
    | Return p w1 =>
        let out := _print_plan p ++ [newline +:+ "Executing cleanup..."] in
        match execute gh_repo (args_remote args) w1 with
        | Raise e w' => (out, Raise e w')
        | Return result w2 =>
            (out ++ _print_result result,
             Return (match errors result with [] => 0 | _ => 1 end) w2)
        end
    end
  else if args_plan args then
    match plan w with
    | Raise e w' => ([], Raise e w')
    | Return p w1 =>
        (_print_plan p
         ++ [newline +:+ "Dry run. Pass --execute to actually rename and delete."],
         Return 0 w1)
    end
  else
    match audit w with
    | Raise e w' => ([], Raise e w')
    | Return report w1 =>
        (_print_audit report
         ++ [newline
             +:+ "Audit only. Pass --plan to see change plan, --execute to apply."],
         Return 0 w1)
    end.

(** ** Vocabulary of the properties *)

(** *** Computations *)

(** Weakest precondition of a computation: [Q] must hold of a returned value
    and world, [E] of a raised error and world. *)
Definition wp {A} (m : M A) (w : World)
    (Q : A → World → Prop) (E : string → World → Prop) : Prop :=
  match m w with
  | Return a w' => Q a w'
  | Raise e w' => E e w'
  end.

(** *** Commands *)

(** The tag whose ref or release a command may change. *)
Definition writes (c : Command) : option string :=
  match c with
  | TagList | RevList _ => None
  | TagCreate t _ | TagDelete t | PushTag _ t | PushDelete _ t
  | ReleaseDelete _ t => Some t
  end.

(** The tag a command removes, locally, on a remote or as a release. *)
Definition removes (c : Command) : option string :=
  match c with
  | TagDelete t | PushDelete _ t | ReleaseDelete _ t => Some t
  | TagList | RevList _ | TagCreate _ _ | PushTag _ _ => None
  end.

(** List and resolve are the read-only commands. *)
Definition reads (c : Command) : Prop :=
  match c with
  | TagList | RevList _ => True
  | _ => False
  end.

(** The text [execute] appends to [errors] when command [c] exits non-zero
    with [stderr]; list and resolve have none (their error propagates), the
    release deletion has none (its error is dropped). *)
Definition describe (c : Command) (stderr : string) : option string :=
  match c with
  | TagCreate t _ => Some ("Failed to create tag " +:+ t +:+ ": " +:+ stderr)
  | TagDelete t => Some ("Failed to delete local tag " +:+ t +:+ ": " +:+ stderr)
  | PushTag _ t => Some ("Failed to push tag " +:+ t +:+ " to remote: " +:+ stderr)
  | PushDelete _ t => Some ("Failed to delete remote tag " +:+ t +:+ ": " +:+ stderr)
  | TagList | RevList _ | ReleaseDelete _ _ => None
  end.

(** An invocation that does not count as a failed store operation: a [git]
    command that exited 0, or the release deletion however it ended. *)
Definition git_ok (cr : Command * Completed) : bool :=
  match cr with
  | (ReleaseDelete _ _, _) => true
  | (_, Exit0 _) => true
  | (_, ExitFail _) => false
  end.

(** *** Worlds *)

Definition remote_tag (w : World) (r t : string) : option string :=
  remotes w !! r ≫= (.!! t).

(** Tag [t] is the same in [w'] as in [w]: locally, on every remote and in
    the hosted releases. *)
Definition same_tag (t : string) (w w' : World) : Prop :=
  local_tags w' !! t = local_tags w !! t ∧
  (∀ r, remote_tag w' r t = remote_tag w r t) ∧
  (∀ repo, (repo, t) ∈ releases w' ↔ (repo, t) ∈ releases w).

(** A tag name that [strip] returns as it is, and that is not empty.  The
    listing of the model prints every name on a line of its own, so a name
    with a line boundary inside, which [splitlines] would cut in two, is a
    [refname] as well; [spaceless] excludes it. *)
Definition refname (t : string) : Prop := strip t = t ∧ t ≠ "".

(** A name without white space anywhere, line boundaries included: printed
    on a line of its own, it is one line to [splitlines] and comes back from
    [strip] as it is. *)
Fixpoint spaceless (t : string) : bool :=
  match t with
  | "" => true
  | String c t' => negb (isspace c) && spaceless t'
  end.

Definition refnames (w : World) : Prop :=
  ∀ t, is_Some (local_tags w !! t) → refname t.

(** The names [_list_tags] yields in world [w] when its invocation succeeds. *)
Definition tag_listing (w : World) : list string :=
  sorted (filter (λ l, l ≠ "") (strip <$> (map_to_list (local_tags w)).*1)).

(** No fault is scheduled for the next [n] invocations. *)
Definition calm (n : nat) (w : World) : Prop :=
  ∀ k, k < n → faults w (length (history w) + k) = None.

(** The invocations made after [w0] up to [w]. *)
Definition since (w0 w : World) : list (Command * Completed) :=
  drop (length (history w0)) (history w).

(** [reach φ w w']: [w'] comes from [w] by a sequence of process invocations,
    each of which (command and completion) satisfies [φ]. *)
Inductive reach (φ : Command → Completed → Prop) (w : World) : World → Prop :=
  | reach_refl : reach φ w w
  | reach_step w1 w2 c r :
      reach φ w w1 → invoke c w1 = (r, w2) → φ c r → reach φ w w2.

(** Every invocation a computation makes satisfies [φ], whether it returns
    or raises. *)
Definition runs {A} (φ : Command → Completed → Prop) (m : M A) : Prop :=
  ∀ w0 w, reach φ w0 w →
    wp m w (λ _ w', reach φ w0 w') (λ _ w', reach φ w0 w').

(** A command that leaves every tag of [S] alone. *)
Definition spares (S : gset string) (c : Command) (_ : Completed) : Prop :=
  ∀ t, t ∈ S → writes c ≠ Some t.

(** A command that changes no tag outside [S]. *)
Definition only_writes (S : gset string) (c : Command) (_ : Completed) : Prop :=
  ∀ t, writes c = Some t → t ∈ S.

(** A command of the delete phase: it changes only tags that are outside the
    protected set and classified [DELETE]. *)
Definition sweeps (prot : gset string) (c : Command) (_ : Completed) : Prop :=
  ∀ t, writes c = Some t → (t ∉ prot) ∧ classify_tag t = DELETE.

(** The run of [execute] from the rename loop on: the entries still to handle,
    then the delete phase. *)
Definition execute_from (gh_repo remote : option string)
    (entries : list RenameEntry) (st : ExecuteResult * gset string)
    : M ExecuteResult :=
  st' <- rename_phase remote entries st ;;
  delete_phase gh_repo remote st'.2 st'.1.

(** *** Results and what a run records *)

Definition counts_ok (result : ExecuteResult) : Prop :=
  renamed_count result = length (renamed_tags result) ∧
  deleted_count result = length (deleted_tags result).


(** The last invocation before [w] was a list or resolve that failed with
    [stderr]. *)
Definition read_failed (stderr : string) (w : World) : Prop :=
  ∃ h c, history w = h ++ [(c, ExitFail stderr)] ∧ reads c.

(** Some [git] invocation made after [w0] up to [w] failed. *)
Definition failed_since (w0 w : World) : Prop :=
  ∃ h, history w = history w0 ++ h ∧ forallb git_ok h = false.

(** The text of the error for a target that sits on another commit. *)
Definition conflict_message (old_tag new_tag old_commit new_commit : string) : string :=
  "Conflict: " +:+ old_tag +:+ " and " +:+ new_tag
  +:+ " point to different commits. "
  +:+ "Old: " +:+ slice_to 8 old_commit
  +:+ ", existing: " +:+ slice_to 8 new_commit +:+ ". Skipped.".

(** Relation [I] survives what [entry] may do to the result and the protected
    set besides recording failures: append its conflict error, or record a
    rename and protect its new name. *)
Definition entry_allowed (I : ExecuteResult → gset string → World → Prop)
    (entry : RenameEntry) : Prop :=
  (∀ result prot old_commit new_commit w,
     I result prot w →
     I (add_error result
          (conflict_message (old_name entry) (new_name entry) old_commit new_commit))
       prot w) ∧
  (∀ result prot msg w,
     I result prot w →
     I (add_renamed result msg) ({[new_name entry]} ∪ prot) w).

(** An entry as [plan] builds it. *)
Definition legacy_entry (entry : RenameEntry) : Prop :=
  startswith (old_name entry) NWAVE_PREFIX = true ∧
  new_name entry = rename_target (old_name entry).

(** [msg] is the conflict error of an old tag that satisfies [L]. *)
Definition other_conflict (L : string → Prop) (msg : string) : Prop :=
  ∃ old_tag new_tag old_commit new_commit,
    L old_tag ∧ msg = conflict_message old_tag new_tag old_commit new_commit.

(** The text recorded for a rename whose target was already there. *)
Definition resolved_note (A B : string) : string :=
  A +:+ " -> " +:+ B +:+ " (conflict resolved)".

(** What a run started in [w0] knows about the pair [A], [B] from its result
    and history: as long as no [git] invocation failed, every error is the
    conflict of an old tag in [L]; and once the entry of [A] is done
    ([after]), [B] is protected and the rename is recorded. *)
Definition tracking (w0 : World) (L : string → Prop) (A B : string) (after : bool)
    (result : ExecuteResult) (prot : gset string) (w : World) : Prop :=
  (∃ h, history w = history w0 ++ h ∧
        (forallb git_ok h = true → Forall (other_conflict L) (errors result))) ∧
  (after = true → B ∈ prot ∧ resolved_note A B ∈ renamed_tags result).

(** [A] is gone, locally and on the configured remote, and [B] is on [c_B]. *)
Definition settled (remote : option string) (A B c_B : string) (w : World) : Prop :=
  local_tags w !! A = None ∧
  local_tags w !! B = Some c_B ∧
  ∀ r, truthy remote = Some r → remote_tag w r A = None.

(** *** Walks, trails and reports *)

(** The commands that talk to a remote. *)
Definition pushes (c : Command) : Prop :=
  match c with
  | PushTag _ _ | PushDelete _ _ => True
  | _ => False
  end.

(** The command that talks to the release host. *)
Definition releases_tag (c : Command) : Prop :=
  match c with
  | ReleaseDelete _ _ => True
  | _ => False
  end.

(** The local tag namespace after command [c] completed with [r]. *)
Definition local_after (c : Command) (r : Completed) (m : gmap string string)
    : gmap string string :=
  match c, r with
  | TagCreate t commit, Exit0 _ => <[t := commit]> m
  | TagDelete t, Exit0 _ => delete t m
  | _, _ => m
  end.

(** [steps ψ w w']: [w'] comes from [w] by a sequence of process invocations;
    [ψ] holds of each, of the world it was made in, its command and its
    completion. *)
Inductive steps (ψ : World → Command → Completed → Prop) (w : World) : World → Prop :=
  | steps_refl : steps ψ w w
  | steps_step w1 w2 c r :
      steps ψ w w1 → invoke c w1 = (r, w2) → ψ w1 c r → steps ψ w w2.

(** What the rename phase invokes: it lists and resolves; it creates only the
    target of a legacy tag that is there, on the commit of that tag; it
    deletes only a legacy tag, and if the tag is there then so is its target,
    on the same commit. *)
Definition renames (w : World) (c : Command) (_ : Completed) : Prop :=
  match c with
  | TagList | RevList _ => True
  | TagCreate t commit =>
      ∃ old c_old, startswith old NWAVE_PREFIX = true ∧ t = rename_target old ∧
                   local_tags w !! old = Some c_old ∧ commit = strip c_old
  | PushTag _ t => ∃ old, startswith old NWAVE_PREFIX = true ∧ t = rename_target old
  | TagDelete t =>
      startswith t NWAVE_PREFIX = true ∧
      ∀ c, local_tags w !! t = Some c →
           ∃ c', local_tags w !! rename_target t = Some c' ∧ strip c' = strip c
  | PushDelete _ t => startswith t NWAVE_PREFIX = true
  | ReleaseDelete _ _ => False
  end.

(** What the delete phase invokes: it lists, and it deletes tags that are
    outside the protected set and classified [DELETE]; it creates nothing. *)
Definition deletes (prot : gset string) (_ : World) (c : Command) (_ : Completed)
    : Prop :=
  match c with
  | TagList => True
  | TagDelete t | PushDelete _ t | ReleaseDelete _ t =>
      (t ∉ prot) ∧ classify_tag t = DELETE
  | RevList _ | TagCreate _ _ | PushTag _ _ => False
  end.

(** [note] is what [execute] records in [renamed_tags] for a rename of [old]
    to [new], plain or as a resolved conflict. *)
Definition renamed_as (old new note : string) : Prop :=
  note = old +:+ " -> " +:+ new ∨
  note = old +:+ " -> " +:+ new +:+ " (conflict resolved)".

(** The protected set against the renames recorded so far and the world:
    every protected tag is there and is the target of a recorded rename of a
    legacy tag, and every recorded rename has its target protected. *)
Definition protects (st : ExecuteResult * gset string) (w : World) : Prop :=
  (∀ t, t ∈ st.2 →
     is_Some (local_tags w !! t) ∧
     ∃ old note, startswith old NWAVE_PREFIX = true ∧ t = rename_target old ∧
                 renamed_as old t note ∧ note ∈ renamed_tags st.1) ∧
  (∀ note, note ∈ renamed_tags st.1 →
     ∃ old, startswith old NWAVE_PREFIX = true ∧
            renamed_as old (rename_target old) note ∧ rename_target old ∈ st.2).

(** The rename phase of a run started in [w] has come to its end in [w1] with
    state [st]: nothing is recorded as deleted yet, the protected set is what
    the recorded renames make it, and a tag of [w] that is gone has its target
    protected. *)
Definition renamed_until (w : World) (st : ExecuteResult * gset string) (w1 : World)
    : Prop :=
  steps renames w w1 ∧
  deleted_tags st.1 = [] ∧
  protects st w1 ∧
  ∀ t, is_Some (local_tags w !! t) → local_tags w1 !! t = None →
       rename_target t ∈ st.2.

(** [trail w l w']: the invocations made from [w] to [w'] are [l]. *)
Definition trail (w : World) (l : list (Command * Completed)) (w' : World) : Prop :=
  history w' = history w ++ l.

(** Every error recorded so far by a run started in [w0] is the description
    of an invocation that failed in the run, or the conflict of an old tag
    that satisfies [L]. *)
Definition reported (w0 : World) (L : string → Prop) (result : ExecuteResult)
    (w : World) : Prop :=
  ∃ h, history w = history w0 ++ h ∧
    Forall (λ msg,
              (∃ c stderr, (c, ExitFail stderr) ∈ h ∧ describe c stderr = Some msg) ∨
              other_conflict L msg)
           (errors result).

(** A command of the rename phase, whatever the world: a listing or resolve,
    the creation or push of the target of a legacy name, or the deletion of a
    legacy name. *)
Definition rename_command (c : Command) : Prop :=
  match c with
  | TagList | RevList _ => True
  | TagCreate t _ | PushTag _ t =>
      ∃ old, startswith old NWAVE_PREFIX = true ∧ t = rename_target old
  | TagDelete t | PushDelete _ t => startswith t NWAVE_PREFIX = true
  | ReleaseDelete _ _ => False
  end.

(** A command of the delete phase, whatever the protected set: a listing, or
    a deletion for a tag classified [DELETE]. *)
Definition delete_command (c : Command) : Prop :=
  match c with
  | TagList => True
  | TagDelete t | PushDelete _ t | ReleaseDelete _ t => classify_tag t = DELETE
  | RevList _ | TagCreate _ _ | PushTag _ _ => False
  end.

(** The invocation made for the remote, or for the release host, when one is
    configured; none otherwise. *)
Definition on_remote (remote : option string) (c : string → Command)
    (l : list (Command * Completed)) : Prop :=
  match truthy remote with
  | Some rem => ∃ r, l = [(c rem, r)]
  | None => l = []
  end.

(** The invocations of one pass of the rename loop that came to its end, for
    [entry]: the listing and the resolve of the old tag, both exited 0, and
    then, along the branch the outputs select,
    - the target is listed and resolves to another commit: that resolve;
    - the target is listed and resolves to the same commit: that resolve,
      the local deletion of the old tag and, with a remote, its remote
      deletion, however the deletions ended;
    - the target is not listed and its creation failed: the creation;
    - the target is not listed and was created: the creation, the push with a
      remote, the local deletion of the old tag and, with a remote, its
      remote deletion, however push and deletions ended. *)
Definition entry_trail (remote : option string) (entry : RenameEntry)
    (l : list (Command * Completed)) : Prop :=
  ∃ out0 out1 l',
    l = (TagList, Exit0 out0) :: (RevList (old_name entry), Exit0 out1) :: l' ∧
    let existing_tags := sorted (filter (λ l, l ≠ "") (strip <$> out0)) in
    let old_commit := strip (unlines out1) in
    (new_name entry ∈ existing_tags ∧
     ∃ out2, strip (unlines out2) ≠ old_commit ∧
       l' = [(RevList (new_name entry), Exit0 out2)]) ∨
    (new_name entry ∈ existing_tags ∧
     ∃ out2 r l_remote, strip (unlines out2) = old_commit ∧
       l' = (RevList (new_name entry), Exit0 out2)
            :: (TagDelete (old_name entry), r) :: l_remote ∧
       on_remote remote (λ rem, PushDelete rem (old_name entry)) l_remote) ∨
    ((new_name entry ∉ existing_tags) ∧
     ∃ stderr, l' = [(TagCreate (new_name entry) old_commit, ExitFail stderr)]) ∨
    ((new_name entry ∉ existing_tags) ∧
     ∃ out3 l_push r l_remote,
       l' = (TagCreate (new_name entry) old_commit, Exit0 out3)
            :: l_push ++ (TagDelete (old_name entry), r) :: l_remote ∧
       on_remote remote (λ rem, PushTag rem (new_name entry)) l_push ∧
       on_remote remote (λ rem, PushDelete rem (old_name entry)) l_remote).

(** The invocations of one pass of the delete loop, for [tag]: none for a
    protected tag or a legacy tag; otherwise the local deletion and, when it
    exited 0, the remote deletion with a remote and the release deletion with
    a release host, however these two ended. *)
Definition tag_trail (gh_repo remote : option string) (prot : gset string)
    (tag : string) (l : list (Command * Completed)) : Prop :=
  (l = [] ∧ (tag ∈ prot ∨ classify_tag tag = RENAME)) ∨
  ((tag ∉ prot) ∧ classify_tag tag = DELETE ∧
   ((∃ stderr, l = [(TagDelete tag, ExitFail stderr)]) ∨
    (∃ out l_remote l_release,
       l = (TagDelete tag, Exit0 out) :: l_remote ++ l_release ∧
       on_remote remote (λ rem, PushDelete rem tag) l_remote ∧
       on_remote gh_repo (λ repo, ReleaseDelete repo tag) l_release))).

(** [l] is made of one trail for each element of [xs], in the order of [xs]. *)
Fixpoint trail_of_each {X} (P : X → list (Command * Completed) → Prop)
    (xs : list X) (l : list (Command * Completed)) : Prop :=
  match xs with
  | [] => l = []
  | x :: xs' => ∃ l1 l2, l = l1 ++ l2 ∧ P x l1 ∧ trail_of_each P xs' l2
  end.

(** ** The repositories of the test suite, and variations *)

(** Two commit ids. *)
Definition commit0 : string := "3b18e512dba79e4c8300dd08aeb37f8e728b8dad".

Definition commit1 : string := "9fceb02d0ae598e95dc970b74767f19372d61af8".

(** A repository without remote, release or fault whose tags all sit on the
    one commit, as the fixtures of the tests make them. *)
Definition repo_with (names : list string) : World :=
  mkWorld (list_to_map ((λ n, (n, commit0)) <$> names)) ∅ ∅ (λ _, None) [].

Definition temp_git_repo : World :=
  repo_with ["v2.17.0"; "v2.17.1"; "v2.17.2"; "v2.17.3"; "v2.17.4"; "v2.17.5";
             "v2.17.6"; "nWave_v1.1.21"; "nWave_v1.1.20"; "v1.4.8"].

Definition conflict_same_commit_repo : World :=
  repo_with ["nWave_v1.1.21"; "v1.1.21"].

(** A repository in which the legacy tag and its target sit on different
    commits. *)
Definition conflict_different_commit_repo : World :=
  mkWorld (list_to_map [("nWave_v1.1.21", commit0); ("v1.1.21", commit1)])
          ∅ ∅ (λ _, None) [].

(** A repository with two legacy tags: the target of one sits on the same
    commit, the target of the other on a different one. *)
Definition mixed_conflict_repo : World :=
  mkWorld (list_to_map [("nWave_v1.1.20", commit0); ("v1.1.20", commit1);
                        ("nWave_v1.1.21", commit0); ("v1.1.21", commit0)])
          ∅ ∅ (λ _, None) [].

(** The ten tags of the scenario of the test suite, on arbitrary commits, next
    to arbitrary remotes, releases and earlier invocations; no fault. *)
Definition scenario_repo (commit : string → string)
    (rem : gmap string (gmap string string)) (rel : gset (string * string))
    (hist : list (Command * Completed)) : World :=
  mkWorld (list_to_map ((λ n, (n, commit n)) <$>
             ["nWave_v1.1.20"; "nWave_v1.1.21"; "v2.17.0"; "v2.17.1"; "v2.17.2";
              "v2.17.3"; "v2.17.4"; "v2.17.5"; "v2.17.6"; "v1.4.8"]))
          rem rel (λ _, None) hist.


(** A repository with one legacy and one plain tag, in which the fourth
    invocation of a run, the tag creation, exits non-zero. *)
Definition create_fault_repo : World :=
  mkWorld (list_to_map [("nWave_v1.1.21", commit0); ("v2.17.0", commit0)]) ∅ ∅
          (λ n, if decide (n = 3) then Some "fatal: cannot lock ref" else None) [].

(** The repository without tags of the test suite. *)
Definition empty_git_repo : World := repo_with [].

(** The clone of the test suite whose tags are all on its remote [origin],
    with a hosted release for one of them. *)
Definition temp_git_repo_with_remote : World :=
  let there : gmap string string :=
    list_to_map ((λ n, (n, commit0)) <$>
                   ["v2.17.0"; "v2.17.1"; "v2.17.2"; "nWave_v1.1.21"; "v1.4.8"]) in
  mkWorld there {["origin" := there]} {[("owner/repo", "v1.4.8")]} (λ _, None) [].

(** A repository with one plain tag in which the third invocation of a run,
    the deletion of the tag, exits non-zero. *)
Definition delete_fault_repo : World :=
  mkWorld (list_to_map [("v2.17.0", commit0)]) ∅ ∅
          (λ n, if decide (n = 2) then Some "error: cannot lock ref" else None) [].

(** * Properties *)

(** ** Strings *)

Lemma app_cons (c : ascii) (s r : string) : String c s +:+ r = String c (s +:+ r).
Proof. reflexivity. Qed.

Lemma app_assoc_str (s1 s2 s3 : string) : (s1 +:+ s2) +:+ s3 = s1 +:+ (s2 +:+ s3).
Proof. induction s1 as [|c s1 IH]; [done|]. by rewrite !app_cons, IH. Qed.

Lemma startswith_spec (s p : string) :
  startswith s p = true ↔ ∃ suffix, s = p +:+ suffix.
Proof.
  revert s. induction p as [|c p IH]; intros s; simpl.
  - split; [intros _; by exists s|done].
  - destruct s as [|d s].
    + split; [done|]. intros [r Hr]. by rewrite app_cons in Hr.
    + destruct (decide (c = d)) as [->|Hne].
      * rewrite IH. split; intros [r Hr]; exists r.
        -- by rewrite app_cons, Hr.
        -- rewrite app_cons in Hr. by simplify_eq.
      * split; [done|]. intros [r Hr]. rewrite app_cons in Hr. by simplify_eq.
Qed.

Lemma slice_from_app (p s : string) : slice_from (String.length p) (p +:+ s) = s.
Proof. induction p as [|c p IH]; [done|]. by rewrite app_cons. Qed.

Lemma occurs_in_app_l (s t r : string) : occurs_in s t → occurs_in s (r +:+ t).
Proof.
  intros (pre & post & ->). exists (r +:+ pre), post. by rewrite app_assoc_str.
Qed.

Lemma occurs_in_head (s r : string) : occurs_in s (s +:+ r).
Proof. by exists "", r. Qed.

(** ** Classifier *)

Lemma classify_tag_RENAME (tag : string) :
  classify_tag tag = RENAME ↔ startswith tag NWAVE_PREFIX = true.
Proof. unfold classify_tag. destruct (startswith _ _); naive_solver. Qed.

Lemma classify_tag_DELETE (tag : string) :
  classify_tag tag = DELETE ↔ startswith tag NWAVE_PREFIX = false.
Proof. unfold classify_tag. destruct (startswith _ _); naive_solver. Qed.

Lemma rename_target_head (tag : string) :
  rename_target tag = String "v" (slice_from 7 tag).
Proof. reflexivity. Qed.

(** C7: [classify_tag T] is [RENAME] exactly when [T] starts with the legacy
    prefix ["nWave_v"], and [DELETE] in every other case; being a function, it
    is defined on every name and depends on nothing else. *)
Theorem classify_tag_prefix (T : string) :
  (classify_tag T = RENAME ↔ ∃ suffix, T = NWAVE_PREFIX +:+ suffix) ∧
  (classify_tag T = DELETE ↔ ¬ ∃ suffix, T = NWAVE_PREFIX +:+ suffix).
Proof.
  rewrite classify_tag_RENAME, classify_tag_DELETE, <- startswith_spec.
  destruct (startswith T NWAVE_PREFIX); naive_solver.
Qed.

(** ** Planner *)

Lemma foldl_plan_step (tags : list string) (acc : CleanupPlan) :
  to_rename (foldl plan_step acc tags) =
    to_rename acc ++
    ((λ t, mkRenameEntry t (rename_target t)) <$>
       filter (λ t, classify_tag t = RENAME) tags) ∧
  to_delete (foldl plan_step acc tags) =
    to_delete acc ++
    ((λ t, mkClassifiedTag t DELETE) <$>
       filter (λ t, ¬ classify_tag t = RENAME) tags).
Proof.
  revert acc. induction tags as [|t tags IH]; intros acc; simpl.
  - by rewrite !app_nil_r.
  - destruct (IH (plan_step acc t)) as [-> ->]. unfold plan_step.
    rewrite !filter_cons. destruct (decide (classify_tag t = RENAME)) as [Ht|Ht].
    + rewrite decide_False by tauto. simpl. by rewrite <- app_assoc.
    + rewrite decide_True by done. simpl. rewrite <- app_assoc.
      by destruct (classify_tag t).
Qed.

Lemma plan_of_list (w w' : World) (tags : list string) :
  _list_tags w = Return tags w' →
  plan w = Return (foldl plan_step CleanupPlan0 tags) w'.
Proof. intros H. unfold plan, bind. by rewrite H. Qed.

(** C5: the old names of [plan().to_rename] together with the names of
    [plan().to_delete] are the current tag list (as a rearrangement, hence as
    a set), no name is in both, and every entry of [to_delete] is [DELETE].
    The split is the one [classify_tag] makes: [to_rename] holds, in the order
    of the list, the tags it classifies [RENAME], each paired with its rename
    target, and [to_delete] the tags it classifies [DELETE], each carrying
    that classification. *)
Theorem plan_partitions_tags (w w' : World) (tags : list string) :
  _list_tags w = Return tags w' →
  ∃ p, plan w = Return p w' ∧
    (old_name <$> to_rename p) ++ (name <$> to_delete p) ≡ₚ tags ∧
    (∀ t, t ∈ tags ↔ t ∈ old_name <$> to_rename p ∨ t ∈ name <$> to_delete p) ∧
    (∀ t, ¬ (t ∈ old_name <$> to_rename p ∧ t ∈ name <$> to_delete p)) ∧
    Forall (λ ct, classification ct = DELETE) (to_delete p) ∧
    old_name <$> to_rename p = filter (λ t, classify_tag t = RENAME) tags ∧
    name <$> to_delete p = filter (λ t, classify_tag t = DELETE) tags ∧
    Forall (λ e, classify_tag (old_name e) = RENAME ∧
                 new_name e = rename_target (old_name e)) (to_rename p) ∧
    Forall (λ ct, classification ct = classify_tag (name ct)) (to_delete p).
Proof.
  intros Hlist. eexists. split; [by apply plan_of_list|].
  destruct (foldl_plan_step tags CleanupPlan0) as [-> ->]. simpl.
  rewrite <- !list_fmap_compose.
  assert (∀ l : list string, (old_name ∘ (λ t, mkRenameEntry t (rename_target t))) <$> l = l)
    as -> by (intros l; apply list_fmap_id).
  assert (∀ l : list string, (name ∘ (λ t, mkClassifiedTag t DELETE)) <$> l = l)
    as -> by (intros l; apply list_fmap_id).
  split_and!.
  - apply filter_app_complement.
  - intros t. rewrite !list_elem_of_filter.
    destruct (decide (classify_tag t = RENAME)); tauto.
  - intros t. rewrite !list_elem_of_filter. tauto.
  - apply Forall_fmap, Forall_forall. done.
  - done.
  - apply list_filter_iff. intros t. destruct (classify_tag t); naive_solver.
  - apply Forall_fmap, Forall_forall. by intros t [Ht _]%list_elem_of_filter.
  - apply Forall_fmap, Forall_forall. intros t [Ht _]%list_elem_of_filter. simpl.
    by destruct (classify_tag t).
Qed.

Lemma plan_partitions_tags_witness :
  ∃ p, plan conflict_same_commit_repo
       = Return p (world_of (_list_tags conflict_same_commit_repo)) ∧
    (old_name <$> to_rename p) ++ (name <$> to_delete p)
      ≡ₚ ["nWave_v1.1.21"; "v1.1.21"] ∧
    (∀ t, t ∈ ["nWave_v1.1.21"; "v1.1.21"]
          ↔ t ∈ old_name <$> to_rename p ∨ t ∈ name <$> to_delete p) ∧
    (∀ t, ¬ (t ∈ old_name <$> to_rename p ∧ t ∈ name <$> to_delete p)) ∧
    Forall (λ ct, classification ct = DELETE) (to_delete p) ∧
    old_name <$> to_rename p
      = filter (λ t, classify_tag t = RENAME) ["nWave_v1.1.21"; "v1.1.21"] ∧
    name <$> to_delete p
      = filter (λ t, classify_tag t = DELETE) ["nWave_v1.1.21"; "v1.1.21"] ∧
    Forall (λ e, classify_tag (old_name e) = RENAME ∧
                 new_name e = rename_target (old_name e)) (to_rename p) ∧
    Forall (λ ct, classification ct = classify_tag (name ct)) (to_delete p).
Proof.
  apply (plan_partitions_tags conflict_same_commit_repo). vm_compute. reflexivity.
Defined.

(** ** Reasoning about computations *)

Lemma wp_ret {A} (a : A) w (Q : A → World → Prop) E : Q a w → wp (ret a) w Q E.
Proof. done. Qed.

Lemma wp_bind {A B} (m : M A) (k : A → M B) w (Q : B → World → Prop) E :
  wp m w (λ a w', wp (k a) w' Q E) E → wp (bind m k) w Q E.
Proof. unfold wp, bind. by destruct (m w). Qed.

Lemma wp_try {A} (m : M A) w (Q : A + string → World → Prop) E :
  wp m w (λ a w', Q (inl a) w') (λ e w', Q (inr e) w') → wp (try_ m) w Q E.
Proof. unfold wp, try_. by destruct (m w). Qed.

Lemma wp_mono {A} (m : M A) w (Q Q' : A → World → Prop) (E E' : string → World → Prop) :
  wp m w Q E → (∀ a w', Q a w' → Q' a w') → (∀ e w', E e w' → E' e w') →
  wp m w Q' E'.
Proof. unfold wp. destruct (m w); auto. Qed.

Lemma wp_subprocess_run c w (Q : list string → World → Prop) E :
  (∀ r w', invoke c w = (r, w') →
     match r with Exit0 out => Q out w' | ExitFail err => E err w' end) →
  wp (subprocess_run c) w Q E.
Proof.
  intros H. unfold wp, subprocess_run. specialize (H (invoke c w).1 (invoke c w).2).
  destruct (invoke c w) as [[out|err] w']; by apply H.
Qed.

Lemma wp_Return {A} (m : M A) w a w' (Q : A → World → Prop) E :
  wp m w Q E → m w = Return a w' → Q a w'.
Proof. unfold wp. intros H Heq. by rewrite Heq in H. Qed.

(** ** The process model *)

Lemma perform_faults c w : faults (perform c w).2 = faults w.
Proof.
  destruct c; simpl; repeat (case_match; simpl); done.
Qed.

Lemma perform_history c w : history (perform c w).2 = history w.
Proof.
  destruct c; simpl; repeat (case_match; simpl); done.
Qed.

Lemma invoke_history c w r w' :
  invoke c w = (r, w') → history w' = history w ++ [(c, r)].
Proof.
  unfold invoke. destruct (faults w _).
  - intros [= <- <-]. done.
  - pose proof (perform_history c w) as Hh. destruct (perform c w) as [r1 w1].
    intros [= <- <-]. simpl in *. by rewrite Hh.
Qed.

Lemma invoke_faults c w r w' : invoke c w = (r, w') → faults w' = faults w.
Proof.
  unfold invoke. destruct (faults w _).
  - intros [= <- <-]. done.
  - pose proof (perform_faults c w) as Hh. destruct (perform c w) as [r1 w1].
    intros [= <- <-]. done.
Qed.

Lemma same_tag_refl t w : same_tag t w w.
Proof. done. Qed.

Lemma same_tag_trans t w1 w2 w3 :
  same_tag t w1 w2 → same_tag t w2 w3 → same_tag t w1 w3.
Proof.
  intros (Ha & Hb & Hc) (Ha' & Hb' & Hc'). split_and!.
  - by rewrite Ha'.
  - intros r. by rewrite Hb'.
  - intros repo. by rewrite Hc'.
Qed.

Lemma same_tag_refs t w w' : refs_of w' = refs_of w → same_tag t w w'.
Proof.
  unfold refs_of, same_tag, remote_tag. intros [= -> -> ->]. done.
Qed.

Lemma perform_same_tag c w t :
  writes c ≠ Some t → same_tag t w (perform c w).2.
Proof.
  intros Hw. destruct c as [| |t' commit|t'|r t'|r t'|repo t']; simpl in Hw;
    try apply same_tag_refl; simpl.
  - by case_match.
  - case_match; [done|]. split_and!; try done. simpl.
    rewrite lookup_insert_ne; [done|congruence].
  - case_match; [|done]. split_and!; try done. simpl.
    rewrite lookup_delete_ne; [done|congruence].
  - destruct (remotes w !! r) as [there|] eqn:Hr; [|done].
    destruct (local_tags w !! t') as [commit|]; [|done].
    destruct (there !! t') as [c'|]; [by case_decide|].
    split_and!; try done. unfold remote_tag. simpl. intros r0.
    destruct (decide (r = r0)) as [<-|Hne].
    + rewrite lookup_insert_eq, Hr. simpl.
      rewrite lookup_insert_ne; [done|congruence].
    + by rewrite lookup_insert_ne.
  - destruct (remotes w !! r) as [there|] eqn:Hr; [|done].
    destruct (there !! t') as [c'|]; [|done].
    split_and!; try done. unfold remote_tag. simpl. intros r0.
    destruct (decide (r = r0)) as [<-|Hne].
    + rewrite lookup_insert_eq, Hr. simpl.
      rewrite lookup_delete_ne; [done|congruence].
    + by rewrite lookup_insert_ne.
  - case_decide; [|done]. split_and!; try done. simpl. intros repo0.
    rewrite elem_of_difference, elem_of_singleton.
    split; [tauto|]. intros ?. split; [done|]. congruence.
Qed.

Lemma invoke_same_tag c w r w' t :
  invoke c w = (r, w') → writes c ≠ Some t → same_tag t w w'.
Proof.
  intros Hinv Hw. unfold invoke in Hinv. destruct (faults w _).
  - injection Hinv as <- <-. done.
  - pose proof (perform_same_tag c w t Hw) as Hs.
    destruct (perform c w) as [r1 w1]. injection Hinv as <- <-. done.
Qed.

(** ** Sequences of invocations *)

Lemma reach_trans φ w1 w2 w3 : reach φ w1 w2 → reach φ w2 w3 → reach φ w1 w3.
Proof. intros H12 H23. induction H23; [done|]. eapply reach_step; eauto. Qed.

Lemma reach_mono (φ ψ : Command → Completed → Prop) w w' :
  (∀ c r, φ c r → ψ c r) → reach φ w w' → reach ψ w w'.
Proof.
  intros Himp H. induction H; [apply reach_refl|].
  eapply reach_step; eauto.
Qed.

Lemma reach_history φ w w' :
  reach φ w w' →
  ∃ h, history w' = history w ++ h ∧ Forall (λ cr, φ cr.1 cr.2) h.
Proof.
  induction 1 as [|w1 w2 c r _ (h & Hh & Hall) Hinv Hφ].
  - exists []. by rewrite app_nil_r.
  - exists (h ++ [(c, r)]). split.
    + by rewrite (invoke_history _ _ _ _ Hinv), Hh, app_assoc.
    + apply Forall_app. split; [done|]. by apply Forall_singleton.
Qed.

Lemma reach_since φ w w' :
  reach φ w w' →
  history w' = history w ++ since w w' ∧ Forall (λ cr, φ cr.1 cr.2) (since w w').
Proof.
  intros (h & Hh & Hall)%reach_history. unfold since.
  by rewrite Hh, drop_app_length.
Qed.

Lemma reach_same_tag φ t w w' :
  (∀ c r, φ c r → writes c ≠ Some t) → reach φ w w' → same_tag t w w'.
Proof.
  intros Hφ. induction 1 as [|w1 w2 c r _ IH Hinv Hc]; [apply same_tag_refl|].
  eapply same_tag_trans; [done|]. eapply invoke_same_tag; eauto.
Qed.

Lemma runs_ret {A} φ (a : A) : runs φ (ret a).
Proof. intros w0 w H. by apply wp_ret. Qed.

Lemma runs_bind {A B} φ (m : M A) (k : A → M B) :
  runs φ m → (∀ a, runs φ (k a)) → runs φ (bind m k).
Proof.
  intros Hm Hk w0 w H. apply wp_bind. eapply wp_mono; [by apply Hm|..].
  - intros a w' H'. by apply Hk.
  - done.
Qed.

Lemma runs_try {A} φ (m : M A) : runs φ m → runs φ (try_ m).
Proof.
  intros Hm w0 w H. apply wp_try. eapply wp_mono; [by apply Hm|..]; done.
Qed.

Lemma runs_subprocess_run φ c : (∀ r, φ c r) → runs φ (subprocess_run c).
Proof.
  intros Hφ w0 w H. apply wp_subprocess_run. intros r w' Hinv.
  destruct r; eapply reach_step; eauto.
Qed.

Lemma runs_reach {A} φ (m : M A) w : runs φ m → reach φ w (world_of (m w)).
Proof.
  intros Hm. specialize (Hm w w (reach_refl φ w)). unfold wp in Hm.
  by destruct (m w).
Qed.

Ltac runs_step :=
  lazymatch goal with
  | |- runs _ (ret _) => apply runs_ret
  | |- runs _ (bind _ _) => apply runs_bind; [|intros ?]
  | |- runs _ (try_ _) => apply runs_try
  | |- runs _ (_run_git _) => apply runs_subprocess_run; intros ?
  | |- runs _ (subprocess_run _) => apply runs_subprocess_run; intros ?
  | |- runs _ (_list_tags) => unfold _list_tags
  | |- runs _ (_get_tag_commit _) => unfold _get_tag_commit
  | |- runs _ (_delete_tag_local _ _) => unfold _delete_tag_local
  | |- runs _ (_delete_tag_remote _ _ _) => unfold _delete_tag_remote
  | |- runs _ (_delete_gh_release _ _) => unfold _delete_gh_release
  | |- runs _ (match ?x with _ => _ end) => destruct x eqn:?
  end.

(** ** Phase 2 and the protected set *)

Lemma delete_step_spares gh_repo remote prot tag result :
  runs (spares prot) (delete_step gh_repo remote prot tag result).
Proof.
  unfold delete_step. destruct (decide (tag ∈ prot)) as [|Hnot]; [apply runs_ret|].
  assert (∀ c r, writes c = Some tag → spares prot c r) as Hok.
  { intros c r Hc t Ht. rewrite Hc. intros [= ->]. done. }
  repeat runs_step; by apply Hok.
Qed.

Lemma delete_loop_spares gh_repo remote prot tags result :
  runs (spares prot) (delete_loop gh_repo remote prot tags result).
Proof.
  revert result. induction tags as [|tag tags IH]; intros result; simpl.
  - apply runs_ret.
  - apply runs_bind; [apply delete_step_spares|done].
Qed.

Lemma delete_phase_spares gh_repo remote prot result :
  runs (spares prot) (delete_phase gh_repo remote prot result).
Proof.
  unfold delete_phase. apply runs_bind.
  - repeat runs_step. by intros t _.
  - intros tags. apply delete_loop_spares.
Qed.

Lemma execute_phases gh_repo remote w p w0 result prot w1 :
  plan w = Return p w0 →
  rename_phase remote (to_rename p) (ExecuteResult0, ∅) w0 = Return (result, prot) w1 →
  execute gh_repo remote w = delete_phase gh_repo remote prot result w1.
Proof. intros Hp Hr. unfold execute, bind. by rewrite Hp, Hr. Qed.

(** ** Invariants of a run

    A relation [I] between the result under construction, the protected set
    and the world that survives every successful invocation, every described
    failure once its text is appended, every dropped release failure and every
    bookkeeping update, holds of whatever [execute] returns; [E] collects what
    holds when a list or resolve fails. *)

Section Invariant.

Variable I : ExecuteResult → gset string → World → Prop.
Variable E : string → World → Prop.

Hypothesis I_exit0 : ∀ result prot c out w w',
  I result prot w → invoke c w = (Exit0 out, w') → I result prot w'.
Hypothesis E_read : ∀ result prot c stderr w w',
  I result prot w → reads c → invoke c w = (ExitFail stderr, w') → E stderr w'.
Hypothesis I_described : ∀ result prot c stderr msg w w',
  I result prot w → invoke c w = (ExitFail stderr, w') →
  describe c stderr = Some msg → I (add_error result msg) prot w'.
Hypothesis I_release : ∀ result prot repo tag stderr w w',
  I result prot w → invoke (ReleaseDelete repo tag) w = (ExitFail stderr, w') →
  I result prot w'.
Hypothesis I_deleted : ∀ result prot tag w,
  I result prot w → I (add_deleted result tag) prot w.

Lemma inv_read {A} c (f : list string → A) result prot w (Q : A → World → Prop) :
  reads c → I result prot w →
  (∀ a w', I result prot w' → Q a w') →
  wp (stdout <- _run_git c ;; ret (f stdout)) w Q E.
Proof.
  intros Hc HI HQ. apply wp_bind, wp_subprocess_run. intros [out|err] w' Hinv.
  - apply wp_ret, HQ. eauto.
  - eauto.
Qed.

Lemma inv_list_tags result prot w (Q : list string → World → Prop) :
  I result prot w → (∀ tags w', I result prot w' → Q tags w') →
  wp _list_tags w Q E.
Proof. intros. by eapply inv_read. Qed.

Lemma inv_get_tag_commit tag result prot w (Q : string → World → Prop) :
  I result prot w → (∀ commit w', I result prot w' → Q commit w') →
  wp (_get_tag_commit tag) w Q E.
Proof. intros. by eapply inv_read. Qed.

Lemma inv_try c result prot w (Q : list string + string → World → Prop) :
  I result prot w →
  (∀ out w', I result prot w' → Q (inl out) w') →
  (∀ stderr w',
     (∀ msg, describe c stderr = Some msg → I (add_error result msg) prot w') →
     Q (inr stderr) w') →
  wp (try_ (_run_git c)) w Q E.
Proof.
  intros HI Hok Hfail. apply wp_try, wp_subprocess_run. intros [out|err] w' Hinv.
  - eauto.
  - apply Hfail. eauto.
Qed.

Lemma inv_delete_tag_local tag result prot w
    (Q : bool * ExecuteResult → World → Prop) :
  I result prot w → (∀ d w', I d.2 prot w' → Q d w') →
  wp (_delete_tag_local tag result) w Q E.
Proof.
  intros HI HQ. apply wp_bind. eapply inv_try; [done|..].
  - intros out w' HI'. by apply wp_ret, HQ.
  - intros stderr w' HI'. apply wp_ret, HQ. by apply HI'.
Qed.

Lemma inv_delete_tag_remote tag remote result prot w
    (Q : bool * ExecuteResult → World → Prop) :
  I result prot w → (∀ d w', I d.2 prot w' → Q d w') →
  wp (_delete_tag_remote tag remote result) w Q E.
Proof.
  intros HI HQ. apply wp_bind. eapply inv_try; [done|..].
  - intros out w' HI'. by apply wp_ret, HQ.
  - intros stderr w' HI'. apply wp_ret, HQ. by apply HI'.
Qed.

Lemma inv_delete_tag_remote_if tag remote (d : bool * ExecuteResult) prot w
    (Q : bool * ExecuteResult → World → Prop) :
  I d.2 prot w → (∀ d' w', I d'.2 prot w' → Q d' w') →
  wp (match truthy remote with
      | Some remote => _delete_tag_remote tag remote d.2
      | None => ret d
      end) w Q E.
Proof.
  intros HI HQ. destruct (truthy remote).
  - by eapply inv_delete_tag_remote.
  - by apply wp_ret, HQ.
Qed.

Lemma inv_delete_gh_release repo tag result prot w (Q : unit → World → Prop) :
  I result prot w → (∀ w', I result prot w' → Q tt w') →
  wp (_delete_gh_release repo tag) w Q E.
Proof.
  intros HI HQ. apply wp_bind, wp_try, wp_subprocess_run.
  intros [out|err] w' Hinv; apply wp_ret, HQ; eauto.
Qed.

Lemma inv_rename_step remote entry result prot w
    (Q : ExecuteResult * gset string → World → Prop) :
  entry_allowed I entry →
  I result prot w → (∀ st w', I st.1 st.2 w' → Q st w') →
  wp (rename_step remote entry (result, prot)) w Q E.
Proof.
  intros [Hconf Hren] HI HQ. unfold rename_step.
  apply wp_bind, (inv_list_tags result prot); [done|]. intros existing w1 HI1.
  destruct (decide (new_name entry ∈ existing)) as [Hin|Hnot].
  - apply wp_bind, (inv_get_tag_commit _ result prot); [done|].
    intros old_commit w2 HI2.
    apply wp_bind, (inv_get_tag_commit _ result prot); [done|].
    intros new_commit w3 HI3.
    destruct (decide (old_commit = new_commit)) as [Heq|Hne].
    + apply wp_bind, (inv_delete_tag_local _ _ prot); [done|]. intros d w4 HI4.
      apply wp_bind, (inv_delete_tag_remote_if _ _ _ prot); [done|].
      intros d' w5 HI5.
      apply wp_ret, HQ. by apply Hren.
    + apply wp_ret, HQ. by apply Hconf.
  - apply wp_bind, (inv_get_tag_commit _ result prot); [done|].
    intros commit w2 HI2.
    apply wp_bind. eapply inv_try; [done|..].
    + intros out w3 HI3. apply wp_bind.
      assert (∀ result' w', I result' prot w' →
        wp (d <- _delete_tag_local (old_name entry) result' ;;
            d0 <- match truthy remote with
                  | Some remote0 => _delete_tag_remote (old_name entry) remote0 d.2
                  | None => ret d
                  end ;;
            ret (add_renamed d0.2 (old_name entry +:+ " -> " +:+ new_name entry),
                 {[new_name entry]} ∪ prot)) w' Q E) as Hrest.
      { intros result' w' HI'.
        apply wp_bind, (inv_delete_tag_local _ _ prot); [done|]. intros d w4 HI4.
        apply wp_bind, (inv_delete_tag_remote_if _ _ _ prot); [done|].
        intros d' w5 HI5.
        apply wp_ret, HQ. by apply Hren. }
      destruct (truthy remote) as [r|].
      * apply wp_bind. eapply inv_try; [done|..].
        -- intros out' w4 HI4. by apply wp_ret, Hrest.
        -- intros stderr w4 HI4. apply wp_ret, Hrest. by apply HI4.
      * by apply wp_ret, Hrest.
    + intros stderr w3 HI3. apply wp_ret, HQ. by apply HI3.
Qed.

Lemma inv_rename_phase remote entries st w
    (Q : ExecuteResult * gset string → World → Prop) :
  Forall (entry_allowed I) entries →
  I st.1 st.2 w → (∀ st' w', I st'.1 st'.2 w' → Q st' w') →
  wp (rename_phase remote entries st) w Q E.
Proof.
  revert st w. induction entries as [|entry rest IH];
    intros [result prot] w Hconf HI HQ.
  - by apply wp_ret, HQ.
  - apply Forall_cons in Hconf as [Hentry Hrest]. simpl.
    apply wp_bind, inv_rename_step; [done..|]. intros st' w' HI'.
    by apply IH.
Qed.

Lemma inv_delete_step gh_repo remote prot tag result w
    (Q : ExecuteResult → World → Prop) :
  I result prot w → (∀ result' w', I result' prot w' → Q result' w') →
  wp (delete_step gh_repo remote prot tag result) w Q E.
Proof.
  intros HI HQ. unfold delete_step.
  destruct (decide (tag ∈ prot)); [by apply wp_ret, HQ|].
  destruct (decide (classify_tag tag = DELETE)); [|by apply wp_ret, HQ].
  apply wp_bind, (inv_delete_tag_local _ _ prot); [done|].
  intros [[] result1] w1 HI1; simpl.
  - apply wp_bind, (inv_delete_tag_remote_if _ _ (true, result1) prot); [done|].
    intros d w2 HI2. destruct (truthy gh_repo) as [repo|].
    + apply wp_bind, (inv_delete_gh_release _ _ (add_deleted d.2 tag) prot).
      * by apply I_deleted.
      * intros w3 HI3. by apply wp_ret, HQ.
    + apply wp_ret, HQ. by apply I_deleted.
  - by apply wp_ret, HQ.
Qed.

Lemma inv_delete_loop gh_repo remote prot tags result w
    (Q : ExecuteResult → World → Prop) :
  I result prot w → (∀ result' w', I result' prot w' → Q result' w') →
  wp (delete_loop gh_repo remote prot tags result) w Q E.
Proof.
  revert result w. induction tags as [|tag rest IH]; intros result w HI HQ.
  - by apply wp_ret, HQ.
  - simpl. apply wp_bind, inv_delete_step; [done|]. intros result' w' HI'.
    by apply IH.
Qed.

Lemma inv_delete_phase gh_repo remote prot result w
    (Q : ExecuteResult → World → Prop) :
  I result prot w → (∀ result' w', I result' prot w' → Q result' w') →
  wp (delete_phase gh_repo remote prot result) w Q E.
Proof.
  intros HI HQ. unfold delete_phase.
  apply wp_bind, (inv_list_tags result prot); [done|]. intros current w2 HI2.
  by apply inv_delete_loop.
Qed.

Lemma inv_execute gh_repo remote w (Q : ExecuteResult → World → Prop) :
  (∀ entry, entry_allowed I entry) →
  I ExecuteResult0 ∅ w → (∀ result prot w', I result prot w' → Q result w') →
  wp (execute gh_repo remote) w Q E.
Proof.
  intros Hconf HI HQ. unfold execute, plan.
  apply wp_bind, wp_bind, (inv_list_tags ExecuteResult0 ∅); [done|].
  intros tags w0 HI0. apply wp_ret.
  apply wp_bind, inv_rename_phase; [by apply Forall_forall|done|].
  intros [result prot] w1 HI1. simpl.
  apply inv_delete_phase; [done|]. eauto.
Qed.

End Invariant.

Lemma counts_ok_add_error result msg : counts_ok result → counts_ok (add_error result msg).
Proof. done. Qed.

Lemma counts_ok_add_renamed result msg :
  counts_ok result → counts_ok (add_renamed result msg).
Proof.
  intros [Hr Hd]. split; simpl; [|done]. rewrite length_app, Hr. done.
Qed.

Lemma counts_ok_add_deleted result tag :
  counts_ok result → counts_ok (add_deleted result tag).
Proof.
  intros [Hr Hd]. split; simpl; [done|]. rewrite length_app, Hd. done.
Qed.

(** C10: in every result [execute] returns, [renamed_count] is the length of
    [renamed_tags] and [deleted_count] is the length of [deleted_tags]. *)
Theorem execute_counts_match gh_repo remote w result w' :
  execute gh_repo remote w = Return result w' →
  renamed_count result = length (renamed_tags result) ∧
  deleted_count result = length (deleted_tags result).
Proof.
  intros Hexec.
  eapply (wp_Return _ _ _ _ (λ result _, counts_ok result) (λ _ _, True));
    [|exact Hexec].
  apply (inv_execute (λ result _ _, counts_ok result)); try done.
  - intros. by apply counts_ok_add_deleted.
  - intros entry. split; intros.
    + by apply counts_ok_add_error.
    + by apply counts_ok_add_renamed.
Qed.

Lemma execute_counts_match_witness :
  ∃ result w',
    execute None None temp_git_repo = Return result w' ∧
    renamed_count result = 2 ∧ deleted_count result = 8 ∧
    renamed_count result = length (renamed_tags result) ∧
    deleted_count result = length (deleted_tags result).
Proof.
  eexists _, _.
  split; [vm_compute; reflexivity|].
  split; [vm_compute; reflexivity|].
  split; [vm_compute; reflexivity|].
  eapply (execute_counts_match None None temp_git_repo). vm_compute. reflexivity.
Defined.

(** ** Failures and the [errors] list *)





(** ** White space *)

Lemma rstrip_app_newline (s : string) : rstrip (s +:+ String "010" "") = rstrip s.
Proof.
  induction s as [|c s IH]; [done|]. rewrite app_cons. simpl. by rewrite IH.
Qed.

Lemma lstrip_app_newline (s : string) :
  lstrip (s +:+ String "010" "") =
    match lstrip s with "" => "" | r => r +:+ String "010" "" end.
Proof.
  induction s as [|c s IH]; [done|]. rewrite app_cons. simpl.
  destruct (isspace c); [done|]. by rewrite app_cons.
Qed.

Lemma strip_unlines_one (commit : string) : strip (unlines [commit]) = strip commit.
Proof.
  unfold strip, unlines. simpl. rewrite lstrip_app_newline.
  destruct (lstrip commit) eqn:Hl; [done|].
  by rewrite rstrip_app_newline.
Qed.

(** ** Listing and resolving *)

Lemma elem_of_sorted (x : string) (l : list string) : x ∈ sorted l ↔ x ∈ l.
Proof. unfold sorted. by rewrite merge_sort_Permutation. Qed.

Lemma elem_of_tag_listing (w : World) (t : string) :
  t ∈ tag_listing w ↔
  t ≠ "" ∧ ∃ n, is_Some (local_tags w !! n) ∧ strip n = t.
Proof.
  unfold tag_listing. rewrite elem_of_sorted, list_elem_of_filter, list_elem_of_fmap.
  split.
  - intros (Hne & n & -> & Hn). split; [done|]. exists n. split; [|done].
    apply list_elem_of_fmap in Hn as ([n' c] & -> & Hnc).
    apply elem_of_map_to_list in Hnc. by exists c.
  - intros (Hne & n & [c Hc] & <-). split; [done|]. exists n. split; [done|].
    apply list_elem_of_fmap. exists (n, c). split; [done|].
    by apply elem_of_map_to_list.
Qed.

Lemma tag_listing_present (w : World) (t : string) :
  refname t → is_Some (local_tags w !! t) → t ∈ tag_listing w.
Proof.
  intros [Hs Hne] Ht. apply elem_of_tag_listing. split; [done|]. by exists t.
Qed.

Lemma tag_listing_absent (w : World) (t : string) :
  refnames w → local_tags w !! t = None → t ∉ tag_listing w.
Proof.
  intros Hw Ht (Hne & n & Hn & Heq)%elem_of_tag_listing.
  destruct (Hw n Hn) as [Hs _]. rewrite Hs in Heq. subst n.
  rewrite Ht in Hn. by destruct Hn.
Qed.

Lemma refnames_list_to_map (l : list (string * string)) (w : World) :
  local_tags w = list_to_map l → Forall (λ p, refname p.1) l → refnames w.
Proof.
  intros Hw Hall t [c Ht]. rewrite Hw in Ht. apply elem_of_list_to_map_2 in Ht.
  by apply (proj1 (Forall_forall _ _) Hall (t, c)).
Qed.

(** ** Evaluating single invocations *)

Lemma calm_now n w : calm (S n) w → faults w (length (history w)) = None.
Proof. intros H. rewrite <- (Nat.add_0_r (length _)). apply H. lia. Qed.

Lemma calm_log n c r w : calm (S n) w → calm n (log c r w).
Proof.
  intros H k Hk. simpl. rewrite length_app. simpl.
  rewrite <- Nat.add_assoc. apply H. simpl. lia.
Qed.

Lemma invoke_calm c w :
  faults w (length (history w)) = None →
  invoke c w = ((perform c w).1, log c (perform c w).1 (perform c w).2).
Proof. intros H. unfold invoke. rewrite H. by destruct (perform c w). Qed.

Lemma invoke_fault c w stderr :
  faults w (length (history w)) = Some stderr →
  invoke c w = (ExitFail stderr, log c (ExitFail stderr) w).
Proof. intros H. unfold invoke. by rewrite H. Qed.

Lemma bind_Return {A B} (m : M A) (k : A → M B) w a w' :
  m w = Return a w' → bind m k w = k a w'.
Proof. intros H. unfold bind. by rewrite H. Qed.

Lemma list_tags_calm n w :
  calm (S n) w →
  _list_tags w
  = Return (tag_listing w) (log TagList (Exit0 (map_to_list (local_tags w)).*1) w).
Proof.
  intros H%calm_now. unfold _list_tags, _run_git, subprocess_run, bind.
  by rewrite (invoke_calm _ _ H).
Qed.

Lemma get_tag_commit_calm n w tag commit :
  calm (S n) w → local_tags w !! tag = Some commit →
  _get_tag_commit tag w = Return (strip commit) (log (RevList tag) (Exit0 [commit]) w).
Proof.
  intros H%calm_now Ht. unfold _get_tag_commit, _run_git, subprocess_run, bind.
  rewrite (invoke_calm _ _ H). simpl. rewrite Ht. simpl.
  unfold ret. f_equal. apply (strip_unlines_one commit).
Qed.

Lemma try_run_git_fault c w stderr :
  faults w (length (history w)) = Some stderr →
  try_ (_run_git c) w = Return (inr stderr) (log c (ExitFail stderr) w).
Proof.
  intros H. unfold try_, _run_git, subprocess_run. by rewrite (invoke_fault _ _ _ H).
Qed.

(** ** The delete phase, tag by tag *)

Lemma delete_tag_local_eval tag result w :
  ∃ r w1, invoke (TagDelete tag) w = (r, w1) ∧
    _delete_tag_local tag result w
    = Return match r with
             | Exit0 _ => (true, result)
             | ExitFail stderr =>
                 (false, add_error result
                           ("Failed to delete local tag " +:+ tag +:+ ": " +:+ stderr))
             end w1.
Proof.
  destruct (invoke (TagDelete tag) w) as [r w1] eqn:Hinv. exists r, w1.
  split; [done|].
  unfold _delete_tag_local, bind, try_, _run_git, subprocess_run. rewrite Hinv.
  by destruct r.
Qed.

Lemma delete_step_protected gh_repo remote prot tag result w :
  tag ∈ prot → delete_step gh_repo remote prot tag result w = Return result w.
Proof. intros Hin. unfold delete_step. by rewrite decide_True. Qed.

Lemma delete_step_unprotected gh_repo remote prot tag result w :
  tag ∉ prot → classify_tag tag = DELETE →
  ∃ r h, history (world_of (delete_step gh_repo remote prot tag result w))
         = history w ++ (TagDelete tag, r) :: h.
Proof.
  intros Hnot Hdel. unfold delete_step. rewrite decide_False, decide_True by done.
  destruct (delete_tag_local_eval tag result w) as (r & w1 & Hinv & Heval).
  rewrite (bind_Return _ _ _ _ _ Heval). exists r.
  apply invoke_history in Hinv. destruct r as [out|stderr]; simpl.
  - match goal with |- context [world_of (?m w1)] =>
      assert (runs (λ _ _, True) m) as Hruns by (repeat runs_step; done);
      destruct (reach_history _ _ _ (runs_reach _ m w1 Hruns)) as (h & Hh & _)
    end.
    exists h. by rewrite Hh, Hinv, <- app_assoc.
  - exists []. done.
Qed.

(** C9: the rename target of a legacy tag starts with ["v"], does not start
    with the legacy prefix, and so is classified [DELETE]; the delete phase
    passes over it when it is in the protected set, and invokes its deletion
    when it is not. *)
Theorem rename_target_classified_DELETE (T : string) :
  (∃ suffix, T = NWAVE_PREFIX +:+ suffix) →
  classify_tag (rename_target T) = DELETE ∧
  (∃ suffix, T = NWAVE_PREFIX +:+ suffix ∧ rename_target T = "v" +:+ suffix) ∧
  ¬ (∃ rest, rename_target T = NWAVE_PREFIX +:+ rest) ∧
  (∀ gh_repo remote prot result w, rename_target T ∈ prot →
     delete_step gh_repo remote prot (rename_target T) result w = Return result w) ∧
  (∀ gh_repo remote prot result w, rename_target T ∉ prot →
     ∃ r h,
       history (world_of (delete_step gh_repo remote prot (rename_target T) result w))
       = history w ++ (TagDelete (rename_target T), r) :: h).
Proof.
  intros [suffix ->]. split_and!.
  - done.
  - exists suffix. split; [done|].
    unfold rename_target. by rewrite slice_from_app.
  - intros [rest Hrest]. by rewrite rename_target_head in Hrest.
  - intros. by apply delete_step_protected.
  - intros. by apply delete_step_unprotected.
Qed.

Lemma rename_target_classified_DELETE_witness :
  classify_tag (rename_target "nWave_v1.1.21") = DELETE ∧
  rename_target "nWave_v1.1.21" = "v1.1.21" ∧
  ∃ r h,
    history (world_of (delete_step None None ∅ (rename_target "nWave_v1.1.21")
                                   ExecuteResult0 conflict_same_commit_repo))
    = history conflict_same_commit_repo
      ++ (TagDelete (rename_target "nWave_v1.1.21"), r) :: h.
Proof.
  destruct (rename_target_classified_DELETE "nWave_v1.1.21") as (Hc & _ & _ & _ & Hd).
  - by exists "1.1.21".
  - split_and!; [exact Hc|reflexivity|]. apply Hd. apply not_elem_of_empty.
Defined.

(** ** Whole runs: frames and failures *)

Lemma runs_mono {A} (φ ψ : Command → Completed → Prop) (m : M A) :
  (∀ c r, φ c r → ψ c r) → runs φ m → runs ψ m.
Proof.
  intros Himp Hm w0 w Hreach.
  specialize (Hm w w (reach_refl φ w)). unfold wp in *.
  destruct (m w); eapply reach_trans; eauto using reach_mono.
Qed.

Lemma wp_runs {A} φ (m : M A) w (Q : A → World → Prop) E :
  runs φ m → wp m w Q E →
  wp m w (λ a w', Q a w' ∧ reach φ w w') (λ e w', E e w' ∧ reach φ w w').
Proof.
  intros Hm Hwp. specialize (Hm w w (reach_refl φ w)). unfold wp in *.
  by destruct (m w).
Qed.

Lemma failed_since_reach φ w0 w1 w2 :
  failed_since w0 w1 → reach φ w1 w2 → failed_since w0 w2.
Proof.
  intros (h & Hh & Hbad) (h' & Hh' & _)%reach_history.
  exists (h ++ h'). split.
  - by rewrite Hh', Hh, app_assoc.
  - rewrite forallb_app, Hbad. done.
Qed.

Lemma wp_doomed {A} (m : M A) w0 w (Q : A → World → Prop) E :
  runs (λ _ _, True) m → failed_since w0 w →
  (∀ a w', failed_since w0 w' → Q a w') →
  (∀ e w', failed_since w0 w' → E e w') →
  wp m w Q E.
Proof.
  intros Hm Hbad HQ HE. specialize (Hm w w (reach_refl _ w)). unfold wp in *.
  destruct (m w); eauto using failed_since_reach.
Qed.

Lemma failed_since_not_ok w0 w :
  failed_since w0 w → forallb git_ok (since w0 w) = true → False.
Proof.
  intros (h & Hh & Hbad). unfold since. rewrite Hh, drop_app_length. congruence.
Qed.

Lemma invoke_Exit0 c w out w' :
  invoke c w = (Exit0 out, w') →
  (perform c w).1 = Exit0 out ∧ w' = log c (Exit0 out) (perform c w).2.
Proof.
  unfold invoke. destruct (faults w _); [done|].
  destruct (perform c w) as [r w1]. by intros [= -> <-].
Qed.

Lemma rename_step_only_writes remote entry st :
  runs (only_writes {[old_name entry; new_name entry]}) (rename_step remote entry st).
Proof.
  destruct st as [result prot]. unfold rename_step.
  assert (∀ c r, reads c → only_writes {[old_name entry; new_name entry]} c r) as Hread.
  { intros [] r Hc t; try done. }
  assert (∀ c r t, writes c = Some t → t = old_name entry ∨ t = new_name entry →
            only_writes {[old_name entry; new_name entry]} c r) as Hw.
  { intros c r t Hc Ht t' Ht'. rewrite Hc in Ht'. injection Ht' as <-. set_solver. }
  repeat runs_step; first [by apply Hread | by eapply Hw; eauto].
Qed.

Lemma rename_phase_runs_any remote entries st :
  runs (λ _ _, True) (rename_phase remote entries st).
Proof.
  revert st. induction entries as [|entry rest IH]; intros st; simpl.
  - apply runs_ret.
  - apply runs_bind; [|done].
    eapply runs_mono; [|apply rename_step_only_writes]. done.
Qed.

Lemma delete_step_sweeps gh_repo remote prot tag result :
  runs (sweeps prot) (delete_step gh_repo remote prot tag result).
Proof.
  unfold delete_step. destruct (decide (tag ∈ prot)) as [|Hnot]; [apply runs_ret|].
  destruct (decide (classify_tag tag = DELETE)) as [Hdel|]; [|apply runs_ret].
  assert (∀ c r, writes c = Some tag → sweeps prot c r) as Hok.
  { intros c r Hc t Ht. rewrite Hc in Ht. by injection Ht as <-. }
  repeat runs_step; by apply Hok.
Qed.

Lemma delete_phase_sweeps gh_repo remote prot result :
  runs (sweeps prot) (delete_phase gh_repo remote prot result).
Proof.
  unfold delete_phase. apply runs_bind.
  - repeat runs_step. by intros t.
  - intros tags. revert result.
    induction tags as [|tag tags IH]; intros result; simpl.
    + apply runs_ret.
    + apply runs_bind; [apply delete_step_sweeps|done].
Qed.

Lemma tracking_exit0 w0 L A B after result prot c out w w' :
  tracking w0 L A B after result prot w → invoke c w = (Exit0 out, w') →
  tracking w0 L A B after result prot w'.
Proof.
  intros [(h & Hh & Herr) Hafter] Hinv. split; [|done].
  exists (h ++ [(c, Exit0 out)]). split.
  - by rewrite (invoke_history _ _ _ _ Hinv), Hh, app_assoc.
  - rewrite forallb_app. intros [Hok _]%andb_true_iff. auto.
Qed.

Lemma tracking_failed w0 L A B after result prot c stderr w w' :
  tracking w0 L A B after result prot w → invoke c w = (ExitFail stderr, w') →
  git_ok (c, ExitFail stderr) = false → failed_since w0 w'.
Proof.
  intros [(h & Hh & _) _] Hinv Hbad. exists (h ++ [(c, ExitFail stderr)]). split.
  - by rewrite (invoke_history _ _ _ _ Hinv), Hh, app_assoc.
  - rewrite forallb_app.
    change (forallb git_ok [(c, ExitFail stderr)])
      with (git_ok (c, ExitFail stderr) && true).
    rewrite Hbad. by rewrite andb_false_r.
Qed.

Lemma tracking_read w0 L A B after result prot c stderr w w' :
  tracking w0 L A B after result prot w → reads c →
  invoke c w = (ExitFail stderr, w') → failed_since w0 w'.
Proof.
  intros Ht Hc Hinv. eapply tracking_failed; [done..|]. by destruct c.
Qed.

Lemma tracking_described w0 L A B after result prot c stderr msg w w' :
  tracking w0 L A B after result prot w → invoke c w = (ExitFail stderr, w') →
  describe c stderr = Some msg →
  tracking w0 L A B after (add_error result msg) prot w'.
Proof.
  intros [(h & Hh & Herr) Hafter] Hinv Hd. split; [|done].
  exists (h ++ [(c, ExitFail stderr)]). split.
  - by rewrite (invoke_history _ _ _ _ Hinv), Hh, app_assoc.
  - rewrite forallb_app. intros [_ Hok]%andb_true_iff. by destruct c.
Qed.

Lemma tracking_release w0 L A B after result prot repo tag stderr w w' :
  tracking w0 L A B after result prot w →
  invoke (ReleaseDelete repo tag) w = (ExitFail stderr, w') →
  tracking w0 L A B after result prot w'.
Proof.
  intros [(h & Hh & Herr) Hafter] Hinv. split; [|done].
  exists (h ++ [(ReleaseDelete repo tag, ExitFail stderr)]). split.
  - by rewrite (invoke_history _ _ _ _ Hinv), Hh, app_assoc.
  - rewrite forallb_app. intros [Hok _]%andb_true_iff. auto.
Qed.

Lemma tracking_renamed w0 L A B after result prot msg tag w :
  tracking w0 L A B after result prot w →
  tracking w0 L A B after (add_renamed result msg) ({[tag]} ∪ prot) w.
Proof.
  intros [Herr Hafter]. split; [done|]. intros [HB Hnote]%Hafter. split.
  - apply elem_of_union. by right.
  - simpl. apply elem_of_app. by left.
Qed.

Lemma tracking_deleted w0 L A B after result prot tag w :
  tracking w0 L A B after result prot w →
  tracking w0 L A B after (add_deleted result tag) prot w.
Proof. done. Qed.

Lemma tracking_entry w0 L A B after entry :
  L (old_name entry) → entry_allowed (tracking w0 L A B after) entry.
Proof.
  intros HL. split; [|intros; by apply tracking_renamed].
  intros result prot c1 c2 w [(h & Hh & Herr) Hafter]. split; [|done].
  exists h. split; [done|]. intros Hok. simpl. apply Forall_app. split; [auto|].
  apply Forall_singleton. by exists (old_name entry), (new_name entry), c1, c2.
Qed.

(** ** Legacy names and their targets *)

Lemma legacy_not_target (A t : string) :
  startswith A NWAVE_PREFIX = true → A ≠ rename_target t.
Proof.
  intros [suffix ->]%startswith_spec. by rewrite rename_target_head.
Qed.

Lemma rename_target_inj (A A' : string) :
  startswith A NWAVE_PREFIX = true → startswith A' NWAVE_PREFIX = true →
  rename_target A = rename_target A' → A = A'.
Proof.
  intros [s ->]%startswith_spec [s' ->]%startswith_spec. unfold rename_target.
  rewrite !slice_from_app. intros Heq. f_equal. by simplify_eq.
Qed.

Lemma NoDup_tag_listing (w : World) : refnames w → NoDup (tag_listing w).
Proof.
  intros Hw. unfold tag_listing, sorted. rewrite merge_sort_Permutation.
  apply NoDup_filter.
  assert (strip <$> (map_to_list (local_tags w)).*1 = (map_to_list (local_tags w)).*1)
    as ->.
  { rewrite <- (list_fmap_id (map_to_list (local_tags w)).*1) at 2.
    apply list_fmap_ext. intros i t Ht. simpl.
    apply list_elem_of_lookup_2 in Ht.
    apply list_elem_of_fmap in Ht as ([t' c] & -> & Htc).
    apply elem_of_map_to_list in Htc. by apply (Hw t'). }
  apply NoDup_fst_map_to_list.
Qed.

Lemma plan_to_rename (tags : list string) :
  to_rename (foldl plan_step CleanupPlan0 tags)
  = (λ t, mkRenameEntry t (rename_target t)) <$> filter (λ t, classify_tag t = RENAME) tags.
Proof. by destruct (foldl_plan_step tags CleanupPlan0) as [-> _]. Qed.

Lemma plan_entries (tags : list string) :
  let entries := to_rename (foldl plan_step CleanupPlan0 tags) in
  Forall legacy_entry entries ∧
  old_name <$> entries = filter (λ t, classify_tag t = RENAME) tags.
Proof.
  simpl. rewrite plan_to_rename. split.
  - apply Forall_fmap, Forall_forall. intros t [Ht _]%list_elem_of_filter.
    split; [|done]. simpl. by apply classify_tag_RENAME.
  - rewrite <- list_fmap_compose. apply list_fmap_id.
Qed.

(** ** The protected set *)

Lemma classify_rename_target (t : string) : classify_tag (rename_target t) = DELETE.
Proof. by rewrite rename_target_head. Qed.

Lemma plan_Return w p w0 :
  plan w = Return p w0 → ∃ tags, p = foldl plan_step CleanupPlan0 tags.
Proof.
  unfold plan, bind, ret. destruct (_list_tags w) as [tags w1|]; [|done].
  intros [= <- _]. by exists tags.
Qed.

Lemma rename_phase_protects_targets remote entries st w st' w' :
  Forall legacy_entry entries →
  (∀ t, t ∈ st.2 → classify_tag t = DELETE) →
  rename_phase remote entries st w = Return st' w' →
  ∀ t, t ∈ st'.2 → classify_tag t = DELETE.
Proof.
  intros Hleg Hst Hrun.
  eapply (wp_Return _ _ _ _
            (λ st' _, ∀ t, t ∈ st'.2 → classify_tag t = DELETE) (λ _ _, True));
    [|exact Hrun].
  apply (inv_rename_phase (λ _ prot _, ∀ t, t ∈ prot → classify_tag t = DELETE));
    try done.
  eapply Forall_impl; [exact Hleg|]. intros entry [_ Hnew]. split; [done|].
  intros result prot msg w1 Hprot t [Ht|Ht]%elem_of_union; [|by apply Hprot].
  apply elem_of_singleton in Ht as ->. rewrite Hnew. apply classify_rename_target.
Qed.

(** C1: in a run of [execute] whose rename phase ends with the protected set
    [prot], every name in [prot] is classified [DELETE], yet the delete phase
    issues no local, remote or release deletion of it, and it is at the end of
    the run what it was at the end of the rename phase. *)
Theorem protected_tags_never_deleted gh_repo remote w p w0 result prot w1 :
  plan w = Return p w0 →
  rename_phase remote (to_rename p) (ExecuteResult0, ∅) w0 = Return (result, prot) w1 →
  execute gh_repo remote w = delete_phase gh_repo remote prot result w1 ∧
  ∀ t, t ∈ prot →
    classify_tag t = DELETE ∧
    Forall (λ cr, removes cr.1 ≠ Some t)
           (since w1 (world_of (execute gh_repo remote w))) ∧
    same_tag t w1 (world_of (execute gh_repo remote w)).
Proof.
  intros Hp Hr. rewrite (execute_phases _ _ _ _ _ _ _ _ Hp Hr).
  split; [done|]. intros t Ht.
  pose proof (runs_reach _ _ w1 (delete_phase_spares gh_repo remote prot result))
    as Hreach.
  split_and!.
  - destruct (plan_Return _ _ _ Hp) as [tags ->].
    destruct (plan_entries tags) as [Hleg _].
    eapply (rename_phase_protects_targets _ _ _ _ _ _ Hleg); [|exact Hr|exact Ht].
    intros t' Ht'. by apply not_elem_of_empty in Ht'.
  - apply reach_since in Hreach as [_ Hall].
    eapply Forall_impl; [exact Hall|]. intros [c r] Hc. simpl in *.
    specialize (Hc t Ht). destruct c; simpl in *; congruence.
  - eapply reach_same_tag; [|exact Hreach]. intros c r Hc. by apply Hc.
Qed.

Lemma protected_tags_never_deleted_witness :
  let w := conflict_same_commit_repo in
  let p := value_of CleanupPlan0 (plan w) in
  let w0 := world_of (plan w) in
  let phase1 := rename_phase None (to_rename p) (ExecuteResult0, ∅) w0 in
  let st := value_of (ExecuteResult0, ∅) phase1 in
  let w1 := world_of phase1 in
  "v1.1.21" ∈ st.2 ∧
  execute None None w = delete_phase None None st.2 st.1 w1 ∧
  ∀ t, t ∈ st.2 →
    classify_tag t = DELETE ∧
    Forall (λ cr, removes cr.1 ≠ Some t) (since w1 (world_of (execute None None w))) ∧
    same_tag t w1 (world_of (execute None None w)).
Proof.
  intros w p w0 phase1 st w1. split; [vm_compute; reflexivity|].
  apply (protected_tags_never_deleted None None w p w0 st.1 st.2 w1);
    vm_compute; reflexivity.
Defined.

(** ** Phase 1, entry by entry *)

Lemma rename_phase_spares_legacy remote old entries st :
  startswith old NWAVE_PREFIX = true →
  Forall legacy_entry entries → old ∉ old_name <$> entries →
  runs (λ c _, writes c ≠ Some old) (rename_phase remote entries st).
Proof.
  intros Hold Hall Hnot. revert st.
  induction entries as [|entry rest IH]; intros st; simpl.
  - apply runs_ret.
  - apply Forall_cons in Hall as [[Hlegacy Hnew] Hall].
    rewrite fmap_cons in Hnot. apply not_elem_of_cons in Hnot as [Hne Hnot].
    apply runs_bind; [|by intros; apply IH].
    eapply runs_mono; [|apply rename_step_only_writes].
    intros c r Hc Hw. apply Hc in Hw.
    apply elem_of_union in Hw as [Hw|Hw]; apply elem_of_singleton in Hw.
    + done.
    + rewrite Hnew in Hw. exact (legacy_not_target old _ Hold Hw).
Qed.

Lemma delete_phase_spares_legacy gh_repo remote prot result old :
  startswith old NWAVE_PREFIX = true →
  runs (λ c _, writes c ≠ Some old) (delete_phase gh_repo remote prot result).
Proof.
  intros Hold. eapply runs_mono; [|apply delete_phase_sweeps].
  intros c r Hc Hw. apply Hc in Hw as [_ Hdel].
  apply classify_tag_RENAME in Hold. congruence.
Qed.

Lemma execute_from_spares_legacy gh_repo remote old entries st w :
  startswith old NWAVE_PREFIX = true →
  Forall legacy_entry entries → old ∉ old_name <$> entries →
  same_tag old w (world_of (execute_from gh_repo remote entries st w)).
Proof.
  intros Hold Hall Hnot.
  eapply (reach_same_tag (λ c _, writes c ≠ Some old)); [done|].
  apply runs_reach. unfold execute_from. apply runs_bind.
  - by apply rename_phase_spares_legacy.
  - intros st'. by apply delete_phase_spares_legacy.
Qed.

Lemma execute_from_plan gh_repo remote :
  execute gh_repo remote
  = (p <- plan ;; execute_from gh_repo remote (to_rename p) (ExecuteResult0, ∅)).
Proof. reflexivity. Qed.

Lemma execute_from_cons gh_repo remote entry rest st st' w w' :
  rename_phase remote (entry :: rest) st w = rename_phase remote rest st' w' →
  execute_from gh_repo remote (entry :: rest) st w
  = execute_from gh_repo remote rest st' w'.
Proof. intros H. unfold execute_from, bind. by rewrite H. Qed.

(** C8: when the target of a rename entry does not exist and creating it
    fails, the entry appends the creation error and nothing else: it is not
    renamed and not protected, nothing is pushed or deleted, and the old tag
    is still there on its commit; the loop goes on with the next entry, and a
    legacy [old] stays what it was to the end of the run. *)
Theorem create_failure_skips_entry remote old new rest result prot w c_old stderr :
  refnames w →
  local_tags w !! new = None →
  local_tags w !! old = Some c_old →
  calm 2 w →
  faults w (length (history w) + 2) = Some stderr →
  ∃ w',
    rename_phase remote (mkRenameEntry old new :: rest) (result, prot) w
      = rename_phase remote rest
          (add_error result ("Failed to create tag " +:+ new +:+ ": " +:+ stderr),
           prot) w' ∧
    refs_of w' = refs_of w ∧
    local_tags w' !! old = Some c_old ∧
    local_tags w' !! new = None ∧
    faults w' = faults w ∧
    since w w' = [(TagList, Exit0 (map_to_list (local_tags w)).*1);
                  (RevList old, Exit0 [c_old]);
                  (TagCreate new (strip c_old), ExitFail stderr)] ∧
    (∀ gh_repo,
       startswith old NWAVE_PREFIX = true →
       Forall legacy_entry rest → old ∉ old_name <$> rest →
       local_tags (world_of (execute_from gh_repo remote
                               (mkRenameEntry old new :: rest) (result, prot) w))
         !! old = Some c_old).
Proof.
  intros Hw Hnew Hold Hcalm Hfault.
  pose proof (calm_log _ TagList (Exit0 (map_to_list (local_tags w)).*1) _ Hcalm)
    as Hcalm1.
  exists (log (TagCreate new (strip c_old)) (ExitFail stderr)
            (log (RevList old) (Exit0 [c_old])
               (log TagList (Exit0 (map_to_list (local_tags w)).*1) w))).
  assert (rename_phase remote (mkRenameEntry old new :: rest) (result, prot) w
          = rename_phase remote rest
              (add_error result ("Failed to create tag " +:+ new +:+ ": " +:+ stderr),
               prot)
              (log (TagCreate new (strip c_old)) (ExitFail stderr)
                 (log (RevList old) (Exit0 [c_old])
                    (log TagList (Exit0 (map_to_list (local_tags w)).*1) w))))
    as Hrun.
  { cbn [rename_phase]. unfold rename_step. cbn [old_name new_name]. unfold bind.
    rewrite (list_tags_calm _ w Hcalm).
    rewrite decide_False by (by apply tag_listing_absent).
    rewrite (get_tag_commit_calm _ _ old c_old Hcalm1 Hold).
    rewrite (try_run_git_fault _ _ stderr); [reflexivity|].
    simpl. rewrite !length_app. simpl. by rewrite <- Nat.add_assoc. }
  split_and!; try done.
  - unfold since. simpl. by rewrite <- !app_assoc, drop_app_length.
  - intros gh_repo Hlegacy Hrest Hnot.
    rewrite (execute_from_cons _ _ _ _ _ _ _ _ Hrun).
    destruct (execute_from_spares_legacy gh_repo remote old rest
                (add_error result ("Failed to create tag " +:+ new +:+ ": " +:+ stderr),
                 prot)
                (log (TagCreate new (strip c_old)) (ExitFail stderr)
                   (log (RevList old) (Exit0 [c_old])
                      (log TagList (Exit0 (map_to_list (local_tags w)).*1) w)))
                Hlegacy Hrest Hnot) as [-> _].
    exact Hold.
Qed.

Lemma create_failure_skips_entry_witness :
  ∃ w',
    rename_phase None [mkRenameEntry "nWave_v1.1.21" "v1.1.21"] (ExecuteResult0, ∅)
                 (world_of (plan create_fault_repo))
      = Return (add_error ExecuteResult0
                  "Failed to create tag v1.1.21: fatal: cannot lock ref", ∅) w' ∧
    local_tags w' !! "nWave_v1.1.21" = Some commit0 ∧
    local_tags w' !! "v1.1.21" = None ∧
    local_tags (world_of (execute None None create_fault_repo)) !! "nWave_v1.1.21"
    = Some commit0.
Proof.
  destruct (create_failure_skips_entry None "nWave_v1.1.21" "v1.1.21" []
              ExecuteResult0 ∅ (world_of (plan create_fault_repo)) commit0
              "fatal: cannot lock ref")
    as (w' & Hrun & _ & Hold & Hnew & _ & _ & Hend).
  - apply (refnames_list_to_map [("nWave_v1.1.21", commit0); ("v2.17.0", commit0)]);
      [vm_compute; reflexivity|].
    repeat constructor; try discriminate.
  - vm_compute. reflexivity.
  - vm_compute. reflexivity.
  - intros k Hk. destruct k as [|[|k]]; [vm_compute; reflexivity..|lia].
  - vm_compute. reflexivity.
  - exists w'. split_and!; [exact Hrun|exact Hold|exact Hnew|].
    specialize (Hend None eq_refl (Forall_nil_2 _) (not_elem_of_nil _)).
    vm_compute in Hend |- *. exact Hend.
Defined.

(** ** Invocations that succeed, and invocations that fail *)

Lemma exact_list_tags w0 L A B after result prot w (Q : list string → World → Prop) :
  tracking w0 L A B after result prot w →
  (∀ w', tracking w0 L A B after result prot w' → refs_of w' = refs_of w →
         Q (tag_listing w) w') →
  wp _list_tags w Q (λ _, failed_since w0).
Proof.
  intros Ht HQ. apply wp_bind, wp_subprocess_run. intros [out|stderr] w' Hinv.
  - pose proof (tracking_exit0 _ _ _ _ _ _ _ _ _ _ _ Ht Hinv) as Ht'.
    apply invoke_Exit0 in Hinv as [[= <-] ->]. apply wp_ret. by apply HQ.
  - simpl. by refine (tracking_read _ _ _ _ _ _ _ _ _ _ _ Ht _ Hinv).
Qed.

Lemma exact_get_tag_commit w0 L A B after result prot w tag commit
    (Q : string → World → Prop) :
  tracking w0 L A B after result prot w →
  local_tags w !! tag = Some commit →
  (∀ w', tracking w0 L A B after result prot w' → refs_of w' = refs_of w →
         Q (strip commit) w') →
  wp (_get_tag_commit tag) w Q (λ _, failed_since w0).
Proof.
  intros Ht Htag HQ. apply wp_bind, wp_subprocess_run. intros [out|stderr] w' Hinv.
  - pose proof (tracking_exit0 _ _ _ _ _ _ _ _ _ _ _ Ht Hinv) as Ht'.
    apply invoke_Exit0 in Hinv as [Hout ->]. simpl in Hout. rewrite Htag in Hout.
    injection Hout as <-. apply wp_ret. rewrite strip_unlines_one.
    apply HQ; [done|]. simpl. by rewrite Htag.
  - simpl. by refine (tracking_read _ _ _ _ _ _ _ _ _ _ _ Ht _ Hinv).
Qed.

Lemma exact_delete_tag_local w0 L A B after result prot w tag commit
    (Q : bool * ExecuteResult → World → Prop) E :
  tracking w0 L A B after result prot w →
  local_tags w !! tag = Some commit →
  (∀ d w', failed_since w0 w' → Q d w') →
  (∀ w', tracking w0 L A B after result prot w' →
         local_tags w' = delete tag (local_tags w) → remotes w' = remotes w →
         Q (true, result) w') →
  wp (_delete_tag_local tag result) w Q E.
Proof.
  intros Ht Htag Hbad HQ. apply wp_bind, wp_try, wp_subprocess_run.
  intros [out|stderr] w' Hinv.
  - pose proof (tracking_exit0 _ _ _ _ _ _ _ _ _ _ _ Ht Hinv) as Ht'.
    apply invoke_Exit0 in Hinv as [Hout ->]. simpl in Hout. rewrite Htag in Hout.
    apply wp_ret. apply HQ; [done|..]; simpl; by rewrite Htag.
  - apply wp_ret, Hbad. by refine (tracking_failed _ _ _ _ _ _ _ _ _ _ _ Ht Hinv _).
Qed.

Lemma exact_delete_tag_remote w0 L A B after result prot w tag remote
    (Q : bool * ExecuteResult → World → Prop) E :
  tracking w0 L A B after result prot w →
  (∀ d w', failed_since w0 w' → Q d w') →
  (∀ w', tracking w0 L A B after result prot w' →
         local_tags w' = local_tags w → remote_tag w' remote tag = None →
         Q (true, result) w') →
  wp (_delete_tag_remote tag remote result) w Q E.
Proof.
  intros Ht Hbad HQ. apply wp_bind, wp_try, wp_subprocess_run.
  intros [out|stderr] w' Hinv.
  - pose proof (tracking_exit0 _ _ _ _ _ _ _ _ _ _ _ Ht Hinv) as Ht'.
    apply invoke_Exit0 in Hinv as [Hout ->]. simpl in Hout.
    destruct (remotes w !! remote) as [there|] eqn:Hr; [|done].
    destruct (there !! tag) as [c|] eqn:Hc; [|done].
    apply wp_ret. apply HQ; [done|simpl; by rewrite Hr, Hc|].
    unfold remote_tag. simpl. rewrite Hr, Hc. simpl.
    rewrite lookup_insert_eq. simpl. apply lookup_delete_eq.
  - apply wp_ret, Hbad. by refine (tracking_failed _ _ _ _ _ _ _ _ _ _ _ Ht Hinv _).
Qed.

(** ** The entry of [A] when [B] is there on the same commit *)

Lemma rename_step_same_commit remote w0 L A B c_A c_B result prot w :
  A ≠ B → refname B → strip c_A = strip c_B →
  local_tags w !! A = Some c_A → local_tags w !! B = Some c_B →
  tracking w0 L A B false result prot w →
  wp (rename_step remote (mkRenameEntry A B) (result, prot)) w
     (λ st w', failed_since w0 w' ∨
               (tracking w0 L A B true st.1 st.2 w' ∧ settled remote A B c_B w'))
     (λ _, failed_since w0).
Proof.
  intros Hne HB Hsame HA HBc Ht. unfold rename_step. cbn [old_name new_name].
  apply wp_bind, (exact_list_tags w0 L A B false result prot); [done|].
  intros w1 Ht1 [= Hl1 Hr1 _].
  rewrite decide_True by (apply tag_listing_present; [done|by rewrite HBc]).
  apply wp_bind, (exact_get_tag_commit w0 L A B false result prot _ _ c_A);
    [done|by rewrite Hl1|].
  intros w2 Ht2 [= Hl2 Hr2 _].
  apply wp_bind, (exact_get_tag_commit w0 L A B false result prot _ _ c_B);
    [done|by rewrite Hl2, Hl1|].
  intros w3 Ht3 [= Hl3 Hr3 _].
  rewrite decide_True by done.
  apply wp_bind, (exact_delete_tag_local w0 L A B false result prot _ _ c_A);
    [done|by rewrite Hl3, Hl2, Hl1|..].
  { intros d w4 Hbad. apply (wp_doomed _ w0); [|done|by left|done].
    repeat runs_step; done. }
  intros w4 Ht4 Hl4 Hr4.
  assert (local_tags w4 !! A = None) as HA4 by (rewrite Hl4; apply lookup_delete_eq).
  assert (local_tags w4 !! B = Some c_B) as HB4.
  { rewrite Hl4, lookup_delete_ne by done. by rewrite Hl3, Hl2, Hl1. }
  assert (∀ res w', failed_since w0 w' ∨
            (tracking w0 L A B false res prot w' ∧ settled remote A B c_B w') →
          wp (ret (add_renamed res (A +:+ " -> " +:+ B +:+ " (conflict resolved)"),
                   {[B]} ∪ prot)) w'
             (λ st w'', failed_since w0 w'' ∨
                (tracking w0 L A B true st.1 st.2 w'' ∧ settled remote A B c_B w''))
             (λ _, failed_since w0)) as Hend.
  { intros res w' [Hbad|[[Herr _] Hset]]; apply wp_ret; [by left|right].
    split; [|done]. split; [done|]. intros _. split.
    - apply elem_of_union. left. by apply elem_of_singleton.
    - simpl. apply elem_of_app. right. by apply list_elem_of_singleton. }
  apply wp_bind. destruct (truthy remote) as [r|] eqn:Hremote; simpl.
  - apply (exact_delete_tag_remote w0 L A B false result prot); [done|..].
    + intros d w5 Hbad. apply Hend. by left.
    + intros w5 Ht5 Hl5 Hr5. apply Hend. right. split; [done|].
      split_and!; [by rewrite Hl5..|]. intros r' Hr'. by simplify_eq.
  - apply wp_ret, Hend. right. split; [done|]. split_and!; [done..|].
    intros r' Hr'. rewrite Hremote in Hr'. done.
Qed.

(** ** The other entries, and the delete phase, leave [A] and [B] alone *)

Lemma settled_same_tag remote A B c_B w w' :
  same_tag A w w' → same_tag B w w' →
  settled remote A B c_B w → settled remote A B c_B w'.
Proof.
  intros (HA & HAr & _) (HB & _ & _) (H1 & H2 & H3). split_and!.
  - by rewrite HA.
  - by rewrite HB.
  - intros r Hr. rewrite HAr. by apply H3.
Qed.

Lemma rename_step_other remote w0 L A B after entry result prot w :
  startswith A NWAVE_PREFIX = true → B = rename_target A →
  legacy_entry entry → old_name entry ≠ A → L (old_name entry) →
  tracking w0 L A B after result prot w →
  wp (rename_step remote entry (result, prot)) w
     (λ st w', tracking w0 L A B after st.1 st.2 w' ∧ same_tag A w w' ∧ same_tag B w w')
     (λ _, failed_since w0).
Proof.
  intros HA -> [Hold Hnew] Hne HL Ht.
  eapply wp_mono;
    [apply (wp_runs _ _ _ (λ st w', tracking w0 L A (rename_target A) after st.1 st.2 w')
                    (λ _, failed_since w0)
                    (rename_step_only_writes remote entry (result, prot)))|..].
  - apply (inv_rename_step (tracking w0 L A (rename_target A) after)
                           (λ _, failed_since w0)).
    + apply tracking_exit0.
    + apply tracking_read.
    + apply tracking_described.
    + by apply tracking_entry.
    + done.
    + done.
  - intros st w' [Ht' Hreach]. split; [done|].
    split; (eapply reach_same_tag; [|exact Hreach]); intros c r Hc Hw;
      apply Hc in Hw; apply elem_of_union in Hw as [Hw|Hw];
      apply elem_of_singleton in Hw.
    + by subst.
    + rewrite Hnew in Hw. exact (legacy_not_target A _ HA Hw).
    + symmetry in Hw. exact (legacy_not_target _ A Hold Hw).
    + rewrite Hnew in Hw. apply rename_target_inj in Hw; [by subst|done..].
  - intros e w' [Hbad _]. done.
Qed.

Lemma rename_phase_after remote w0 L A B c_B entries st w :
  startswith A NWAVE_PREFIX = true → B = rename_target A →
  Forall legacy_entry entries →
  Forall (λ e, old_name e ≠ A → L (old_name e)) entries →
  A ∉ old_name <$> entries →
  tracking w0 L A B true st.1 st.2 w → settled remote A B c_B w →
  wp (rename_phase remote entries st) w
     (λ st' w', tracking w0 L A B true st'.1 st'.2 w' ∧ settled remote A B c_B w')
     (λ _, failed_since w0).
Proof.
  intros HA HB. revert st w.
  induction entries as [|entry rest IH];
    intros [result prot] w Hall HLs Hnot Ht Hset.
  - by apply wp_ret.
  - apply Forall_cons in Hall as [Hentry Hall]. apply Forall_cons in HLs as [HL HLs].
    rewrite fmap_cons in Hnot. apply not_elem_of_cons in Hnot as [Hne Hnot].
    simpl. apply wp_bind.
    eapply wp_mono;
      [apply (rename_step_other remote w0 L A B true); [done..|by apply HL|done]|..].
    + intros st' w' (Ht' & HsA & HsB). apply IH; eauto using settled_same_tag.
    + done.
Qed.

Lemma rename_phase_before remote w0 L A B c_A c_B entries st w :
  startswith A NWAVE_PREFIX = true → B = rename_target A →
  refname B → strip c_A = strip c_B →
  Forall legacy_entry entries →
  Forall (λ e, old_name e ≠ A → L (old_name e)) entries →
  NoDup (old_name <$> entries) →
  A ∈ old_name <$> entries →
  local_tags w !! A = Some c_A → local_tags w !! B = Some c_B →
  tracking w0 L A B false st.1 st.2 w →
  wp (rename_phase remote entries st) w
     (λ st' w', failed_since w0 w' ∨
                (tracking w0 L A B true st'.1 st'.2 w' ∧ settled remote A B c_B w'))
     (λ _, failed_since w0).
Proof.
  intros HA HB Href Hsame. revert st w.
  induction entries as [|entry rest IH];
    intros [result prot] w Hall HLs Hnodup Hin HAc HBc Ht.
  - by apply elem_of_nil in Hin.
  - apply Forall_cons in Hall as [Hentry Hall]. apply Forall_cons in HLs as [HL HLs].
    rewrite fmap_cons in Hnodup, Hin. apply NoDup_cons in Hnodup as [Hfresh Hnodup].
    simpl. apply wp_bind.
    destruct (decide (old_name entry = A)) as [Heq|Hne].
    + destruct entry as [old new]. destruct Hentry as [_ Hnew]. simpl in *. subst old.
      assert (new = B) as -> by (by rewrite HB).
      eapply wp_mono;
        [by apply (rename_step_same_commit remote w0 L A B c_A c_B);
           [rewrite HB; by apply legacy_not_target|..]|..].
      * intros st' w' [Hbad|[Ht' Hset]].
        -- apply (wp_doomed _ w0); [apply rename_phase_runs_any|done|by left|done].
        -- eapply wp_mono; [by apply (rename_phase_after remote w0 L A B c_B)|..].
           ++ intros st'' w''. by right.
           ++ done.
      * done.
    + apply elem_of_cons in Hin as [Hin|Hin]; [done|].
      eapply wp_mono;
        [apply (rename_step_other remote w0 L A B false); [done..|by apply HL|done]|..].
      * intros st' w' (Ht' & (HsA & _) & (HsB & _)).
        apply IH; try done; by rewrite ?HsA, ?HsB.
      * done.
Qed.

Lemma delete_phase_after gh_repo remote w0 L A B c_B result prot w :
  startswith A NWAVE_PREFIX = true →
  tracking w0 L A B true result prot w → settled remote A B c_B w →
  wp (delete_phase gh_repo remote prot result) w
     (λ result' w', tracking w0 L A B true result' prot w' ∧ settled remote A B c_B w')
     (λ _, failed_since w0).
Proof.
  intros HA Ht Hset.
  eapply wp_mono;
    [apply (wp_runs _ _ _ (λ result' w', tracking w0 L A B true result' prot w')
                    (λ _, failed_since w0)
                    (delete_phase_sweeps gh_repo remote prot result))|..].
  - apply (inv_delete_phase (tracking w0 L A B true) (λ _, failed_since w0)).
    + apply tracking_exit0.
    + apply tracking_read.
    + apply tracking_described.
    + apply tracking_release.
    + apply tracking_deleted.
    + done.
    + done.
  - intros result' w' [Ht' Hreach]. split; [done|].
    eapply settled_same_tag; [..|exact Hset];
      (eapply reach_same_tag; [|exact Hreach]); intros c r Hc Hw;
      apply Hc in Hw as [Hprot Hdel].
    + apply classify_tag_RENAME in HA. congruence.
    + destruct Ht as [_ Hafter]. by destruct Hafter.
  - intros e w' [Hbad _]. done.
Qed.

Lemma delete_phase_runs_any gh_repo remote prot result :
  runs (λ _ _, True) (delete_phase gh_repo remote prot result).
Proof. eapply runs_mono; [|apply delete_phase_sweeps]. done. Qed.

(** ** A legacy tag whose target is already there on the same commit *)

(** C4, as the code has it: in a store where the legacy tag [A] and its target
    [B] both exist on the same commit, a run of [execute] in which no [git]
    invocation fails returns; at its end [A] is gone (locally, and on the
    remote if one is configured), [B] is still on its commit, the rename is
    recorded as a resolved conflict, and no error concerns [A]: every recorded
    error is the conflict of another legacy tag of the store, so there is none
    at all when [A] is the only legacy tag. *)
Theorem same_commit_conflict_resolved gh_repo remote w A B c_A c_B :
  refnames w →
  startswith A NWAVE_PREFIX = true → B = rename_target A →
  local_tags w !! A = Some c_A → local_tags w !! B = Some c_B →
  strip c_A = strip c_B →
  forallb git_ok (since w (world_of (execute gh_repo remote w))) = true →
  ∃ result w',
    execute gh_repo remote w = Return result w' ∧
    local_tags w' !! A = None ∧
    (∀ r, truthy remote = Some r → remote_tag w' r A = None) ∧
    local_tags w' !! B = Some c_B ∧
    (A +:+ " -> " +:+ B +:+ " (conflict resolved)") ∈ renamed_tags result ∧
    Forall (other_conflict
              (λ t, t ≠ A ∧ startswith t NWAVE_PREFIX = true ∧
                    is_Some (local_tags w !! t)))
           (errors result) ∧
    ((∀ t, is_Some (local_tags w !! t) → startswith t NWAVE_PREFIX = true → t = A) →
     errors result = []).
Proof.
  intros Hw HA HB HAc HBc Hsame Hok.
  set (L := λ t, t ≠ A ∧ startswith t NWAVE_PREFIX = true ∧
                 is_Some (local_tags w !! t)).
  assert (wp (execute gh_repo remote) w
            (λ result w', failed_since w w' ∨
               ∃ prot, tracking w L A B true result prot w' ∧
                       settled remote A B c_B w')
            (λ _, failed_since w)) as Hwp.
  { unfold execute, plan. apply wp_bind, wp_bind.
    apply (exact_list_tags w L A B false ExecuteResult0 ∅).
    { split; [|done]. exists []. by rewrite app_nil_r. }
    intros w1 Ht1 [= Hl1 _ _]. apply wp_ret.
    destruct (plan_entries (tag_listing w)) as [Hleg Holds].
    apply wp_bind.
    eapply wp_mono;
      [apply (rename_phase_before remote w L A B c_A c_B); try done|..].
    - apply Hw. by rewrite HBc.
    - apply Forall_forall. intros e He Hne.
      assert (old_name e ∈ old_name <$> to_rename (foldl plan_step CleanupPlan0 (tag_listing w)))
        as Hin by (by apply list_elem_of_fmap_2).
      rewrite Holds in Hin. apply list_elem_of_filter in Hin as [Hren Hin].
      split_and!; [done|by apply classify_tag_RENAME|].
      apply elem_of_tag_listing in Hin as (_ & n & Hn & Hstrip).
      destruct (Hw n Hn) as [Hs _]. by rewrite Hs in Hstrip; subst n.
    - rewrite Holds. by apply NoDup_filter, NoDup_tag_listing.
    - rewrite Holds. apply list_elem_of_filter. split.
      + by apply classify_tag_RENAME.
      + apply tag_listing_present; [apply Hw|]; by rewrite HAc.
    - by rewrite Hl1.
    - by rewrite Hl1.
    - intros [result prot] w2 [Hbad|[Ht2 Hset]]; simpl.
      + apply (wp_doomed _ w); [apply delete_phase_runs_any|done|by left|done].
      + eapply wp_mono; [by apply (delete_phase_after gh_repo remote w L A B c_B)|..].
        * intros result' w3 [Ht3 Hset3]. right. by exists prot.
        * done.
    - done. }
  unfold wp in Hwp. destruct (execute gh_repo remote w) as [result w'|stderr w'];
    simpl in Hok.
  - destruct Hwp as [Hbad|(prot & [(h & Hh & Herr) Hafter] & HA' & HB' & Hr')].
    { by destruct (failed_since_not_ok _ _ Hbad). }
    destruct (Hafter eq_refl) as [_ Hnote].
    assert (Forall (other_conflict L) (errors result)) as Herrors.
    { apply Herr. unfold since in Hok. by rewrite Hh, drop_app_length in Hok. }
    exists result, w'. split_and!; try done.
    intros Honly. destruct (errors result) as [|msg rest]; [done|].
    apply Forall_cons in Herrors as [(old & _ & _ & _ & (Hne & Hold & Hin) & _) _].
    destruct Hne. by apply Honly.
  - by destruct (failed_since_not_ok _ _ Hwp).
Qed.

Lemma same_commit_conflict_beside_other_conflict :
  local_tags mixed_conflict_repo !! "nWave_v1.1.21" = Some commit0 ∧
  local_tags mixed_conflict_repo !! "v1.1.21" = Some commit0 ∧
  ∃ result w',
    execute None None mixed_conflict_repo = Return result w' ∧
    forallb git_ok (since mixed_conflict_repo w') = true ∧
    local_tags w' !! "nWave_v1.1.21" = None ∧
    local_tags w' !! "v1.1.21" = Some commit0 ∧
    renamed_tags result = ["nWave_v1.1.21 -> v1.1.21 (conflict resolved)"] ∧
    errors result
    = ["Conflict: nWave_v1.1.20 and v1.1.20 point to different commits. Old: 3b18e512, existing: 9fceb02d. Skipped."].
Proof.
  split; [vm_compute; reflexivity|]. split; [vm_compute; reflexivity|].
  exists (value_of ExecuteResult0 (execute None None mixed_conflict_repo)),
         (world_of (execute None None mixed_conflict_repo)).
  vm_compute. repeat split.
Qed.

Lemma same_commit_conflict_resolved_witness :
  ∃ result w',
    execute None None conflict_same_commit_repo = Return result w' ∧
    local_tags w' !! "nWave_v1.1.21" = None ∧
    local_tags w' !! "v1.1.21" = Some commit0 ∧
    "nWave_v1.1.21 -> v1.1.21 (conflict resolved)" ∈ renamed_tags result ∧
    errors result = [].
Proof.
  destruct (same_commit_conflict_resolved None None conflict_same_commit_repo
              "nWave_v1.1.21" "v1.1.21" commit0 commit0)
    as (result & w' & Hrun & HA & _ & HB & Hnote & _ & Herrors).
  - apply (refnames_list_to_map [("nWave_v1.1.21", commit0); ("v1.1.21", commit0)]);
      [vm_compute; reflexivity|].
    repeat constructor; try discriminate.
  - vm_compute. reflexivity.
  - vm_compute. reflexivity.
  - vm_compute. reflexivity.
  - vm_compute. reflexivity.
  - reflexivity.
  - vm_compute. reflexivity.
  - exists result, w'. split_and!; [exact Hrun|exact HA|exact HB|exact Hnote|].
    apply Herrors. intros t [c Ht] Hpre.
    apply elem_of_list_to_map_2 in Ht.
    apply elem_of_cons in Ht as [[= -> _]|Ht]; [done|].
    apply list_elem_of_singleton in Ht as [= -> _]. discriminate.
Defined.

(** ** The scenario of the test suite *)

(** C6: with the two legacy tags for 1.1.20 and 1.1.21 and the eight plain
    tags, whatever their commits, [audit] counts 10 tags, 2 to rename and 8 to
    delete; [execute(remote=None)] renames 2, deletes 8, records no error and
    leaves exactly [v1.1.20] and [v1.1.21], each on the commit its legacy tag
    resolved to. *)
Theorem scenario_audit_and_execute commit rem rel hist :
  match audit (scenario_repo commit rem rel hist) with
  | Return report w' =>
      total report = 10 ∧ rename_count report = 2 ∧ delete_count report = 8
  | Raise _ _ => False
  end ∧
  match execute None None (scenario_repo commit rem rel hist) with
  | Return result w' =>
      renamed_count result = 2 ∧ deleted_count result = 8 ∧ errors result = [] ∧
      dom (local_tags w') = {[ "v1.1.20"; "v1.1.21" ]} ∧
      local_tags w' !! "v1.1.20" = Some (strip (commit "nWave_v1.1.20")) ∧
      local_tags w' !! "v1.1.21" = Some (strip (commit "nWave_v1.1.21"))
  | Raise _ _ => False
  end.
Proof.
  rewrite <- (strip_unlines_one (commit "nWave_v1.1.20")),
          <- (strip_unlines_one (commit "nWave_v1.1.21")).
  vm_compute. repeat split.
Qed.

(** ** The counts of an audit report *)

Lemma filter_classification_length (l : list ClassifiedTag) :
  length l
  = length (filter (λ t, classification t = RENAME) l)
    + length (filter (λ t, classification t = DELETE) l).
Proof.
  induction l as [|t l IH]; [done|]. rewrite !filter_cons.
  destruct (classification t) eqn:Ht; repeat case_decide; simplify_eq; simpl; lia.
Qed.

(** X1: in every audit report [total] is [rename_count] plus [delete_count]:
    each tag is counted under exactly one of the two classifications. *)
Theorem audit_counts_add_up (report : AuditReport) :
  total report = rename_count report + delete_count report.
Proof. apply filter_classification_length. Qed.

(** ** The listing *)

Lemma invoke_read_refs c w r w' :
  reads c → invoke c w = (r, w') → refs_of w' = refs_of w.
Proof.
  intros Hc. unfold invoke. destruct (faults w _).
  - by intros [= <- <-].
  - destruct c; try done; simpl.
    + by intros [= <- <-].
    + destruct (local_tags w !! tag); by intros [= <- <-].
Qed.

Lemma invoke_fail_refs c w stderr w' :
  invoke c w = (ExitFail stderr, w') → refs_of w' = refs_of w.
Proof.
  unfold invoke. destruct (faults w _).
  - by intros [= <- <-].
  - destruct c; simpl; repeat case_match; intros ?; by simplify_eq.
Qed.

Lemma since_invoke c w r w' : invoke c w = (r, w') → since w w' = [(c, r)].
Proof.
  intros H%invoke_history. unfold since. by rewrite H, drop_app_length.
Qed.

Lemma list_tags_Return w tags' w' :
  _list_tags w = Return tags' w' →
  ∃ stdout, invoke TagList w = (Exit0 stdout, w') ∧
            tags' = sorted (filter (λ l, l ≠ "") (strip <$> stdout)).
Proof.
  unfold _list_tags, _run_git, subprocess_run, bind, ret.
  destruct (invoke TagList w) as [[out|err] w1] eqn:Hinv; [|done].
  intros [= <- <-]. by exists out.
Qed.

(** X2: when [_list_tags] returns it has made one [git tag --list], changed no
    tag, remote tag or release, and its result is the stripped non-blank
    lines of the output, each as often as it occurs, in ascending order. *)
Theorem list_tags_sorted_nonblank w tags' w' :
  _list_tags w = Return tags' w' →
  ∃ stdout,
    since w w' = [(TagList, Exit0 stdout)] ∧
    tags' ≡ₚ filter (λ l, l ≠ "") (strip <$> stdout) ∧
    StronglySorted String.le tags' ∧
    refs_of w' = refs_of w.
Proof.
  intros (out & Hinv & ->)%list_tags_Return. exists out. split_and!.
  - by apply since_invoke.
  - unfold sorted. apply merge_sort_Permutation.
  - unfold sorted. apply StronglySorted_merge_sort; apply _.
  - exact (invoke_read_refs TagList _ _ _ I Hinv).
Qed.

Lemma list_tags_sorted_nonblank_witness :
  ∃ stdout,
    since temp_git_repo (world_of (_list_tags temp_git_repo))
      = [(TagList, Exit0 stdout)] ∧
    value_of [] (_list_tags temp_git_repo) ≡ₚ filter (λ l, l ≠ "") (strip <$> stdout) ∧
    StronglySorted String.le (value_of [] (_list_tags temp_git_repo)) ∧
    refs_of (world_of (_list_tags temp_git_repo)) = refs_of temp_git_repo.
Proof.
  apply (list_tags_sorted_nonblank temp_git_repo). vm_compute. reflexivity.
Defined.

Lemma invoke_TagList_Exit0 w out w' :
  invoke TagList w = (Exit0 out, w') →
  faults w (length (history w)) = None ∧
  out = (map_to_list (local_tags w)).*1 ∧ w' = log TagList (Exit0 out) w.
Proof.
  unfold invoke. destruct (faults w _); [done|]. simpl. by intros [= <- <-].
Qed.

Lemma list_tags_listing w tags' w' :
  _list_tags w = Return tags' w' → tags' = tag_listing w ∧ local_tags w' = local_tags w.
Proof.
  intros (out & Hinv & ->)%list_tags_Return.
  apply invoke_TagList_Exit0 in Hinv as (_ & -> & ->). done.
Qed.

Lemma list_tags_again w tags' w' :
  _list_tags w = Return tags' w' →
  faults w' (length (history w')) = None →
  _list_tags w' = Return tags' (log TagList (Exit0 (map_to_list (local_tags w)).*1) w').
Proof.
  intros Hl Hcalm. destruct (list_tags_listing _ _ _ Hl) as [-> Hsame].
  assert (calm 1 w') as Hc.
  { intros k Hk. by replace k with 0 by lia; rewrite Nat.add_0_r. }
  rewrite (list_tags_calm 0 w' Hc). unfold tag_listing. by rewrite Hsame.
Qed.

(** ** Audit and plan on the same store *)

Lemma foldl_audit (tags' : list string) (acc : AuditReport) :
  tags (foldl (λ report tag,
                 mkAuditReport (tags report ++ [mkClassifiedTag tag (classify_tag tag)]))
              acc tags')
  = tags acc ++ ((λ t, mkClassifiedTag t (classify_tag t)) <$> tags').
Proof.
  revert acc. induction tags' as [|t l IH]; intros acc; simpl.
  - by rewrite app_nil_r.
  - rewrite IH. simpl. by rewrite <- app_assoc.
Qed.

Lemma audit_Return w report w' :
  audit w = Return report w' →
  ∃ tags', _list_tags w = Return tags' w' ∧
           tags report = (λ t, mkClassifiedTag t (classify_tag t)) <$> tags'.
Proof.
  unfold audit, bind, ret. destruct (_list_tags w) as [tags' w1|] eqn:Hl; [|done].
  intros [= <- <-]. exists tags'. split; [done|]. by rewrite foldl_audit.
Qed.

Lemma filter_not_RENAME (l : list string) :
  (λ t, mkClassifiedTag t DELETE) <$> filter (λ t, ¬ classify_tag t = RENAME) l
  = (λ t, mkClassifiedTag t (classify_tag t)) <$>
      filter (λ t, classify_tag t = DELETE) l.
Proof.
  induction l as [|t l IH]; [done|]. rewrite !filter_cons.
  destruct (classify_tag t) eqn:Ht; repeat case_decide; try done.
  rewrite !fmap_cons, Ht. by f_equal.
Qed.

Lemma plan_to_delete (tags' : list string) :
  to_delete (foldl plan_step CleanupPlan0 tags')
  = (λ t, mkClassifiedTag t (classify_tag t)) <$>
      filter (λ t, classify_tag t = DELETE) tags'.
Proof.
  destruct (foldl_plan_step tags' CleanupPlan0) as [_ ->]. apply filter_not_RENAME.
Qed.

Lemma filter_classified (k : TagClassification) (l : list string) :
  filter (λ ct, classification ct = k) ((λ t, mkClassifiedTag t (classify_tag t)) <$> l)
  = (λ t, mkClassifiedTag t (classify_tag t)) <$> filter (λ t, classify_tag t = k) l.
Proof.
  induction l as [|t l IH]; [done|]. rewrite fmap_cons, !filter_cons. simpl.
  case_decide; [rewrite fmap_cons|]; by rewrite IH.
Qed.

(** X3: when [audit] returns it has changed nothing; its entries are in ascending
    order of name and each carries [classify_tag] of its name; and [plan] on
    the same store returns with the same final world a plan whose [to_rename]
    has the old names of the report's [RENAME] entries and whose [to_delete]
    is the list of its [DELETE] entries, so the two counts of the report are
    the lengths of the two lists of the plan. *)
Theorem audit_agrees_with_plan w report w' :
  audit w = Return report w' →
  refs_of w' = refs_of w ∧
  Forall (λ ct, classification ct = classify_tag (name ct)) (tags report) ∧
  StronglySorted String.le (name <$> tags report) ∧
  ∃ p, plan w = Return p w' ∧
    name <$> filter (λ ct, classification ct = RENAME) (tags report)
      = old_name <$> to_rename p ∧
    filter (λ ct, classification ct = DELETE) (tags report) = to_delete p ∧
    rename_count report = length (to_rename p) ∧
    delete_count report = length (to_delete p).
Proof.
  intros (tags' & Hl & Ht)%audit_Return.
  destruct (list_tags_Return _ _ _ Hl) as (out & Hinv & Htags).
  pose proof (invoke_read_refs TagList _ _ _ I Hinv) as Hrefs.
  assert (StronglySorted String.le tags') as Hsorted.
  { rewrite Htags. unfold sorted. apply StronglySorted_merge_sort; apply _. }
  assert (name <$> tags report = tags') as Hnames.
  { rewrite Ht, <- list_fmap_compose. apply list_fmap_id. }
  split_and!; [done| |by rewrite Hnames|].
  { rewrite Ht. apply Forall_fmap, Forall_forall. done. }
  exists (foldl plan_step CleanupPlan0 tags'). split; [by apply plan_of_list|].
  unfold rename_count, delete_count. rewrite plan_to_rename, plan_to_delete, Ht.
  rewrite !filter_classified, <- !list_fmap_compose, !length_fmap. done.
Qed.

Lemma audit_agrees_with_plan_witness :
  let report := value_of AuditReport0 (audit temp_git_repo) in
  let w' := world_of (audit temp_git_repo) in
  total report = 10 ∧
  refs_of w' = refs_of temp_git_repo ∧
  Forall (λ ct, classification ct = classify_tag (name ct)) (tags report) ∧
  StronglySorted String.le (name <$> tags report) ∧
  ∃ p, plan temp_git_repo = Return p w' ∧
    name <$> filter (λ ct, classification ct = RENAME) (tags report)
      = old_name <$> to_rename p ∧
    filter (λ ct, classification ct = DELETE) (tags report) = to_delete p ∧
    rename_count report = length (to_rename p) ∧
    delete_count report = length (to_delete p).
Proof.
  intros report w'. split; [vm_compute; reflexivity|].
  apply (audit_agrees_with_plan temp_git_repo). vm_compute. reflexivity.
Defined.

(** X4: when [plan] returns it has made one listing and changed nothing, and a
    second call right after it, if its listing does not fail, returns the same
    plan and still has changed nothing. *)
Theorem plan_read_only_repeatable w p w' :
  plan w = Return p w' →
  refs_of w' = refs_of w ∧
  (∃ stdout, since w w' = [(TagList, Exit0 stdout)]) ∧
  (faults w' (length (history w')) = None →
   ∃ w'', plan w' = Return p w'' ∧ refs_of w'' = refs_of w).
Proof.
  unfold plan at 1, bind, ret.
  destruct (_list_tags w) as [tags' w1|] eqn:Hl; [|done]. intros [= <- <-].
  destruct (list_tags_Return _ _ _ Hl) as (out & Hinv & _).
  pose proof (invoke_read_refs TagList _ _ _ I Hinv) as Hrefs.
  pose proof (since_invoke _ _ _ _ Hinv) as Hsince.
  split_and!; [done|by exists out|]. intros Hcalm.
  eexists. split.
  - apply plan_of_list. by apply list_tags_again.
  - done.
Qed.

Lemma plan_read_only_repeatable_witness :
  let p := value_of CleanupPlan0 (plan temp_git_repo) in
  let w' := world_of (plan temp_git_repo) in
  length (to_rename p) = 2 ∧
  refs_of w' = refs_of temp_git_repo ∧
  (∃ stdout, since temp_git_repo w' = [(TagList, Exit0 stdout)]) ∧
  (faults w' (length (history w')) = None →
   ∃ w'', plan w' = Return p w'' ∧ refs_of w'' = refs_of temp_git_repo).
Proof.
  intros p w'. split; [vm_compute; reflexivity|].
  apply (plan_read_only_repeatable temp_git_repo). vm_compute. reflexivity.
Defined.

(** X5: the entries of [plan().to_rename] are legacy tags paired with their
    rename targets; two entries with the same new name are the same entry,
    and no new name is the old name of an entry.  When the listing names no
    tag twice, the old names are pairwise distinct, and so are the new
    names. *)
Theorem plan_renames_do_not_collide w tags' w' :
  _list_tags w = Return tags' w' →
  ∃ p, plan w = Return p w' ∧
    Forall legacy_entry (to_rename p) ∧
    (∀ e e', e ∈ to_rename p → e' ∈ to_rename p →
             new_name e = new_name e' → e = e') ∧
    Forall (λ e, Forall (λ e', new_name e ≠ old_name e') (to_rename p)) (to_rename p) ∧
    (NoDup tags' →
     NoDup (old_name <$> to_rename p) ∧ NoDup (new_name <$> to_rename p)).
Proof.
  intros Hl. exists (foldl plan_step CleanupPlan0 tags'). split; [by apply plan_of_list|].
  destruct (plan_entries tags') as [Hleg Hold]. cbn zeta in Hleg, Hold.
  assert (∀ e e', e ∈ to_rename (foldl plan_step CleanupPlan0 tags') →
                  e' ∈ to_rename (foldl plan_step CleanupPlan0 tags') →
                  new_name e = new_name e' → e = e') as Hinj.
  { intros [old new] [old' new'] He He' Heq.
    destruct (proj1 (Forall_forall _ _) Hleg _ He) as [He1 He2].
    destruct (proj1 (Forall_forall _ _) Hleg _ He') as [He'1 He'2].
    cbn [old_name new_name] in *.
    assert (old = old') as <- by (apply rename_target_inj; [done|done|congruence]).
    congruence. }
  split; [done|]. split; [done|]. split.
  - apply Forall_forall. intros e He. apply Forall_forall. intros e' He' Heq.
    destruct (proj1 (Forall_forall _ _) Hleg e He) as [_ He2].
    destruct (proj1 (Forall_forall _ _) Hleg e' He') as [He'1 _].
    apply (legacy_not_target (old_name e') (old_name e) He'1). congruence.
  - intros Hnd.
    assert (NoDup (old_name <$> to_rename (foldl plan_step CleanupPlan0 tags'))) as Hnd'.
    { rewrite Hold. by apply NoDup_filter. }
    split; [done|].
    revert Hleg Hnd'. generalize (to_rename (foldl plan_step CleanupPlan0 tags')).
    intros l. induction l as [|e l IH]; intros Hleg Hnd'; [constructor|].
    rewrite fmap_cons in *. apply Forall_cons in Hleg as [[He Hne] Hleg].
    apply NoDup_cons in Hnd' as [Hnotin Hnd']. constructor; [|by apply IH].
    intros (e' & Heq & He')%list_elem_of_fmap. apply Hnotin.
    apply list_elem_of_fmap. exists e'. split; [|done].
    destruct (proj1 (Forall_forall _ _) Hleg e' He') as [He'1 He'2].
    apply rename_target_inj; [done|done|]. congruence.
Qed.

Lemma plan_renames_do_not_collide_witness :
  let tags' := value_of [] (_list_tags mixed_conflict_repo) in
  NoDup tags' ∧
  ∃ p, plan mixed_conflict_repo = Return p (world_of (_list_tags mixed_conflict_repo)) ∧
    Forall legacy_entry (to_rename p) ∧
    (∀ e e', e ∈ to_rename p → e' ∈ to_rename p →
             new_name e = new_name e' → e = e') ∧
    Forall (λ e, Forall (λ e', new_name e ≠ old_name e') (to_rename p)) (to_rename p) ∧
    (NoDup tags' →
     NoDup (old_name <$> to_rename p) ∧ NoDup (new_name <$> to_rename p)).
Proof.
  intros tags'. split.
  - apply (bool_decide_unpack _). vm_compute. reflexivity.
  - apply (plan_renames_do_not_collide mixed_conflict_repo tags').
    vm_compute. reflexivity.
Defined.

(** ** The rename target *)

Lemma slice_from_short (n : nat) (s : string) :
  (String.length s ≤ n)%nat → slice_from n s = "".
Proof.
  revert s. induction n as [|n IH]; intros [|c s]; simpl; try done; [lia|].
  intros H. apply IH. lia.
Qed.

Lemma length_slice_from (n : nat) (s : string) :
  String.length (slice_from n s) = String.length s - n.
Proof.
  revert s. induction n as [|n IH]; intros [|c s]; simpl; try done; lia.
Qed.

(** X6: for a tag with the legacy prefix, putting the prefix in place of the
    first character of its rename target gives the tag back; the target does
    not have the legacy prefix; and a legacy tag with the same target is the
    same tag. *)
Theorem rename_target_round_trip (tag : string) :
  startswith tag NWAVE_PREFIX = true →
  NWAVE_PREFIX +:+ slice_from 1 (rename_target tag) = tag ∧
  startswith (rename_target tag) NWAVE_PREFIX = false ∧
  ∀ tag', startswith tag' NWAVE_PREFIX = true →
          rename_target tag = rename_target tag' → tag = tag'.
Proof.
  intros Hleg. split_and!.
  - apply startswith_spec in Hleg as [s ->]. unfold rename_target.
    by rewrite slice_from_app.
  - by rewrite rename_target_head.
  - intros tag' Hleg'. by apply rename_target_inj.
Qed.

Lemma rename_target_round_trip_witness :
  NWAVE_PREFIX +:+ slice_from 1 (rename_target "nWave_v1.1.21") = "nWave_v1.1.21" ∧
  startswith (rename_target "nWave_v1.1.21") NWAVE_PREFIX = false ∧
  ∀ tag', startswith tag' NWAVE_PREFIX = true →
          rename_target "nWave_v1.1.21" = rename_target tag' → "nWave_v1.1.21" = tag'.
Proof. apply (rename_target_round_trip "nWave_v1.1.21"). reflexivity. Defined.

(** X7: [rename_target] does not look at the prefix.  It drops the first seven
    characters whatever they are: a tag of at most seven characters has the
    target [v], the target of any tag has length one plus what the tag has
    beyond seven characters, and any seven characters in front of [s] give
    [v] followed by [s]. *)
Theorem rename_target_ignores_prefix (tag : string) :
  ((String.length tag ≤ String.length NWAVE_PREFIX)%nat → rename_target tag = "v") ∧
  String.length (rename_target tag)
    = 1 + (String.length tag - String.length NWAVE_PREFIX) ∧
  (∀ p s, String.length p = String.length NWAVE_PREFIX →
          rename_target (p +:+ s) = "v" +:+ s).
Proof.
  split_and!.
  - intros H. unfold rename_target. by rewrite slice_from_short.
  - rewrite rename_target_head. simpl. f_equal. apply (length_slice_from 7).
  - intros p s Hp. unfold rename_target. by rewrite <- Hp, slice_from_app.
Qed.

(** ** What an invocation can change *)

Lemma invoke_local_tags c w r w' :
  invoke c w = (r, w') → local_tags w' = local_after c r (local_tags w).
Proof.
  unfold invoke. destruct (faults w _).
  - intros [= <- <-]. by destruct c.
  - destruct c; simpl; repeat case_match; intros ?; by simplify_eq.
Qed.

Lemma invoke_remotes c w r w' :
  invoke c w = (r, w') → ¬ pushes c → remotes w' = remotes w.
Proof.
  unfold invoke. destruct (faults w _).
  - by intros [= <- <-].
  - destruct c; simpl; try done; repeat case_match; intros ?; by simplify_eq.
Qed.

Lemma invoke_releases c w r w' :
  invoke c w = (r, w') → ¬ releases_tag c → releases w' = releases w.
Proof.
  unfold invoke. destruct (faults w _).
  - by intros [= <- <-].
  - destruct c; simpl; try done; repeat case_match; intros ?; by simplify_eq.
Qed.

Lemma invoke_ReleaseDelete repo tag w r w' :
  invoke (ReleaseDelete repo tag) w = (r, w') →
  local_tags w' = local_tags w ∧ remotes w' = remotes w ∧
  match r with
  | Exit0 _ => releases w' = releases w ∖ {[(repo, tag)]}
  | ExitFail _ => releases w' = releases w
  end.
Proof.
  unfold invoke. destruct (faults w _).
  - by intros [= <- <-].
  - simpl. case_decide; intros ?; by simplify_eq.
Qed.

Lemma invoke_RevList_Exit0 t w out w' :
  invoke (RevList t) w = (Exit0 out, w') →
  ∃ c, local_tags w !! t = Some c ∧ out = [c].
Proof.
  unfold invoke. destruct (faults w _); [done|]. simpl.
  destruct (local_tags w !! t) as [c|]; [|done]. intros [= <- _]. by exists c.
Qed.

Lemma invoke_TagCreate_Exit0 t commit w out w' :
  invoke (TagCreate t commit) w = (Exit0 out, w') → local_tags w !! t = None.
Proof.
  unfold invoke. destruct (faults w _); [done|]. simpl.
  by destruct (local_tags w !! t).
Qed.

Lemma invoke_TagDelete_Exit0 t w out w' :
  invoke (TagDelete t) w = (Exit0 out, w') → is_Some (local_tags w !! t).
Proof.
  unfold invoke. destruct (faults w _); [done|]. simpl.
  by destruct (local_tags w !! t).
Qed.

Lemma reach_remotes w w' :
  reach (λ c _, ¬ pushes c) w w' → remotes w' = remotes w.
Proof.
  induction 1 as [|w1 w2 c r _ IH Hinv Hc]; [done|].
  by rewrite (invoke_remotes _ _ _ _ Hinv Hc).
Qed.

Lemma reach_releases w w' :
  reach (λ c _, ¬ releases_tag c) w w' → releases w' = releases w.
Proof.
  induction 1 as [|w1 w2 c r _ IH Hinv Hc]; [done|].
  by rewrite (invoke_releases _ _ _ _ Hinv Hc).
Qed.

Lemma rename_phase_runs φ remote entries st :
  (∀ entry st, runs φ (rename_step remote entry st)) →
  runs φ (rename_phase remote entries st).
Proof.
  intros H. revert st. induction entries as [|entry rest IH]; intros st; simpl.
  - apply runs_ret.
  - apply runs_bind; [apply H|done].
Qed.

Lemma delete_phase_runs φ gh_repo remote prot result :
  (∀ r, φ TagList r) →
  (∀ tag result, runs φ (delete_step gh_repo remote prot tag result)) →
  runs φ (delete_phase gh_repo remote prot result).
Proof.
  intros Hl H. unfold delete_phase. apply runs_bind.
  - repeat runs_step. apply Hl.
  - intros tags. revert result.
    induction tags as [|tag tags IH]; intros result; simpl.
    + apply runs_ret.
    + apply runs_bind; [apply H|done].
Qed.

Lemma execute_runs φ gh_repo remote :
  (∀ r, φ TagList r) →
  (∀ entry st, runs φ (rename_step remote entry st)) →
  (∀ prot tag result, runs φ (delete_step gh_repo remote prot tag result)) →
  runs φ (execute gh_repo remote).
Proof.
  intros Hl Hr Hd. unfold execute, plan. apply runs_bind.
  - repeat runs_step. apply Hl.
  - intros p. apply runs_bind; [by apply rename_phase_runs|].
    intros st. by apply delete_phase_runs.
Qed.

(** X8: when [remote] is [None] or the empty string, [execute] invokes no push,
    neither of a tag nor of a deletion, and leaves the tags of every remote as
    they were, whether it returns or raises. *)
Theorem execute_without_remote_never_pushes gh_repo remote w :
  truthy remote = None →
  remotes (world_of (execute gh_repo remote w)) = remotes w ∧
  Forall (λ cr, ¬ pushes cr.1) (since w (world_of (execute gh_repo remote w))).
Proof.
  intros Hremote.
  assert (runs (λ c _, ¬ pushes c) (execute gh_repo remote)) as Hruns.
  { apply execute_runs.
    - intros r H. exact H.
    - intros entry [result prot]. unfold rename_step. rewrite Hremote.
      repeat runs_step; by intros [].
    - intros prot tag result. unfold delete_step. rewrite Hremote.
      repeat runs_step; by intros []. }
  pose proof (runs_reach _ _ w Hruns) as Hreach. split.
  - by apply reach_remotes.
  - by apply reach_since in Hreach as [_ Hall].
Qed.

Lemma execute_without_remote_never_pushes_witness :
  remotes (world_of (execute (Some "owner/repo") (Some "") temp_git_repo_with_remote))
    = remotes temp_git_repo_with_remote ∧
  Forall (λ cr, ¬ pushes cr.1)
    (since temp_git_repo_with_remote
       (world_of (execute (Some "owner/repo") (Some "") temp_git_repo_with_remote))).
Proof.
  apply (execute_without_remote_never_pushes (Some "owner/repo") (Some "")
           temp_git_repo_with_remote).
  reflexivity.
Defined.

(** X9: when [gh_repo] is [None] or the empty string, [execute] never invokes
    [gh release delete] and leaves the hosted releases as they were, whether
    it returns or raises. *)
Theorem execute_without_gh_repo_keeps_releases gh_repo remote w :
  truthy gh_repo = None →
  releases (world_of (execute gh_repo remote w)) = releases w ∧
  Forall (λ cr, ¬ releases_tag cr.1) (since w (world_of (execute gh_repo remote w))).
Proof.
  intros Hrepo.
  assert (runs (λ c _, ¬ releases_tag c) (execute gh_repo remote)) as Hruns.
  { apply execute_runs.
    - intros r H. exact H.
    - intros entry [result prot]. unfold rename_step.
      repeat runs_step; by intros [].
    - intros prot tag result. unfold delete_step. rewrite Hrepo.
      repeat runs_step; by intros []. }
  pose proof (runs_reach _ _ w Hruns) as Hreach. split.
  - by apply reach_releases.
  - by apply reach_since in Hreach as [_ Hall].
Qed.

Lemma execute_without_gh_repo_keeps_releases_witness :
  releases (world_of (execute None (Some "origin") temp_git_repo_with_remote))
    = releases temp_git_repo_with_remote ∧
  Forall (λ cr, ¬ releases_tag cr.1)
    (since temp_git_repo_with_remote
       (world_of (execute None (Some "origin") temp_git_repo_with_remote))).
Proof.
  apply (execute_without_gh_repo_keeps_releases None (Some "origin")
           temp_git_repo_with_remote).
  reflexivity.
Defined.

(** ** Walks: sequences of invocations seen from the world *)

Lemma rstrip_rstrip (s : string) : rstrip (rstrip s) = rstrip s.
Proof.
  induction s as [|c s IH]; [done|]. simpl.
  destruct (rstrip s) as [|d r] eqn:Hr.
  - destruct (isspace c) eqn:Hc; [done|]. simpl. by rewrite Hc.
  - change (rstrip (String c (String d r)))
      with (match rstrip (String d r) with
            | "" => if isspace c then "" else String c ""
            | r0 => String c r0
            end).
    by rewrite IH.
Qed.

Lemma lstrip_rstrip (s : string) : lstrip (rstrip (lstrip s)) = rstrip (lstrip s).
Proof.
  induction s as [|c s IH]; [done|]. simpl.
  destruct (isspace c) eqn:Hc; [exact IH|]. simpl.
  destruct (rstrip s); rewrite ?Hc; simpl; by rewrite ?Hc.
Qed.

Lemma strip_strip (s : string) : strip (strip s) = strip s.
Proof. unfold strip. by rewrite lstrip_rstrip, rstrip_rstrip. Qed.

Lemma spaceless_rstrip (t : string) : spaceless t = true → rstrip t = t.
Proof.
  induction t as [|c t IH]; [done|]. simpl.
  intros [Hc Ht]%andb_true_iff. rewrite (IH Ht).
  destruct t; [|done]. by destruct (isspace c).
Qed.

Lemma spaceless_refname (t : string) : spaceless t = true → t ≠ "" → refname t.
Proof.
  intros Ht Hne. split; [|done]. unfold strip.
  assert (lstrip t = t) as ->; [|by apply spaceless_rstrip].
  destruct t as [|c t]; [done|]. simpl in *.
  apply andb_true_iff in Ht as [Hc _]. by destruct (isspace c).
Qed.

Lemma steps_trans ψ w1 w2 w3 : steps ψ w1 w2 → steps ψ w2 w3 → steps ψ w1 w3.
Proof. intros H12 H23. induction H23; [done|]. eapply steps_step; eauto. Qed.

Lemma steps_mono (ψ ψ' : World → Command → Completed → Prop) w w' :
  (∀ w c r, ψ w c r → ψ' w c r) → steps ψ w w' → steps ψ' w w'.
Proof.
  intros Himp H. induction H; [apply steps_refl|]. eapply steps_step; eauto.
Qed.

Lemma steps_reach ψ (φ : Command → Completed → Prop) w w' :
  (∀ w c r, ψ w c r → φ c r) → steps ψ w w' → reach φ w w'.
Proof.
  intros Himp H. induction H; [apply reach_refl|]. eapply reach_step; eauto.
Qed.

(** Reading while walking. *)
Lemma steps_list_tags ψ w0 w (Q : list string → World → Prop) E :
  (∀ w r, ψ w TagList r) → steps ψ w0 w →
  (∀ w', steps ψ w0 w' → refs_of w' = refs_of w → Q (tag_listing w) w') →
  (∀ e w', steps ψ w0 w' → E e w') →
  wp _list_tags w Q E.
Proof.
  intros Hψ Hs HQ HE. unfold _list_tags, _run_git. apply wp_bind, wp_subprocess_run.
  intros [out|err] w' Hinv.
  - apply wp_ret. pose proof (invoke_read_refs TagList _ _ _ I Hinv) as Hl.
    destruct (invoke_TagList_Exit0 _ _ _ Hinv) as (_ & -> & _).
    apply HQ; [|done]. eapply steps_step; eauto.
  - apply HE. eapply steps_step; eauto.
Qed.

Lemma steps_get_tag_commit ψ w0 w tag (Q : string → World → Prop) E :
  (∀ w t r, ψ w (RevList t) r) → steps ψ w0 w →
  (∀ c w', steps ψ w0 w' → local_tags w' = local_tags w →
           local_tags w !! tag = Some c → Q (strip c) w') →
  (∀ e w', steps ψ w0 w' → E e w') →
  wp (_get_tag_commit tag) w Q E.
Proof.
  intros Hψ Hs HQ HE. unfold _get_tag_commit, _run_git.
  apply wp_bind, wp_subprocess_run. intros [out|err] w' Hinv.
  - apply wp_ret. pose proof (invoke_local_tags _ _ _ _ Hinv) as Hl.
    destruct (invoke_RevList_Exit0 _ _ _ _ Hinv) as (c & Hc & ->).
    rewrite strip_unlines_one. apply (HQ c); [|done|done].
    eapply steps_step; eauto.
  - apply HE. eapply steps_step; eauto.
Qed.

(** ** The walk of one rename entry *)

Lemma steps_try ψ w0 w c (Q : list string + string → World → Prop) E :
  steps ψ w0 w → (∀ r, ψ w c r) →
  (∀ r w', invoke c w = (r, w') → steps ψ w0 w' →
     Q (match r with Exit0 out => inl out | ExitFail e => inr e end) w') →
  wp (try_ (_run_git c)) w Q E.
Proof.
  intros Hs Hψ HQ. apply wp_try, wp_subprocess_run. intros r w' Hinv.
  specialize (HQ r w' Hinv (steps_step _ _ _ _ _ _ Hs Hinv (Hψ r))).
  by destruct r.
Qed.

Lemma steps_delete_tag_local ψ w0 w tag result
    (Q : bool * ExecuteResult → World → Prop) E :
  steps ψ w0 w → (∀ r, ψ w (TagDelete tag) r) →
  (∀ r w', invoke (TagDelete tag) w = (r, w') → steps ψ w0 w' →
     Q (match r with
        | Exit0 _ => (true, result)
        | ExitFail e =>
            (false, add_error result ("Failed to delete local tag " +:+ tag +:+ ": " +:+ e))
        end) w') →
  wp (_delete_tag_local tag result) w Q E.
Proof.
  intros Hs Hψ HQ. unfold _delete_tag_local. apply wp_bind, (steps_try ψ w0); [done..|].
  intros r w' Hinv Hs'. specialize (HQ r w' Hinv Hs'). by destruct r.
Qed.

Lemma steps_delete_tag_remote ψ w0 w tag remote result
    (Q : bool * ExecuteResult → World → Prop) E :
  steps ψ w0 w → (∀ r, ψ w (PushDelete remote tag) r) →
  (∀ r w', invoke (PushDelete remote tag) w = (r, w') → steps ψ w0 w' →
     Q (match r with
        | Exit0 _ => (true, result)
        | ExitFail e =>
            (false, add_error result ("Failed to delete remote tag " +:+ tag +:+ ": " +:+ e))
        end) w') →
  wp (_delete_tag_remote tag remote result) w Q E.
Proof.
  intros Hs Hψ HQ. unfold _delete_tag_remote. apply wp_bind, (steps_try ψ w0); [done..|].
  intros r w' Hinv Hs'. specialize (HQ r w' Hinv Hs'). by destruct r.
Qed.

(** [_delete_tag_remote] when a remote is configured, nothing otherwise: the
    local tags stay as they are. *)
Lemma steps_delete_tag_remote_if ψ w0 w tag remote (d : bool * ExecuteResult)
    (Q : bool * ExecuteResult → World → Prop) E :
  steps ψ w0 w → (∀ rem r, ψ w (PushDelete rem tag) r) →
  (∀ d' w', steps ψ w0 w' → local_tags w' = local_tags w →
            releases w' = releases w →
            deleted_tags d'.2 = deleted_tags d.2 →
            renamed_tags d'.2 = renamed_tags d.2 →
            (∀ m, m ∈ errors d.2 → m ∈ errors d'.2) → Q d' w') →
  wp (match truthy remote with
      | Some remote => _delete_tag_remote tag remote d.2
      | None => ret d
      end) w Q E.
Proof.
  intros Hs Hψ HQ. destruct (truthy remote) as [rem|].
  - apply (steps_delete_tag_remote ψ w0); [done..|]. intros r w' Hinv Hs'.
    pose proof (invoke_local_tags _ _ _ _ Hinv) as Hl.
    pose proof (invoke_releases _ _ _ _ Hinv (λ H, H)) as Hr.
    destruct r; apply HQ; try done.
    simpl. intros m Hm. apply elem_of_app. by left.
  - apply wp_ret. by apply HQ.
Qed.

Lemma rename_step_renames remote entry result prot w0 w :
  legacy_entry entry → steps renames w0 w →
  wp (rename_step remote entry (result, prot)) w
     (λ st' w',
        steps renames w0 w' ∧
        deleted_tags st'.1 = deleted_tags result ∧
        (∀ t, is_Some (local_tags w !! t) → local_tags w' !! t = None →
              t = old_name entry ∧ new_name entry ∈ st'.2) ∧
        ((st'.2 = prot ∧ renamed_tags st'.1 = renamed_tags result) ∨
         (st'.2 = {[new_name entry]} ∪ prot ∧
          is_Some (local_tags w' !! new_name entry) ∧
          ∃ note, renamed_as (old_name entry) (new_name entry) note ∧
                  renamed_tags st'.1 = renamed_tags result ++ [note])))
     (λ _ w', steps renames w0 w').
Proof.
  intros [Hleg Hnew] Hs. destruct entry as [old new]. cbn [old_name new_name] in Hleg, Hnew. subst new.
  unfold rename_step. cbn [old_name new_name].
  assert (old ≠ rename_target old) as Hne by by apply legacy_not_target.
  apply wp_bind, (steps_list_tags renames w0); [done|done| |done].
  intros w1 Hs1 Hl1. apply (f_equal (λ x, x.1.1)) in Hl1. cbn in Hl1.
  destruct (decide (rename_target old ∈ tag_listing w)) as [Hin|Hnotin].
  - (* the target is there *)
    apply wp_bind, (steps_get_tag_commit renames w0); [done|done| |done].
    intros c_old w2 Hs2 Hl2 Hold.
    apply wp_bind, (steps_get_tag_commit renames w0); [done|done| |done].
    intros c_new w3 Hs3 Hl3 Hnew.
    destruct (decide (strip c_old = strip c_new)) as [Heq|Hdiff].
    + apply wp_bind, (steps_delete_tag_local renames w0); [done| |].
      { intros r. split; [done|]. intros c Hc. exists c_new.
        rewrite Hl3, Hl2 in *. split; [done|]. congruence. }
      intros r w4 Hinv4 Hs4. pose proof (invoke_local_tags _ _ _ _ Hinv4) as Hl4.
      apply wp_bind, (steps_delete_tag_remote_if renames w0); [done|done|].
      intros d' w5 Hs5 Hl5 _ Hdel Hren _. apply wp_ret. simpl.
      assert (local_tags w5 !! rename_target old = Some c_new) as Hthere.
      { rewrite Hl5, Hl4, Hl3. destruct r; simpl; [|done].
        by rewrite lookup_delete_ne. }
      split_and!.
      * done.
      * rewrite Hdel. by destruct r.
      * intros t Ht Hnone. split; [|apply elem_of_union_l, elem_of_singleton; done].
        rewrite Hl5, Hl4, Hl3, Hl2, Hl1 in Hnone. destruct r; simpl in Hnone.
        -- destruct (decide (t = old)) as [|Hto]; [done|].
           rewrite lookup_delete_ne in Hnone by done.
           rewrite Hnone in Ht. by destruct Ht.
        -- rewrite Hnone in Ht. by destruct Ht.
      * right. split_and!; [done|by rewrite Hthere|].
        eexists. split; [by right|]. rewrite Hren. by destruct r.
    + apply wp_ret. simpl. split_and!; [done|done| |by left].
      intros t Ht Hnone. rewrite Hl3, Hl2, Hl1 in Hnone. rewrite Hnone in Ht.
      by destruct Ht.
  - (* the target is not there *)
    apply wp_bind, (steps_get_tag_commit renames w0); [done|done| |done].
    intros c_old w2 Hs2 Hl2 Hold.
    apply wp_bind, (steps_try renames w0); [done| |].
    { intros r. exists old, c_old. split_and!; try done. by rewrite Hl2. }
    intros r w3 Hinv3 Hs3. pose proof (invoke_local_tags _ _ _ _ Hinv3) as Hl3.
    destruct r as [out|err].
    + simpl in Hl3.
      (* the push *)
      apply wp_bind.
      match goal with |- wp ?m w3 _ _ =>
        assert (wp m w3 (λ result' w4,
                  steps renames w0 w4 ∧ local_tags w4 = local_tags w3 ∧
                  deleted_tags result' = deleted_tags result ∧
                  renamed_tags result' = renamed_tags result)
                  (λ _ w', steps renames w0 w')) as Hpush
      end.
      { destruct (truthy remote) as [rem|]; [|by apply wp_ret].
        apply wp_bind, (steps_try renames w0); [done|by exists old|].
        intros r w4 Hinv4 Hs4. pose proof (invoke_local_tags _ _ _ _ Hinv4) as Hl4.
        destruct r; apply wp_ret; by destruct r || done. }
      eapply wp_mono; [exact Hpush| |done]. clear Hpush.
      intros result' w4 (Hs4 & Hl4 & Hdel4 & Hren4). simpl.
      apply wp_bind, (steps_delete_tag_local renames w0); [done| |].
      { intros r. split; [done|]. intros c Hc. exists (strip c_old).
        rewrite Hl4, Hl3 in *. rewrite lookup_insert_eq.
        rewrite lookup_insert_ne in Hc by done. rewrite Hl2 in Hc.
        split; [done|]. rewrite strip_strip. congruence. }
      intros r w5 Hinv5 Hs5. pose proof (invoke_local_tags _ _ _ _ Hinv5) as Hl5.
      apply wp_bind, (steps_delete_tag_remote_if renames w0); [done|done|].
      intros d' w6 Hs6 Hl6 _ Hdel Hren _. apply wp_ret. simpl.
      assert (local_tags w6 !! rename_target old = Some (strip c_old)) as Hthere.
      { rewrite Hl6, Hl5, Hl4, Hl3. destruct r; simpl.
        - rewrite lookup_delete_ne by done. by rewrite lookup_insert_eq.
        - by rewrite lookup_insert_eq. }
      split_and!.
      * done.
      * rewrite Hdel, <- Hdel4. by destruct r.
      * intros t Ht Hnone. split; [|apply elem_of_union_l, elem_of_singleton; done].
        rewrite Hl6, Hl5, Hl4, Hl3, Hl2, Hl1 in Hnone.
        destruct (decide (t = old)) as [|Hto]; [done|]. exfalso.
        assert (local_tags w !! t = None) as Habs; [|rewrite Habs in Ht; by destruct Ht].
        destruct r; simpl in Hnone.
        -- rewrite lookup_delete_ne in Hnone by done.
           destruct (decide (t = rename_target old)) as [->|Htn].
           ++ by rewrite lookup_insert_eq in Hnone.
           ++ by rewrite lookup_insert_ne in Hnone.
        -- destruct (decide (t = rename_target old)) as [->|Htn].
           ++ by rewrite lookup_insert_eq in Hnone.
           ++ by rewrite lookup_insert_ne in Hnone.
      * right. split_and!; [done|by rewrite Hthere|].
        eexists. split; [by left|]. rewrite Hren, <- Hren4. by destruct r.
    + simpl in Hl3. apply wp_ret. simpl. split_and!; [done|done| |by left].
      intros t Ht Hnone. rewrite Hl3, Hl2, Hl1 in Hnone. rewrite Hnone in Ht.
      by destruct Ht.
Qed.

(** ** The walk of the rename phase *)

Lemma rename_phase_renames remote entries st w0 w :
  Forall legacy_entry entries → steps renames w0 w → protects st w →
  wp (rename_phase remote entries st) w
     (λ st' w',
        steps renames w0 w' ∧
        deleted_tags st'.1 = deleted_tags st.1 ∧
        st.2 ⊆ st'.2 ∧
        protects st' w' ∧
        ∀ t, is_Some (local_tags w !! t) → local_tags w' !! t = None →
             rename_target t ∈ st'.2)
     (λ _ w', steps renames w0 w').
Proof.
  intros Hall. revert st w. induction Hall as [|entry rest Hentry Hall IH];
    intros [result prot] w Hs Hprot; simpl.
  - apply wp_ret. split_and!; try done. intros t [c Ht] Hnone. congruence.
  - apply wp_bind. eapply wp_mono; [by apply rename_step_renames| |done].
    intros [result1 prot1] w1 (Hs1 & Hdel1 & Hgone1 & Hcase). cbn [fst snd] in *.
    destruct Hentry as [Hleg Hnew].
    assert (prot ⊆ prot1) as Hsub1.
    { destruct Hcase as [[-> _]|[-> _]]; [done|apply union_subseteq_r]. }
    assert (protects (result1, prot1) w1) as Hprot1.
    { destruct Hprot as [Hp Hr]. cbn [fst snd] in *.
      assert (∀ t, t ∈ prot → is_Some (local_tags w1 !! t)) as Hstay.
      { intros t Ht. destruct (Hp t Ht) as (Hthere & old & note & Hold & -> & _).
        destruct (local_tags w1 !! rename_target old) eqn:Hlook; [done|].
        destruct (Hgone1 _ Hthere Hlook) as [Heq _].
        rewrite <- Heq in Hleg. by destruct (legacy_not_target _ old Hleg). }
      destruct Hcase as [[-> Hren]|(-> & Hthere & note & Hnote & Hren)]; split; simpl.
      - intros t Ht. split; [by apply Hstay|]. rewrite Hren. by apply Hp.
      - intros note. rewrite Hren. apply Hr.
      - intros t [Ht%elem_of_singleton|Ht]%elem_of_union.
        + subst t. split; [done|]. exists (old_name entry), note. rewrite Hren.
          split_and!; try done. apply elem_of_app. right. by left.
        + split; [by apply Hstay|]. destruct (Hp t Ht) as (_ & old & n & ? & ? & ? & ?).
          exists old, n. rewrite Hren. split_and!; try done.
          apply elem_of_app. by left.
      - intros n. rewrite Hren.
        intros [Hn|Hn%list_elem_of_singleton]%elem_of_app.
        + destruct (Hr n Hn) as (old & ? & ? & ?). exists old.
          split_and!; try done. by apply elem_of_union_r.
        + subst n. exists (old_name entry). rewrite <- Hnew.
          split_and!; try done. by apply elem_of_union_l, elem_of_singleton. }
    eapply wp_mono; [by apply IH| |done].
    intros [result2 prot2] w2 (Hs2 & Hdel2 & Hsub2 & Hprot2 & Hgone2). cbn [fst snd] in *.
    split_and!; try done.
    + congruence.
    + by etrans.
    + intros t Ht Hnone. destruct (local_tags w1 !! t) eqn:Hlook.
      * apply Hgone2; [done|done].
      * destruct (Hgone1 t Ht Hlook) as [-> Hin]. rewrite <- Hnew. by apply Hsub2.
Qed.

(** ** What a walk of the rename phase does to the tags *)

Lemma renames_keeps_commits w0 w :
  steps renames w0 w →
  ∀ old c, startswith old NWAVE_PREFIX = true → local_tags w0 !! old = Some c →
    local_tags w !! old = Some c ∨
    ∃ c', local_tags w !! rename_target old = Some c' ∧ strip c' = strip c.
Proof.
  induction 1 as [|w1 w2 cmd r _ IH Hinv Hψ]; intros old c Hold Hc; [by left|].
  specialize (IH old c Hold Hc).
  pose proof (invoke_local_tags _ _ _ _ Hinv) as Hl. rewrite Hl.
  destruct cmd as [| |t commit|t|rem t|rem t|repo t]; cbn [renames deletes local_after] in *; try done;
    destruct r as [out|err]; simpl; try done.
  - (* create *)
    pose proof (invoke_TagCreate_Exit0 _ _ _ _ _ Hinv) as Hnone.
    destruct Hψ as (old' & c_old & Hold' & -> & _).
    destruct IH as [IH|(c' & IH & Heq)].
    + left. rewrite lookup_insert_ne; [done|].
      intros Heq. symmetry in Heq. by destruct (legacy_not_target _ _ Hold Heq).
    + right. exists c'. split; [|done]. rewrite lookup_insert_ne; [done|].
      intros Heq'. rewrite Heq' in Hnone. congruence.
  - (* delete *)
    destruct Hψ as [Ht Hψ]. destruct IH as [IH|(c' & IH & Heq)].
    + destruct (decide (t = old)) as [->|Hne].
      * right. destruct (Hψ c IH) as (c' & Hc' & Heq). exists c'. split; [|done].
        rewrite lookup_delete_ne; [done|]. by apply legacy_not_target.
      * left. by rewrite lookup_delete_ne.
    + right. exists c'. split; [|done].
      rewrite lookup_delete_ne; [done|]. by apply legacy_not_target.
Qed.

Lemma renames_moves_nothing w0 w :
  steps renames w0 w →
  ∀ t c, local_tags w !! t = Some c →
    local_tags w0 !! t = Some c ∨
    ∃ old c_old, startswith old NWAVE_PREFIX = true ∧ t = rename_target old ∧
                 local_tags w0 !! old = Some c_old ∧ c = strip c_old.
Proof.
  induction 1 as [|w1 w2 cmd r _ IH Hinv Hψ]; intros t0 c; [by left|].
  pose proof (invoke_local_tags _ _ _ _ Hinv) as Hl. rewrite Hl.
  destruct cmd as [| |t commit|t|rem t|rem t|repo t]; cbn [renames deletes local_after] in *; try done;
    destruct r as [out|err]; simpl; try apply IH.
  - destruct Hψ as (old & c_old & Hold & -> & Hc_old & ->).
    destruct (decide (rename_target old = t0)) as [<-|Hne].
    + rewrite lookup_insert_eq. intros [= <-]. right. exists old, c_old.
      split_and!; try done.
      destruct (IH _ _ Hc_old) as [|(old' & ? & ? & Heq & _)]; [done|].
      by destruct (legacy_not_target _ _ Hold Heq).
    + rewrite lookup_insert_ne by done. apply IH.
  - intros [_ Hc]%lookup_delete_Some. by apply IH.
Qed.

Lemma renames_deletes_legacy w0 w t :
  steps renames w0 w → startswith t NWAVE_PREFIX = false →
  is_Some (local_tags w0 !! t) → is_Some (local_tags w !! t).
Proof.
  intros Hs Ht. induction Hs as [|w1 w2 cmd r _ IH Hinv Hψ]; [done|].
  intros Hin. specialize (IH Hin).
  pose proof (invoke_local_tags _ _ _ _ Hinv) as Hl. rewrite Hl.
  destruct cmd as [| |t' commit|t'|rem t'|rem t'|repo t']; cbn [renames deletes local_after] in *; try done;
    destruct r as [out|err]; simpl; try done.
  - destruct (decide (t' = t)) as [->|Hne].
    + by rewrite lookup_insert_eq.
    + by rewrite lookup_insert_ne.
  - destruct Hψ as [Hleg _]. rewrite lookup_delete_ne; [done|]. congruence.
Qed.

(** ** What a walk of the delete phase does to the tags *)

Lemma deletes_only_shrinks prot w1 w2 :
  steps (deletes prot) w1 w2 →
  ∀ t c, local_tags w2 !! t = Some c → local_tags w1 !! t = Some c.
Proof.
  induction 1 as [|w w' cmd r _ IH Hinv Hψ]; intros t0 c; [done|].
  pose proof (invoke_local_tags _ _ _ _ Hinv) as Hl. rewrite Hl.
  destruct cmd as [| |t commit|t|rem t|rem t|repo t]; cbn [renames deletes local_after] in *; try done;
    destruct r as [out|err]; simpl; try apply IH.
  intros [_ Hc]%lookup_delete_Some. by apply IH.
Qed.

Lemma deletes_spares prot w1 w2 t :
  steps (deletes prot) w1 w2 → t ∈ prot ∨ classify_tag t = RENAME →
  local_tags w2 !! t = local_tags w1 !! t.
Proof.
  intros Hs Ht. induction Hs as [|w w' cmd r _ IH Hinv Hψ]; [done|].
  pose proof (invoke_local_tags _ _ _ _ Hinv) as Hl. rewrite Hl, <- IH.
  destruct cmd as [| |t' commit|t'|rem t'|rem t'|repo t']; cbn [renames deletes local_after] in *; try done;
    destruct r as [out|err]; simpl; try done.
  destruct Hψ as [Hnot Hdel]. rewrite lookup_delete_ne; [done|].
  intros ->. destruct Ht as [Ht|Ht]; [done|congruence].
Qed.

Lemma deletes_releases prot w1 w2 :
  steps (deletes prot) w1 w2 →
  ∀ x, x ∈ releases w2 → x ∈ releases w1.
Proof.
  induction 1 as [|w w' cmd r _ IH Hinv Hψ]; intros x; [done|].
  intros Hx. apply IH.
  destruct cmd as [| |t commit|t|rem t|rem t|repo t];
    try (by rewrite (invoke_releases _ _ _ _ Hinv) in Hx by (by intros [])).
  apply invoke_ReleaseDelete in Hinv as (_ & _ & Hr).
  destruct r; rewrite Hr in Hx; [|done]. by apply elem_of_difference in Hx as [? _].
Qed.

(** ** The walk of the delete phase *)

Lemma delete_step_deletes gh_repo remote prot tag result w0 w :
  steps (deletes prot) w0 w →
  wp (delete_step gh_repo remote prot tag result) w
    (λ result' w',
       steps (deletes prot) w0 w' ∧
       renamed_tags result' = renamed_tags result ∧
       (∀ m, m ∈ errors result → m ∈ errors result') ∧
       ((deleted_tags result' = deleted_tags result ∧ releases w' = releases w ∧
         (tag ∈ prot ∨ classify_tag tag = RENAME ∨
          ∃ e, ("Failed to delete local tag " +:+ tag +:+ ": " +:+ e) ∈ errors result'))
        ∨
        (deleted_tags result' = deleted_tags result ++ [tag] ∧
         (tag ∉ prot) ∧ classify_tag tag = DELETE ∧
         is_Some (local_tags w !! tag) ∧ local_tags w' !! tag = None ∧
         ∀ x, x ∈ releases w → x ∉ releases w' →
              ∃ repo, truthy gh_repo = Some repo ∧ x = (repo, tag))))
    (λ _ _, False).
Proof.
  intros Hs. unfold delete_step.
  destruct (decide (tag ∈ prot)) as [Hin|Hnot].
  { apply wp_ret. split_and!; try done. left. split_and!; try done. by left. }
  destruct (decide (classify_tag tag = DELETE)) as [Hdel|Hren].
  2:{ apply wp_ret. split_and!; try done. left. split_and!; try done.
      right. left. by destruct (classify_tag tag). }
  apply wp_bind, (steps_delete_tag_local (deletes prot) w0); [done|done|].
  intros r w1 Hinv1 Hs1. pose proof (invoke_local_tags _ _ _ _ Hinv1) as Hl1.
  pose proof (invoke_releases _ _ _ _ Hinv1 (λ H, H)) as Hr1.
  destruct r as [out|err]; cbn [fst snd local_after] in *.
  - pose proof (invoke_TagDelete_Exit0 _ _ _ _ Hinv1) as Hthere.
    apply wp_bind, (steps_delete_tag_remote_if (deletes prot) w0 _ _ _ (true, result));
      [done|done|].
    intros d' w2 Hs2 Hl2 Hr2 Hdel2 Hren2 Herr2. cbn [fst snd] in *.
    assert (local_tags w2 !! tag = None) as Hgone.
    { by rewrite Hl2, Hl1, lookup_delete_eq. }
    destruct (truthy gh_repo) as [repo|] eqn:Hrepo.
    + unfold _delete_gh_release. apply wp_bind, wp_bind.
      apply (steps_try (deletes prot) w0); [done|done|].
      intros r w3 Hinv3 Hs3. apply wp_ret, wp_ret.
      apply invoke_ReleaseDelete in Hinv3 as (Hl3 & _ & Hr3).
      split_and!; try done.
      right. split_and!; try done.
      * simpl. by rewrite Hdel2.
      * by rewrite Hl3.
      * intros x Hx Hnx. exists repo. split; [done|].
        rewrite <- Hr1, <- Hr2 in Hx.
        destruct r; rewrite Hr3 in Hnx; [|done].
        destruct (decide (x = (repo, tag))) as [|Hne]; [done|].
        destruct Hnx. apply elem_of_difference. split; [done|].
        by intros ?%elem_of_singleton.
    + apply wp_ret. split_and!; try done.
      right. split_and!; try done.
      * simpl. by rewrite Hdel2.
      * intros x Hx Hnx. rewrite Hr2, Hr1 in Hnx. done.
  - apply wp_ret. split_and!; try done.
    + intros m Hm. apply elem_of_app. by left.
    + left. split_and!; try done. right. right. exists err.
      apply elem_of_app. right. by left.
Qed.

Lemma deletes_stays_gone prot w1 w2 t :
  steps (deletes prot) w1 w2 → local_tags w1 !! t = None → local_tags w2 !! t = None.
Proof.
  intros Hs Hnone. destruct (local_tags w2 !! t) as [c|] eqn:Hc; [|done].
  apply (deletes_only_shrinks _ _ _ Hs) in Hc. congruence.
Qed.

Lemma delete_loop_deletes gh_repo remote prot tags' result w :
  wp (delete_loop gh_repo remote prot tags' result) w
    (λ result' w',
       steps (deletes prot) w w' ∧
       renamed_tags result' = renamed_tags result ∧
       (∀ m, m ∈ errors result → m ∈ errors result') ∧
       (∃ ds, deleted_tags result' = deleted_tags result ++ ds ∧
          Forall (λ t, (t ∉ prot) ∧ classify_tag t = DELETE ∧
                       is_Some (local_tags w !! t) ∧ local_tags w' !! t = None) ds ∧
          ∀ x, x ∈ releases w → x ∉ releases w' →
               ∃ repo, truthy gh_repo = Some repo ∧ x.1 = repo ∧ x.2 ∈ ds) ∧
       Forall (λ t, t ∈ prot ∨ classify_tag t = RENAME ∨
                    local_tags w' !! t = None ∨
                    ∃ e, ("Failed to delete local tag " +:+ t +:+ ": " +:+ e)
                           ∈ errors result') tags')
    (λ _ _, False).
Proof.
  revert result w. induction tags' as [|tag rest IH]; intros result w; simpl.
  - apply wp_ret. split_and!; try done; [apply steps_refl|].
    exists []. rewrite app_nil_r. split_and!; try done.
  - apply wp_bind.
    eapply wp_mono; [apply (delete_step_deletes _ _ _ _ _ w), steps_refl| |done].
    intros result1 w1 (Hs1 & Hren1 & Herr1 & Hcase).
    eapply wp_mono; [apply IH| |done].
    intros result2 w2 (Hs2 & Hren2 & Herr2 & (ds & Hds & Hall & Hrel) & Hrest).
    cbn beta.
    assert (Forall (λ t, (t ∉ prot) ∧ classify_tag t = DELETE ∧
                         is_Some (local_tags w !! t) ∧ local_tags w2 !! t = None) ds)
      as Hall'.
    { eapply Forall_impl; [exact Hall|]. intros t (? & ? & [c Hc] & ?).
      split_and!; try done. exists c. by eapply deletes_only_shrinks. }
    split_and!.
    + by eapply steps_trans.
    + congruence.
    + auto.
    + destruct Hcase as [(Hdel & Hr & _)|(Hdel & Hnot & Hclass & Hthere & Hgone & Hr)].
      * exists ds. split_and!; [congruence|done|].
        intros x Hx Hnx. rewrite <- Hr in Hx. by apply Hrel.
      * exists (tag :: ds). split_and!.
        -- rewrite Hds, Hdel, <- app_assoc. done.
        -- constructor; [|done]. split_and!; try done.
           by eapply deletes_stays_gone.
        -- intros x Hx Hnx. destruct (decide (x ∈ releases w1)) as [Hx1|Hx1].
           ++ destruct (Hrel x Hx1 Hnx) as (repo & ? & ? & ?). exists repo.
              split_and!; try done. by right.
           ++ destruct (Hr x Hx Hx1) as (repo & ? & ->). exists repo.
              split_and!; try done. by left.
    + constructor; [|done].
      destruct Hcase as [(_ & _ & [?|[?|[e He]]])|(_ & _ & _ & _ & Hgone & _)];
        [by left|by right; left|..].
      * right. right. right. exists e. by apply Herr2.
      * right. right. left. by eapply deletes_stays_gone.
Qed.

Lemma delete_phase_deletes gh_repo remote prot result w (E : string → World → Prop) :
  (∀ e w', steps (deletes prot) w w' → E e w') →
  wp (delete_phase gh_repo remote prot result) w
    (λ result' w',
       steps (deletes prot) w w' ∧
       renamed_tags result' = renamed_tags result ∧
       (∀ m, m ∈ errors result → m ∈ errors result') ∧
       (∃ ds, deleted_tags result' = deleted_tags result ++ ds ∧
          Forall (λ t, (t ∉ prot) ∧ classify_tag t = DELETE ∧
                       is_Some (local_tags w !! t) ∧ local_tags w' !! t = None) ds ∧
          ∀ x, x ∈ releases w → x ∉ releases w' →
               ∃ repo, truthy gh_repo = Some repo ∧ x.1 = repo ∧ x.2 ∈ ds) ∧
       ∀ t, refname t → is_Some (local_tags w' !! t) →
            t ∈ prot ∨ classify_tag t = RENAME ∨
            ∃ e, ("Failed to delete local tag " +:+ t +:+ ": " +:+ e) ∈ errors result')
    E.
Proof.
  intros HE. unfold delete_phase.
  apply wp_bind, (steps_list_tags (deletes prot) w); [done|apply steps_refl| |done].
  intros w1 Hs1 Hrefs1.
  assert (local_tags w1 = local_tags w) as Hl1 by (by injection Hrefs1).
  assert (releases w1 = releases w) as Hr1 by (by injection Hrefs1).
  eapply wp_mono; [apply delete_loop_deletes| |done].
  intros result' w' (Hs' & Hren & Herr & (ds & Hds & Hall & Hrel) & Hlist). cbn beta.
  pose proof (steps_trans _ _ _ _ Hs1 Hs') as Hs.
  split_and!; try done.
  - exists ds. split_and!; try done.
    + eapply Forall_impl; [exact Hall|]. intros t (? & ? & ? & ?).
      split_and!; try done. by rewrite <- Hl1.
    + intros x Hx. apply Hrel. by rewrite Hr1.
  - intros t Hname [c Hc].
    assert (t ∈ tag_listing w) as Hin.
    { apply tag_listing_present; [done|]. exists c. by eapply deletes_only_shrinks. }
    destruct (proj1 (Forall_forall _ _) Hlist t Hin) as [?|[?|[Hnone|?]]]; auto.
    congruence.
Qed.

(** ** Whole runs: what happens to the tags *)

Lemma wp_world_of {A} (m : M A) w (P : World → Prop) :
  wp m w (λ _, P) (λ _, P) → P (world_of (m w)).
Proof. unfold wp. by destruct (m w). Qed.

Lemma execute_walk gh_repo remote w :
  wp (execute gh_repo remote) w
    (λ result w',
       ∃ st w1,
         renamed_until w st w1 ∧
         steps (deletes st.2) w1 w' ∧
         renamed_tags result = renamed_tags st.1 ∧
         Forall (λ t, (t ∉ st.2) ∧ classify_tag t = DELETE ∧
                      is_Some (local_tags w1 !! t) ∧ local_tags w' !! t = None)
                (deleted_tags result) ∧
         (∀ x, x ∈ releases w1 → x ∉ releases w' →
               ∃ repo, truthy gh_repo = Some repo ∧ x.1 = repo ∧
                       x.2 ∈ deleted_tags result) ∧
         ∀ t, refname t → is_Some (local_tags w' !! t) →
              t ∈ st.2 ∨ classify_tag t = RENAME ∨
              ∃ e, ("Failed to delete local tag " +:+ t +:+ ": " +:+ e) ∈ errors result)
    (λ _ w',
       steps renames w w' ∨
       ∃ st w1, renamed_until w st w1 ∧ steps (deletes st.2) w1 w').
Proof.
  unfold execute, plan.
  apply wp_bind, wp_bind, (steps_list_tags renames w); [done|apply steps_refl| |by left].
  intros w0 Hs0 Hrefs0. apply wp_ret.
  assert (local_tags w0 = local_tags w) as Hl0 by (by injection Hrefs0).
  destruct (plan_entries (tag_listing w)) as [Hall _]. cbn zeta in Hall.
  apply wp_bind. eapply wp_mono.
  - apply (rename_phase_renames remote _ (ExecuteResult0, ∅) w w0); [done|done|].
    split; [by intros t Ht%not_elem_of_empty|by intros n Hn%not_elem_of_nil].
  - intros st w1 (Hs1 & Hdel1 & _ & Hprot1 & Hgone1).
    assert (renamed_until w st w1) as Hphase1.
    { split_and!; try done. intros t Ht. apply Hgone1. by rewrite Hl0. }
    eapply wp_mono; [apply delete_phase_deletes| |].
    + intros e w' Hs'. exact Hs'.
    + intros result w' (Hs' & Hren & Herr & (ds & Hds & Hforall & Hrel) & Hsurv).
      cbn beta. exists st, w1. rewrite Hdel1 in Hds. simpl in Hds. subst ds.
      split_and!; try done.
    + intros e w' Hs'. cbn beta in *. right. by exists st, w1.
  - intros e w' Hs'. by left.
Qed.

Lemma renamed_until_commit w st w1 old c :
  renamed_until w st w1 →
  startswith old NWAVE_PREFIX = true → local_tags w !! old = Some c →
  local_tags w1 !! old = Some c ∨
  rename_target old ∈ st.2 ∧
  ∃ c', local_tags w1 !! rename_target old = Some c' ∧ strip c' = strip c.
Proof.
  intros (Hs & _ & _ & Hgone) Hold Hc.
  destruct (local_tags w1 !! old) as [c2|] eqn:Hlook.
  - left. destruct (renames_moves_nothing _ _ Hs _ _ Hlook)
      as [?|(old' & ? & ? & Heq & _)]; [congruence|].
    by destruct (legacy_not_target _ _ Hold Heq).
  - right. split; [apply Hgone; [by exists c|done]|].
    destruct (renames_keeps_commits _ _ Hs _ _ Hold Hc) as [?|?]; [congruence|done].
Qed.

(** X10: no run of [execute] loses the commit of a legacy tag.  When the run is
    over, returned or raised, a legacy tag of the start is still on its
    commit, or its rename target is there on the same commit (compared, as the
    code does, after stripping white space). *)
Theorem execute_keeps_every_legacy_commit gh_repo remote w old c :
  startswith old NWAVE_PREFIX = true →
  local_tags w !! old = Some c →
  local_tags (world_of (execute gh_repo remote w)) !! old = Some c ∨
  ∃ c', local_tags (world_of (execute gh_repo remote w)) !! rename_target old = Some c' ∧
        strip c' = strip c.
Proof.
  intros Hold Hc.
  apply (wp_world_of (execute gh_repo remote) w
           (λ w', local_tags w' !! old = Some c ∨
                  ∃ c', local_tags w' !! rename_target old = Some c' ∧
                        strip c' = strip c)).
  assert (∀ st w1 w', renamed_until w st w1 → steps (deletes st.2) w1 w' →
            local_tags w' !! old = Some c ∨
            ∃ c', local_tags w' !! rename_target old = Some c' ∧ strip c' = strip c)
    as Hafter.
  { intros st w1 w' Hphase1 Hs'.
    destruct (renamed_until_commit _ _ _ _ _ Hphase1 Hold Hc) as [H1|(Hin & c' & H1 & Heq)].
    - left. rewrite (deletes_spares _ _ _ old Hs'); [done|].
      right. by apply classify_tag_RENAME.
    - right. exists c'. split; [|done].
      rewrite (deletes_spares _ _ _ (rename_target old) Hs'); [done|by left]. }
  eapply wp_mono; [apply execute_walk|..]; cbn beta.
  - intros result w' (st & w1 & Hphase1 & Hs' & _). by eapply Hafter.
  - intros e w' [Hs|(st & w1 & Hphase1 & Hs')]; [|by eapply Hafter].
    by apply (renames_keeps_commits _ _ Hs).
Qed.

Lemma execute_keeps_every_legacy_commit_witness :
  local_tags (world_of (execute None None create_fault_repo)) !! "nWave_v1.1.21"
    = Some commit0 ∨
  ∃ c', local_tags (world_of (execute None None create_fault_repo))
          !! rename_target "nWave_v1.1.21" = Some c' ∧
        strip c' = strip commit0.
Proof.
  apply (execute_keeps_every_legacy_commit None None create_fault_repo
           "nWave_v1.1.21" commit0);
    vm_compute; reflexivity.
Defined.

(** X11: [execute] never moves a tag.  A tag that is there when the run is over,
    returned or raised, was there at the start on the same commit, or is the
    rename target of a legacy tag of the start and sits on the (stripped)
    commit of that tag. *)
Theorem execute_never_moves_a_tag gh_repo remote w t c :
  local_tags (world_of (execute gh_repo remote w)) !! t = Some c →
  local_tags w !! t = Some c ∨
  ∃ old c_old, startswith old NWAVE_PREFIX = true ∧ t = rename_target old ∧
               local_tags w !! old = Some c_old ∧ c = strip c_old.
Proof.
  revert t c.
  apply (wp_world_of (execute gh_repo remote) w
           (λ w', ∀ t c, local_tags w' !! t = Some c →
                    local_tags w !! t = Some c ∨
                    ∃ old c_old, startswith old NWAVE_PREFIX = true ∧
                                 t = rename_target old ∧
                                 local_tags w !! old = Some c_old ∧ c = strip c_old)).
  assert (∀ st w1 w', renamed_until w st w1 → steps (deletes st.2) w1 w' →
            ∀ t c, local_tags w' !! t = Some c →
              local_tags w !! t = Some c ∨
              ∃ old c_old, startswith old NWAVE_PREFIX = true ∧ t = rename_target old ∧
                           local_tags w !! old = Some c_old ∧ c = strip c_old)
    as Hafter.
  { intros st w1 w' (Hs & _) Hs' t c Hc.
    apply (deletes_only_shrinks _ _ _ Hs') in Hc.
    by apply (renames_moves_nothing _ _ Hs). }
  eapply wp_mono; [apply execute_walk|..]; cbn beta.
  - intros result w' (st & w1 & Hphase1 & Hs' & _). by eapply Hafter.
  - intros e w' [Hs|(st & w1 & Hphase1 & Hs')]; [|by eapply Hafter].
    by apply (renames_moves_nothing _ _ Hs).
Qed.

Lemma execute_never_moves_a_tag_witness :
  local_tags conflict_same_commit_repo !! "v1.1.21" = Some commit0 ∨
  ∃ old c_old, startswith old NWAVE_PREFIX = true ∧ "v1.1.21" = rename_target old ∧
               local_tags conflict_same_commit_repo !! old = Some c_old ∧
               commit0 = strip c_old.
Proof.
  apply (execute_never_moves_a_tag None None conflict_same_commit_repo
           "v1.1.21" commit0).
  vm_compute. reflexivity.
Defined.

Lemma renames_releases w0 w : steps renames w0 w → releases w = releases w0.
Proof.
  intros Hs. apply reach_releases. eapply steps_reach; [|exact Hs].
  intros w' [] r; try done; by intros _ [].
Qed.

(** X12: when [execute] returns, every tag in [deleted_tags] is classified
    [DELETE] and is gone from the local tags; no hosted release has been
    added, and a release that is gone is one of [gh_repo] for a tag in
    [deleted_tags]. *)
Theorem execute_reports_real_deletions gh_repo remote w result w' :
  execute gh_repo remote w = Return result w' →
  Forall (λ t, classify_tag t = DELETE ∧ local_tags w' !! t = None)
         (deleted_tags result) ∧
  (∀ x, x ∈ releases w' → x ∈ releases w) ∧
  (∀ x, x ∈ releases w → x ∉ releases w' →
        truthy gh_repo = Some x.1 ∧ x.2 ∈ deleted_tags result).
Proof.
  intros Hrun. pose proof (execute_walk gh_repo remote w) as Hwalk.
  apply (wp_Return _ _ _ _ _ _ Hwalk) in Hrun
    as (st & w1 & (Hs & _) & Hs' & _ & Hall & Hrel & _).
  pose proof (renames_releases _ _ Hs) as Hr1.
  split_and!.
  - eapply Forall_impl; [exact Hall|]. by intros t (_ & ? & _ & ?).
  - intros x Hx. rewrite <- Hr1. by eapply deletes_releases.
  - intros x Hx Hnx. rewrite <- Hr1 in Hx.
    destruct (Hrel x Hx Hnx) as (repo & ? & <- & ?). done.
Qed.

Lemma execute_reports_real_deletions_witness :
  let run := execute (Some "owner/repo") (Some "origin") temp_git_repo_with_remote in
  deleted_tags (value_of ExecuteResult0 run)
    = ["v1.4.8"; "v2.17.0"; "v2.17.1"; "v2.17.2"] ∧
  Forall (λ t, classify_tag t = DELETE ∧ local_tags (world_of run) !! t = None)
         (deleted_tags (value_of ExecuteResult0 run)) ∧
  (∀ x, x ∈ releases (world_of run) → x ∈ releases temp_git_repo_with_remote) ∧
  (∀ x, x ∈ releases temp_git_repo_with_remote → x ∉ releases (world_of run) →
        truthy (Some "owner/repo") = Some x.1 ∧
        x.2 ∈ deleted_tags (value_of ExecuteResult0 run)).
Proof.
  intros run. split; [vm_compute; reflexivity|].
  apply (execute_reports_real_deletions (Some "owner/repo") (Some "origin")
           temp_git_repo_with_remote).
  vm_compute. reflexivity.
Defined.

(** X13: when [execute] returns, every local tag that is left and whose name
    holds no white space has the legacy prefix, or is the target of a rename
    recorded in [renamed_tags], or has the failure of its local deletion
    recorded in [errors]. *)
Theorem execute_survivors_are_accounted_for gh_repo remote w result w' :
  execute gh_repo remote w = Return result w' →
  ∀ t, spaceless t = true → t ≠ "" → is_Some (local_tags w' !! t) →
    classify_tag t = RENAME ∨
    (∃ old note, startswith old NWAVE_PREFIX = true ∧ t = rename_target old ∧
                 renamed_as old t note ∧ note ∈ renamed_tags result) ∨
    (∃ e, ("Failed to delete local tag " +:+ t +:+ ": " +:+ e) ∈ errors result).
Proof.
  intros Hrun t Hspace Hne Hthere.
  pose proof (spaceless_refname t Hspace Hne) as Hname.
  pose proof (execute_walk gh_repo remote w) as Hwalk.
  apply (wp_Return _ _ _ _ _ _ Hwalk) in Hrun
    as (st & w1 & (_ & _ & [Hprot _] & _) & _ & Hren & _ & _ & Hsurv).
  destruct (Hsurv t Hname Hthere) as [Hin|[?|?]]; [|by left|by right; right].
  right. left. destruct (Hprot t Hin) as (_ & old & note & ? & ? & ? & ?).
  exists old, note. by rewrite Hren.
Qed.

Lemma execute_survivors_are_accounted_for_witness :
  let run := execute None None delete_fault_repo in
  is_Some (local_tags (world_of run) !! "v2.17.0") ∧
  (classify_tag "v2.17.0" = RENAME ∨
   (∃ old note, startswith old NWAVE_PREFIX = true ∧ "v2.17.0" = rename_target old ∧
                renamed_as old "v2.17.0" note ∧
                note ∈ renamed_tags (value_of ExecuteResult0 run)) ∨
   (∃ e, ("Failed to delete local tag " +:+ "v2.17.0" +:+ ": " +:+ e)
           ∈ errors (value_of ExecuteResult0 run))).
Proof.
  intros run.
  assert (is_Some (local_tags (world_of run) !! "v2.17.0")) as Hthere.
  { exists commit0. vm_compute. reflexivity. }
  split; [exact Hthere|].
  apply (execute_survivors_are_accounted_for None None delete_fault_repo
           (value_of ExecuteResult0 run) (world_of run)).
  - vm_compute. reflexivity.
  - reflexivity.
  - discriminate.
  - exact Hthere.
Defined.

(** X14: when [execute] returns, every entry of [renamed_tags] is the note
    [old -> target], plain or marked as a resolved conflict, of a legacy tag
    [old], and the target is among the local tags at the end. *)
Theorem execute_renames_are_real gh_repo remote w result w' :
  execute gh_repo remote w = Return result w' →
  Forall (λ note, ∃ old, startswith old NWAVE_PREFIX = true ∧
                         renamed_as old (rename_target old) note ∧
                         is_Some (local_tags w' !! rename_target old))
         (renamed_tags result).
Proof.
  intros Hrun. pose proof (execute_walk gh_repo remote w) as Hwalk.
  apply (wp_Return _ _ _ _ _ _ Hwalk) in Hrun
    as (st & w1 & (_ & _ & [Hprot Hnotes] & _) & Hs' & Hren & _).
  apply Forall_forall. intros note Hnote. rewrite Hren in Hnote.
  destruct (Hnotes note Hnote) as (old & Hold & Has & Hin). exists old.
  split_and!; try done.
  rewrite (deletes_spares _ _ _ _ Hs'); [|by left]. by apply Hprot.
Qed.

Lemma execute_renames_are_real_witness :
  let run := execute None None temp_git_repo in
  renamed_tags (value_of ExecuteResult0 run)
    = ["nWave_v1.1.20 -> v1.1.20"; "nWave_v1.1.21 -> v1.1.21"] ∧
  Forall (λ note, ∃ old, startswith old NWAVE_PREFIX = true ∧
                         renamed_as old (rename_target old) note ∧
                         is_Some (local_tags (world_of run) !! rename_target old))
         (renamed_tags (value_of ExecuteResult0 run)).
Proof.
  intros run. split; [vm_compute; reflexivity|].
  apply (execute_renames_are_real None None temp_git_repo). vm_compute. reflexivity.
Defined.

(** ** The helpers that catch their own failures *)

Lemma try_run_git_eval c w :
  ∃ r w', invoke c w = (r, w') ∧
    try_ (_run_git c) w
    = Return match r with Exit0 out => inl out | ExitFail e => inr e end w'.
Proof.
  destruct (invoke c w) as [r w'] eqn:Hinv. exists r, w'. split; [done|].
  unfold try_, _run_git, subprocess_run. rewrite Hinv. by destruct r.
Qed.



(** X16: [_delete_gh_release] makes one [gh release delete] invocation and
    returns [None] however it ended; it changes no tag, locally or on a
    remote; the release of the repository and tag is gone when the invocation
    succeeded, and the releases are as they were when it failed. *)
Theorem delete_gh_release_never_fails repo tag w :
  ∃ r w',
    _delete_gh_release repo tag w = Return tt w' ∧
    since w w' = [(ReleaseDelete repo tag, r)] ∧
    local_tags w' = local_tags w ∧ remotes w' = remotes w ∧
    releases w' = match r with
                  | Exit0 _ => releases w ∖ {[(repo, tag)]}
                  | ExitFail _ => releases w
                  end.
Proof.
  destruct (try_run_git_eval (ReleaseDelete repo tag) w) as (r & w' & Hinv & Heval).
  exists r, w'. unfold _delete_gh_release.
  change (subprocess_run (ReleaseDelete repo tag)) with (_run_git (ReleaseDelete repo tag)).
  rewrite (bind_Return _ _ _ _ _ Heval).
  destruct (invoke_ReleaseDelete _ _ _ _ _ Hinv) as (? & ? & ?).
  split_and!; try done; [by apply since_invoke|by destruct r].
Qed.

(** ** Invocations that meet no fault *)

Lemma try_run_git_calm n c w :
  calm (S n) w →
  try_ (_run_git c) w
  = Return match (perform c w).1 with Exit0 out => inl out | ExitFail e => inr e end
           (log c (perform c w).1 (perform c w).2).
Proof.
  intros H%calm_now. unfold try_, _run_git, subprocess_run.
  rewrite (invoke_calm _ _ H). by destruct (perform c w).1.
Qed.

Lemma calm_perform n c w : calm n w → calm n (perform c w).2.
Proof.
  intros H k Hk. rewrite perform_faults, perform_history. by apply H.
Qed.

Lemma calm_step n c r w : calm (S n) w → calm n (log c r (perform c w).2).
Proof. intros H. apply calm_log, calm_perform, H. Qed.

Lemma since_log w c r : since w (log c r w) = [(c, r)].
Proof. unfold since. simpl. by rewrite drop_app_length. Qed.

(** X17: without a remote, an entry whose target is not there and whose four
    invocations meet no fault is renamed.  The loop goes on with the rename
    [old -> new] recorded and counted, [new] protected and no error added;
    [new] is on the stripped commit of [old] and [old] is gone, nothing else
    has changed, and the invocations were: list, resolve, create, delete. *)
Theorem rename_entry_moves_tag remote old new rest result prot w c_old :
  truthy remote = None →
  refnames w →
  local_tags w !! old = Some c_old →
  local_tags w !! new = None →
  calm 4 w →
  ∃ w',
    rename_phase remote (mkRenameEntry old new :: rest) (result, prot) w
      = rename_phase remote rest
          (add_renamed result (old +:+ " -> " +:+ new), {[new]} ∪ prot) w' ∧
    local_tags w' = delete old (<[new := strip c_old]> (local_tags w)) ∧
    local_tags w' !! new = Some (strip c_old) ∧
    local_tags w' !! old = None ∧
    remotes w' = remotes w ∧ releases w' = releases w ∧ faults w' = faults w ∧
    (since w w').*1
      = [TagList; RevList old; TagCreate new (strip c_old); TagDelete old].
Proof.
  intros Hremote Hw Hold Hnew Hcalm.
  assert (old ≠ new) as Hne by congruence.
  set (w1 := log TagList (Exit0 (map_to_list (local_tags w)).*1) w).
  set (w2 := log (RevList old) (Exit0 [c_old]) w1).
  assert (calm 3 w1) as Hcalm1 by apply calm_log, Hcalm.
  assert (calm 2 w2) as Hcalm2 by apply calm_log, Hcalm1.
  assert (perform (TagCreate new (strip c_old)) w2
          = (Exit0 [], mkWorld (<[new := strip c_old]> (local_tags w)) (remotes w)
                               (releases w) (faults w) (history w2))) as Hp3.
  { simpl. by rewrite Hnew. }
  set (w3 := log (TagCreate new (strip c_old)) (perform (TagCreate new (strip c_old)) w2).1 (perform (TagCreate new (strip c_old)) w2).2).
  assert (calm 1 w3) as Hcalm3 by apply calm_step, Hcalm2.
  assert (perform (TagDelete old) w3
          = (Exit0 ["Deleted tag '" +:+ old +:+ "' (was " +:+ c_old +:+ ")"],
             mkWorld (delete old (<[new := strip c_old]> (local_tags w))) (remotes w)
                     (releases w) (faults w) (history w3))) as Hp4.
  { unfold w3. rewrite Hp3. simpl. rewrite lookup_insert_ne by done. by rewrite Hold. }
  set (w4 := log (TagDelete old) (perform (TagDelete old) w3).1
                 (perform (TagDelete old) w3).2).
  exists w4. split.
  { cbn [rename_phase]. unfold rename_step. cbn [old_name new_name]. unfold bind.
    rewrite (list_tags_calm _ w Hcalm).
    rewrite decide_False by (by apply tag_listing_absent). fold w1.
    rewrite (get_tag_commit_calm _ _ old c_old Hcalm1 Hold). fold w2. rewrite (try_run_git_calm _ (TagCreate new (strip c_old)) w2 Hcalm2). fold w3.
    rewrite Hp3. cbn [fst]. rewrite Hremote. unfold ret at 1.
    unfold _delete_tag_local, bind.
    rewrite (try_run_git_calm _ (TagDelete old) w3 Hcalm3). fold w4.
    rewrite Hp4. cbn [fst]. reflexivity. }
  unfold w4. rewrite Hp4. cbn [fst snd log local_tags remotes releases faults].
  split_and!; try done.
  - rewrite lookup_delete_ne by done. by rewrite lookup_insert_eq.
  - by rewrite lookup_delete_eq.
  - assert (history w3
            = history w ++ [(TagList, Exit0 (map_to_list (local_tags w)).*1);
                            (RevList old, Exit0 [c_old]);
                            (TagCreate new (strip c_old), Exit0 [])]) as Hh3.
    { unfold w3. cbn [log history]. rewrite perform_history, Hp3.
      unfold w2, w1. cbn [log history fst]. by rewrite <- !app_assoc. }
    unfold since. cbn [log history]. rewrite Hh3, <- app_assoc, drop_app_length.
    done.
Qed.

Lemma rename_entry_moves_tag_witness :
  ∃ w',
    rename_phase None [mkRenameEntry "nWave_v1.1.21" "v1.1.21"] (ExecuteResult0, ∅)
                 (world_of (plan temp_git_repo))
      = Return (add_renamed ExecuteResult0 "nWave_v1.1.21 -> v1.1.21", {["v1.1.21"]} ∪ ∅)
               w' ∧
    local_tags w' !! "v1.1.21" = Some commit0 ∧
    local_tags w' !! "nWave_v1.1.21" = None ∧
    (since (world_of (plan temp_git_repo)) w').*1
      = [TagList; RevList "nWave_v1.1.21"; TagCreate "v1.1.21" commit0;
         TagDelete "nWave_v1.1.21"].
Proof.
  destruct (rename_entry_moves_tag None "nWave_v1.1.21" "v1.1.21" []
              ExecuteResult0 ∅ (world_of (plan temp_git_repo)) commit0)
    as (w' & Hrun & _ & Hnew & Hold & _ & _ & _ & Hsince).
  - reflexivity.
  - apply (refnames_list_to_map
             ((λ n, (n, commit0)) <$>
                ["v2.17.0"; "v2.17.1"; "v2.17.2"; "v2.17.3"; "v2.17.4"; "v2.17.5";
                 "v2.17.6"; "nWave_v1.1.21"; "nWave_v1.1.20"; "v1.4.8"]));
      [reflexivity|].
    repeat constructor; try discriminate.
  - vm_compute. reflexivity.
  - vm_compute. reflexivity.
  - intros k Hk. reflexivity.
  - exists w'. split_and!; [exact Hrun|exact Hnew|exact Hold|exact Hsince].
Defined.

(** ** The invocations of one entry, and of one tag *)

Lemma trail_nil w : trail w [] w.
Proof. unfold trail. by rewrite app_nil_r. Qed.

Lemma trail_snoc w l w' c r w'' :
  trail w l w' → invoke c w' = (r, w'') → trail w (l ++ [(c, r)]) w''.
Proof.
  unfold trail. intros Hl Hinv%invoke_history. by rewrite Hinv, Hl, app_assoc.
Qed.

Lemma trail_since w l w' : trail w l w' → since w w' = l.
Proof. unfold trail, since. intros ->. by rewrite drop_app_length. Qed.

Lemma trail_try w0 l w c (Q : list string + string → World → Prop) E :
  trail w0 l w →
  (∀ r w', trail w0 (l ++ [(c, r)]) w' → invoke c w = (r, w') →
     Q (match r with Exit0 out => inl out | ExitFail e => inr e end) w') →
  wp (try_ (_run_git c)) w Q E.
Proof.
  intros Hl HQ. apply wp_try, wp_subprocess_run. intros r w' Hinv.
  specialize (HQ r w' (trail_snoc _ _ _ _ _ _ Hl Hinv) Hinv). by destruct r.
Qed.

Lemma trail_read {A} w0 l w c (f : list string → A) (Q : A → World → Prop) :
  trail w0 l w →
  (∀ out w', trail w0 (l ++ [(c, Exit0 out)]) w' → Q (f out) w') →
  wp (stdout <- _run_git c ;; ret (f stdout)) w Q (λ _ _, True).
Proof.
  intros Hl HQ. apply wp_bind, wp_subprocess_run. intros [out|e] w' Hinv; [|done].
  apply wp_ret, HQ. by eapply trail_snoc.
Qed.

Lemma trail_delete_tag_local w0 l w tag result
    (Q : bool * ExecuteResult → World → Prop) E :
  trail w0 l w →
  (∀ r w', trail w0 (l ++ [(TagDelete tag, r)]) w' →
     invoke (TagDelete tag) w = (r, w') →
     Q (match r with
        | Exit0 _ => (true, result)
        | ExitFail e =>
            (false, add_error result ("Failed to delete local tag " +:+ tag +:+ ": " +:+ e))
        end) w') →
  wp (_delete_tag_local tag result) w Q E.
Proof.
  intros Hl HQ. unfold _delete_tag_local. apply wp_bind, (trail_try w0 l); [done|].
  intros r w' Hl' Hinv. specialize (HQ r w' Hl' Hinv). by destruct r.
Qed.

Lemma trail_delete_tag_remote_if w0 l w tag remote (d : bool * ExecuteResult)
    (Q : bool * ExecuteResult → World → Prop) E :
  trail w0 l w →
  (∀ l' d' w', trail w0 (l ++ l') w' →
     match truthy remote with
     | Some rem => ∃ r, l' = [(PushDelete rem tag, r)]
     | None => l' = []
     end →
     renamed_tags d'.2 = renamed_tags d.2 →
     renamed_count d'.2 = renamed_count d.2 →
     deleted_tags d'.2 = deleted_tags d.2 →
     deleted_count d'.2 = deleted_count d.2 →
     (∃ more, errors d'.2 = errors d.2 ++ more) →
     Q d' w') →
  wp (match truthy remote with
      | Some remote => _delete_tag_remote tag remote d.2
      | None => ret d
      end) w Q E.
Proof.
  intros Hl HQ. destruct (truthy remote) as [rem|].
  - unfold _delete_tag_remote. apply wp_bind, (trail_try w0 l); [done|].
    intros r w' Hl' Hinv.
    destruct r; apply wp_ret; eapply (HQ [_]); try done; try by eexists.
    exists []. by rewrite app_nil_r.
  - apply wp_ret. apply (HQ []); try done; [by rewrite app_nil_r|].
    exists []. by rewrite app_nil_r.
Qed.

Ltac in_trail H :=
  repeat first
    [ apply elem_of_app in H as [H|H]
    | apply elem_of_cons in H as [H|H]
    | apply elem_of_nil in H; destruct H ];
  simplify_eq.

Lemma rename_step_trail remote entry result prot w :
  wp (rename_step remote entry (result, prot)) w
    (λ st' w',
       (∃ commit out, (TagCreate (new_name entry) commit, Exit0 out) ∈ since w w') →
       st'.2 = {[new_name entry]} ∪ prot ∧
       renamed_tags st'.1
         = renamed_tags result ++ [old_name entry +:+ " -> " +:+ new_name entry] ∧
       renamed_count st'.1 = renamed_count result + 1 ∧
       (∃ r, (TagDelete (old_name entry), r) ∈ since w w') ∧
       (∀ rem, truthy remote = Some rem →
          ∃ r r', (PushTag rem (new_name entry), r) ∈ since w w' ∧
                  (PushDelete rem (old_name entry), r') ∈ since w w'))
    (λ _ _, True).
Proof.
  destruct entry as [old new]. cbn [old_name new_name].
  unfold rename_step. cbn [old_name new_name].
  apply wp_bind. unfold _list_tags. eapply (trail_read w []); [apply trail_nil|].
  intros out0 w1 Hl1. simpl app in Hl1.
  destruct (decide _) as [Hin|Hnotin].
  - apply wp_bind. unfold _get_tag_commit. eapply (trail_read w); [exact Hl1|].
    intros out1 w2 Hl2. apply wp_bind. eapply (trail_read w); [exact Hl2|].
    intros out2 w3 Hl3. simpl app in Hl3. destruct (decide _) as [Heq|Hne].
    + apply wp_bind; eapply (trail_delete_tag_local w); [exact Hl3|].
      intros r4 w4 Hl4 _.
      apply wp_bind; eapply (trail_delete_tag_remote_if w); [exact Hl4|].
      intros l' d' w5 Hl5 Hl' _ _ _ _ _. apply wp_ret.
      intros (commit & out & Hc). rewrite (trail_since _ _ _ Hl5) in Hc.
      destruct (truthy remote); [destruct Hl' as [r' ->]|subst l']; in_trail Hc.
    + apply wp_ret. intros (commit & out & Hc).
      rewrite (trail_since _ _ _ Hl3) in Hc. in_trail Hc.
  - apply wp_bind. unfold _get_tag_commit. eapply (trail_read w); [exact Hl1|].
    intros out1 w2 Hl2. simpl app in Hl2.
    apply wp_bind; eapply (trail_try w); [exact Hl2|].
    intros r3 w3 Hl3 _. simpl app in Hl3. destruct r3 as [out3|err3].
    + apply wp_bind.
      match goal with Hl : trail w ?l w3 |- wp ?m w3 _ _ =>
        assert (wp m w3 (λ result' w4,
                  ∃ l', trail w (l ++ l') w4 ∧
                    match truthy remote with
                    | Some rem => ∃ r, l' = [(PushTag rem new, r)]
                    | None => l' = []
                    end ∧
                    renamed_tags result' = renamed_tags result ∧
                    renamed_count result' = renamed_count result)
                  (λ _ _, True)) as Hpush
      end.
      { destruct (truthy remote) as [rem|].
        - apply wp_bind; eapply (trail_try w); [exact Hl3|].
          intros r w4 Hl4 _. destruct r; apply wp_ret; eexists [_];
            (split; [exact Hl4|split; [by eexists|done]]).
        - apply wp_ret. exists []. rewrite app_nil_r. done. }
      eapply wp_mono; [exact Hpush| |done]. clear Hpush.
      intros result' w4 (l4 & Hl4 & Hpushed & Hren4 & Hcount4). cbn beta.
      apply wp_bind; eapply (trail_delete_tag_local w); [exact Hl4|].
      intros r5 w5 Hl5 _.
      apply wp_bind; eapply (trail_delete_tag_remote_if w); [exact Hl5|].
      intros l6 d' w6 Hl6 Hdeleted Hren6 Hcount6 _ _ _. apply wp_ret.
      intros _. rewrite (trail_since _ _ _ Hl6). cbn [fst snd].
      split_and!.
      * done.
      * simpl. rewrite Hren6, <- Hren4. by destruct r5.
      * simpl. rewrite Hcount6, <- Hcount4. by destruct r5.
      * exists r5. apply elem_of_app. left. apply elem_of_app. right. by left.
      * intros rem Hrem. rewrite Hrem in Hpushed, Hdeleted.
        destruct Hpushed as [r ->]. destruct Hdeleted as [r' ->]. exists r, r'.
        split.
        -- apply elem_of_app. left. apply elem_of_app. left.
           apply elem_of_app. right. by left.
        -- apply elem_of_app. right. by left.
    + apply wp_ret. intros (commit & out & Hc).
      rewrite (trail_since _ _ _ Hl3) in Hc. in_trail Hc.
Qed.

(** X18: once the creation of its target has succeeded, an entry is always
    completed, whatever the push and the two deletions do: the deletion of the
    old tag is invoked, with a remote so are the push of the target and the
    remote deletion of the old tag, the target is protected, and the rename is
    recorded and counted. *)
Theorem rename_step_completes_after_create remote entry result prot w st' w' :
  rename_step remote entry (result, prot) w = Return st' w' →
  (∃ commit out, (TagCreate (new_name entry) commit, Exit0 out) ∈ since w w') →
  st'.2 = {[new_name entry]} ∪ prot ∧
  renamed_tags st'.1
    = renamed_tags result ++ [old_name entry +:+ " -> " +:+ new_name entry] ∧
  renamed_count st'.1 = renamed_count result + 1 ∧
  (∃ r, (TagDelete (old_name entry), r) ∈ since w w') ∧
  (∀ rem, truthy remote = Some rem →
     ∃ r r', (PushTag rem (new_name entry), r) ∈ since w w' ∧
             (PushDelete rem (old_name entry), r') ∈ since w w').
Proof.
  intros Hrun. exact (wp_Return _ _ _ _ _ _ (rename_step_trail _ _ _ _ _) Hrun).
Qed.

Lemma rename_step_completes_after_create_witness :
  let entry := mkRenameEntry "nWave_v1.1.21" "v1.1.21" in
  let run := rename_step (Some "origin") entry (ExecuteResult0, ∅)
               conflict_same_commit_repo in
  let run' := rename_step (Some "origin") entry (ExecuteResult0, ∅)
                (repo_with ["nWave_v1.1.21"]) in
  errors (value_of (ExecuteResult0, ∅) run').1
    = ["Failed to push tag v1.1.21 to remote: fatal: 'origin' does not appear to be a git repository";
       "Failed to delete remote tag nWave_v1.1.21: fatal: 'origin' does not appear to be a git repository"] ∧
  (value_of (ExecuteResult0, ∅) run').2 = {["v1.1.21"]} ∪ ∅ ∧
  renamed_tags (value_of (ExecuteResult0, ∅) run').1
    = renamed_tags ExecuteResult0 ++ ["nWave_v1.1.21" +:+ " -> " +:+ "v1.1.21"] ∧
  renamed_count (value_of (ExecuteResult0, ∅) run').1 = renamed_count ExecuteResult0 + 1 ∧
  (∃ r, (TagDelete "nWave_v1.1.21", r)
          ∈ since (repo_with ["nWave_v1.1.21"]) (world_of run')) ∧
  (∀ rem, truthy (Some "origin") = Some rem →
     ∃ r r', (PushTag rem "v1.1.21", r)
               ∈ since (repo_with ["nWave_v1.1.21"]) (world_of run') ∧
             (PushDelete rem "nWave_v1.1.21", r')
               ∈ since (repo_with ["nWave_v1.1.21"]) (world_of run')).
Proof.
  intros entry run run'. split; [vm_compute; reflexivity|].
  apply (rename_step_completes_after_create (Some "origin") entry ExecuteResult0 ∅
           (repo_with ["nWave_v1.1.21"]) (value_of (ExecuteResult0, ∅) run')
           (world_of run')).
  - vm_compute. reflexivity.
  - exists commit0, []. vm_compute.
    apply list_elem_of_further, list_elem_of_further, list_elem_of_here.
Defined.

Lemma delete_step_trail gh_repo remote prot tag result w :
  wp (delete_step gh_repo remote prot tag result) w
    (λ result' w',
       (since w w' = [] ∧ result' = result ∧ w' = w ∧
        (tag ∈ prot ∨ classify_tag tag = RENAME)) ∨
       (∃ stderr,
          since w w' = [(TagDelete tag, ExitFail stderr)] ∧
          result' = add_error result
                      ("Failed to delete local tag " +:+ tag +:+ ": " +:+ stderr) ∧
          refs_of w' = refs_of w) ∨
       (∃ out l_remote l_release,
          since w w' = (TagDelete tag, Exit0 out) :: l_remote ++ l_release ∧
          match truthy remote with
          | Some rem => ∃ r, l_remote = [(PushDelete rem tag, r)]
          | None => l_remote = []
          end ∧
          match truthy gh_repo with
          | Some repo => ∃ r, l_release = [(ReleaseDelete repo tag, r)]
          | None => l_release = []
          end ∧
          deleted_tags result' = deleted_tags result ++ [tag] ∧
          deleted_count result' = deleted_count result + 1 ∧
          renamed_tags result' = renamed_tags result ∧
          renamed_count result' = renamed_count result ∧
          ∃ more, errors result' = errors result ++ more))
    (λ _ _, False).
Proof.
  unfold delete_step.
  destruct (decide (tag ∈ prot)) as [Hin|Hnot].
  { apply wp_ret. left. split_and!; try done; [|by left].
    apply trail_since, trail_nil. }
  destruct (decide (classify_tag tag = DELETE)) as [Hdel|Hren].
  2:{ apply wp_ret. left. split_and!; try done; [apply trail_since, trail_nil|].
      right. by destruct (classify_tag tag). }
  apply wp_bind; eapply (trail_delete_tag_local w []); [apply trail_nil|].
  intros r1 w1 Hl1 Hinv1. simpl app in Hl1. destruct r1 as [out|stderr]; cbn [fst snd].
  - apply wp_bind; eapply (trail_delete_tag_remote_if w _ w1 _ _ (true, result));
      [exact Hl1|].
    intros l2 d' w2 Hl2 Hremote Hren Hrenc Hdel2 Hdelc Herr. cbn [fst snd] in *.
    destruct (truthy gh_repo) as [repo|].
    + unfold _delete_gh_release. apply wp_bind, wp_bind.
      change (subprocess_run (ReleaseDelete repo tag))
        with (_run_git (ReleaseDelete repo tag)).
      eapply (trail_try w); [exact Hl2|].
      intros r3 w3 Hl3 _. destruct r3; apply wp_ret, wp_ret; right; right;
        eexists out, l2, [(ReleaseDelete repo tag, _)]; split_and!; try done.
      all: try (by rewrite (trail_since _ _ _ Hl3), <- app_assoc).
      all: try (by eexists).
      all: try (by simpl; rewrite Hdel2).
      all: try (by simpl; rewrite Hdelc).
    + apply wp_ret. right. right. exists out, l2, []. split_and!; try done.
      * rewrite (trail_since _ _ _ Hl2). by rewrite app_nil_r.
      * simpl. by rewrite Hdel2.
      * simpl. by rewrite Hdelc.
  - apply wp_ret. right. left. exists stderr. split_and!; try done.
    + by apply trail_since.
    + by eapply invoke_fail_refs.
Qed.

(** X19: in the delete phase, when the local deletion of a tag fails, it is the
    only invocation made for the tag: its error is appended, the tag is not
    recorded or counted as deleted, and no tag and no release has changed. *)
Theorem delete_step_stops_after_local_failure gh_repo remote prot tag result w
    result' w' stderr :
  delete_step gh_repo remote prot tag result w = Return result' w' →
  (TagDelete tag, ExitFail stderr) ∈ since w w' →
  since w w' = [(TagDelete tag, ExitFail stderr)] ∧
  result' = add_error result
              ("Failed to delete local tag " +:+ tag +:+ ": " +:+ stderr) ∧
  deleted_tags result' = deleted_tags result ∧
  deleted_count result' = deleted_count result ∧
  refs_of w' = refs_of w.
Proof.
  intros Hrun Hfail.
  pose proof (wp_Return _ _ _ _ _ _ (delete_step_trail _ _ _ _ _ _) Hrun) as Hcases.
  cbn beta in Hcases.
  destruct Hcases as [(Hs & _)|[(e & Hs & -> & Hrefs)|(out & l2 & l3 & Hs & Hrem & Hrel & _)]];
    rewrite Hs in Hfail.
  - in_trail Hfail.
  - in_trail Hfail. split_and!; try done. unfold refs_of. congruence.
  - exfalso. destruct (truthy remote); [destruct Hrem as [? ->]|subst l2];
      (destruct (truthy gh_repo); [destruct Hrel as [? ->]|subst l3]); in_trail Hfail.
Qed.

Lemma delete_step_stops_after_local_failure_witness :
  let w := world_of (_list_tags (world_of (plan delete_fault_repo))) in
  let run := delete_step None None ∅ "v2.17.0" ExecuteResult0 w in
  since w (world_of run)
    = [(TagDelete "v2.17.0", ExitFail "error: cannot lock ref")] ∧
  value_of ExecuteResult0 run
    = add_error ExecuteResult0
        ("Failed to delete local tag " +:+ "v2.17.0" +:+ ": " +:+ "error: cannot lock ref") ∧
  deleted_tags (value_of ExecuteResult0 run) = deleted_tags ExecuteResult0 ∧
  deleted_count (value_of ExecuteResult0 run) = deleted_count ExecuteResult0 ∧
  refs_of (world_of run) = refs_of w.
Proof.
  intros w run.
  apply (delete_step_stops_after_local_failure None None ∅ "v2.17.0" ExecuteResult0 w
           (value_of ExecuteResult0 run) (world_of run) "error: cannot lock ref").
  - vm_compute. reflexivity.
  - vm_compute. apply list_elem_of_here.
Defined.

(** X20: in the delete phase, when the local deletion of a tag succeeds, the tag
    is recorded and counted as deleted and is gone locally; the remote
    deletion is invoked when a remote is configured, and the release deletion
    when [gh_repo] is set, whatever the remote deletion did. *)
Theorem delete_step_completes_after_local_delete gh_repo remote prot tag result w
    result' w' out :
  delete_step gh_repo remote prot tag result w = Return result' w' →
  (TagDelete tag, Exit0 out) ∈ since w w' →
  deleted_tags result' = deleted_tags result ++ [tag] ∧
  deleted_count result' = deleted_count result + 1 ∧
  (∀ rem, truthy remote = Some rem → ∃ r, (PushDelete rem tag, r) ∈ since w w') ∧
  (∀ repo, truthy gh_repo = Some repo → ∃ r, (ReleaseDelete repo tag, r) ∈ since w w') ∧
  local_tags w' !! tag = None.
Proof.
  intros Hrun Hok.
  pose proof (wp_Return _ _ _ _ _ _ (delete_step_trail _ _ _ _ _ _) Hrun) as Hcases.
  cbn beta in Hcases.
  destruct Hcases as [(Hs & _)|[(e & Hs & _)|(out' & l2 & l3 & Hs & Hrem & Hrel & Hdel & Hdelc & _)]].
  - rewrite Hs in Hok. in_trail Hok.
  - rewrite Hs in Hok. in_trail Hok.
  - split_and!; try done.
    + intros rem Hr. rewrite Hr in Hrem. destruct Hrem as [r ->]. exists r.
      rewrite Hs. right. apply elem_of_app. left. by left.
    + intros repo Hr. rewrite Hr in Hrel. destruct Hrel as [r ->]. exists r.
      rewrite Hs. right. apply elem_of_app. right. by left.
    + pose proof (wp_Return _ _ _ _ _ _
                    (delete_step_deletes gh_repo remote prot tag result w w
                       (steps_refl _ _)) Hrun) as (_ & _ & _ & [(Hsame & _)|Hgone]).
      * rewrite Hsame in Hdel. apply (f_equal length) in Hdel.
        rewrite length_app in Hdel. simpl in Hdel. lia.
      * by destruct Hgone as (_ & _ & _ & _ & ? & _).
Qed.

Lemma delete_step_completes_after_local_delete_witness :
  let w := temp_git_repo_with_remote in
  let run := delete_step (Some "owner/repo") (Some "origin") ∅ "v1.4.8"
               ExecuteResult0 w in
  releases (world_of run) = ∅ ∧
  deleted_tags (value_of ExecuteResult0 run) = deleted_tags ExecuteResult0 ++ ["v1.4.8"] ∧
  deleted_count (value_of ExecuteResult0 run) = deleted_count ExecuteResult0 + 1 ∧
  (∀ rem, truthy (Some "origin") = Some rem →
     ∃ r, (PushDelete rem "v1.4.8", r) ∈ since w (world_of run)) ∧
  (∀ repo, truthy (Some "owner/repo") = Some repo →
     ∃ r, (ReleaseDelete repo "v1.4.8", r) ∈ since w (world_of run)) ∧
  local_tags (world_of run) !! "v1.4.8" = None.
Proof.
  intros w run. split; [vm_compute; reflexivity|].
  apply (delete_step_completes_after_local_delete (Some "owner/repo") (Some "origin")
           ∅ "v1.4.8" ExecuteResult0 w (value_of ExecuteResult0 run) (world_of run)
           ["Deleted tag 'v1.4.8' (was " +:+ commit0 +:+ ")"]).
  - vm_compute. reflexivity.
  - vm_compute. apply list_elem_of_here.
Defined.

(** ** Whole runs: the errors, and the store without tags *)

Lemma reported_invoke w0 L result w c r w' :
  reported w0 L result w → invoke c w = (r, w') → reported w0 L result w'.
Proof.
  intros (h & Hh & Hall) Hinv. exists (h ++ [(c, r)]). split.
  - by rewrite (invoke_history _ _ _ _ Hinv), Hh, app_assoc.
  - eapply Forall_impl; [exact Hall|]. intros msg [(c' & e & Hin & Hd)|?]; [|by right].
    left. exists c', e. split; [|done]. apply elem_of_app. by left.
Qed.

Lemma reported_described w0 L result w c stderr msg w' :
  reported w0 L result w → invoke c w = (ExitFail stderr, w') →
  describe c stderr = Some msg → reported w0 L (add_error result msg) w'.
Proof.
  intros Hrep Hinv Hd.
  destruct (reported_invoke _ _ _ _ _ _ _ Hrep Hinv) as (h & Hh & Hall).
  exists h. split; [done|]. simpl. apply Forall_app. split; [done|].
  apply Forall_singleton. left. exists c, stderr. split; [|done].
  apply invoke_history in Hinv. destruct Hrep as (h0 & Hh0 & _).
  rewrite Hinv, Hh0, <- app_assoc in Hh. apply app_inv_head in Hh. subst h.
  apply elem_of_app. right. by left.
Qed.

Lemma execute_Return gh_repo remote w result w' :
  execute gh_repo remote w = Return result w' →
  ∃ w0 st w1,
    plan w = Return (foldl plan_step CleanupPlan0 (tag_listing w)) w0 ∧
    invoke TagList w = (Exit0 (map_to_list (local_tags w)).*1, w0) ∧
    rename_phase remote (to_rename (foldl plan_step CleanupPlan0 (tag_listing w)))
                 (ExecuteResult0, ∅) w0 = Return st w1 ∧
    delete_phase gh_repo remote st.2 st.1 w1 = Return result w'.
Proof.
  unfold execute, bind at 1.
  destruct (plan w) as [p w0|] eqn:Hplan; [|done].
  unfold bind at 1.
  destruct (rename_phase remote (to_rename p) (ExecuteResult0, ∅) w0)
    as [st w1|] eqn:Hphase1; [|done].
  intros Hphase2. exists w0, st, w1.
  unfold plan, bind, ret in Hplan.
  destruct (_list_tags w) as [tags' w0'|] eqn:Hl; [|done]. injection Hplan as <- <-.
  destruct (list_tags_listing _ _ _ Hl) as [-> _].
  destruct (list_tags_Return _ _ _ Hl) as (out & Hinv & _).
  destruct (invoke_TagList_Exit0 _ _ _ Hinv) as (_ & -> & _).
  split_and!; done.
Qed.

(** X21: when [execute] returns, every entry of [errors] is the description of a
    create, push or delete invocation that failed during the run, or the
    conflict message of a legacy tag that was listed at the start. *)
Theorem execute_errors_are_real gh_repo remote w result w' :
  execute gh_repo remote w = Return result w' →
  Forall (λ msg,
            (∃ c stderr, (c, ExitFail stderr) ∈ since w w' ∧
                         describe c stderr = Some msg) ∨
            other_conflict
              (λ t, startswith t NWAVE_PREFIX = true ∧ t ∈ tag_listing w) msg)
         (errors result).
Proof.
  intros (w0 & st & w1 & _ & Hinv0 & Hphase1 & Hphase2)%execute_Return.
  set (L := λ t, startswith t NWAVE_PREFIX = true ∧ t ∈ tag_listing w).
  set (I := λ (result : ExecuteResult) (_ : gset string), reported w L result).
  assert (∀ result prot c out w1 w2,
            I result prot w1 → invoke c w1 = (Exit0 out, w2) → I result prot w2) as I_exit0.
  { intros ? ? ? ? ? ?. apply reported_invoke. }
  assert (∀ result prot c stderr msg w1 w2,
            I result prot w1 → invoke c w1 = (ExitFail stderr, w2) →
            describe c stderr = Some msg → I (add_error result msg) prot w2) as I_described.
  { intros ? ? ? ? ? ? ?. apply reported_described. }
  assert (I ExecuteResult0 ∅ w0) as HI0.
  { exists [(TagList, Exit0 (map_to_list (local_tags w)).*1)]. split; [|constructor].
    by apply invoke_history in Hinv0. }
  assert (I st.1 st.2 w1) as HI1.
  { refine (wp_Return _ _ _ _ (λ st' w', I st'.1 st'.2 w') (λ _ _, True) _ Hphase1).
    apply (inv_rename_phase I (λ _ _, True)); try done.
    destruct (plan_entries (tag_listing w)) as [Hleg Hold]. cbn zeta in Hleg, Hold.
    apply Forall_forall. intros entry Hentry. split; [|done].
    intros res prot oc nc w2 (h & Hh & Hall). exists h. split; [done|]. simpl.
    apply Forall_app. split; [done|]. apply Forall_singleton. right.
    exists (old_name entry), (new_name entry), oc, nc. split; [|done].
    assert (old_name entry ∈ old_name <$> to_rename
              (foldl plan_step CleanupPlan0 (tag_listing w))) as Hin.
    { apply list_elem_of_fmap. by exists entry. }
    rewrite Hold in Hin. apply list_elem_of_filter in Hin as [Hren Hin].
    split; [by apply classify_tag_RENAME|done]. }
  assert (I result st.2 w') as (h & Hh & Hall).
  { refine (wp_Return _ _ _ _ (λ result' w', I result' st.2 w') (λ _ _, True) _ Hphase2).
    apply (inv_delete_phase I (λ _ _, True)); try done.
    intros ? ? ? ? ? ? ?. apply reported_invoke. }
  unfold since. by rewrite Hh, drop_app_length.
Qed.

Lemma execute_errors_are_real_witness :
  let w := mixed_conflict_repo in
  let run := execute None None w in
  length (errors (value_of ExecuteResult0 run)) = 1 ∧
  Forall (λ msg,
            (∃ c stderr, (c, ExitFail stderr) ∈ since w (world_of run) ∧
                         describe c stderr = Some msg) ∨
            other_conflict
              (λ t, startswith t NWAVE_PREFIX = true ∧ t ∈ tag_listing w) msg)
         (errors (value_of ExecuteResult0 run)).
Proof.
  intros w run. split; [vm_compute; reflexivity|].
  apply (execute_errors_are_real None None w). vm_compute. reflexivity.
Defined.

Lemma tag_listing_empty w : local_tags w = ∅ → tag_listing w = [].
Proof. intros H. unfold tag_listing. rewrite H, map_to_list_empty. done. Qed.

(** X22: on a store without local tags, the next two invocations meeting no
    fault, [audit] returns the empty report, [plan] the empty plan and
    [execute] a result with zero counts and no error; nothing is changed, and
    [execute] has made two listings and nothing else. *)
Theorem empty_store_nothing_to_do gh_repo remote w :
  local_tags w = ∅ → calm 2 w →
  (∃ w', audit w = Return AuditReport0 w' ∧ refs_of w' = refs_of w) ∧
  (∃ w', plan w = Return CleanupPlan0 w' ∧ refs_of w' = refs_of w) ∧
  (∃ w', execute gh_repo remote w = Return ExecuteResult0 w' ∧
         refs_of w' = refs_of w ∧
         since w w' = [(TagList, Exit0 []); (TagList, Exit0 [])]).
Proof.
  intros Hempty Hcalm.
  pose proof (list_tags_calm _ w Hcalm) as Hl.
  rewrite (tag_listing_empty _ Hempty), Hempty, map_to_list_empty in Hl.
  set (w1 := log TagList (Exit0 []) w) in *.
  assert (calm 1 w1) as Hcalm1 by apply calm_log, Hcalm.
  pose proof (list_tags_calm _ w1 Hcalm1) as Hl1.
  assert (local_tags w1 = ∅) as Hempty1 by done.
  rewrite (tag_listing_empty _ Hempty1), Hempty1, map_to_list_empty in Hl1.
  split_and!.
  - exists w1. split; [|done]. unfold audit, bind. by rewrite Hl.
  - exists w1. split; [|done]. unfold plan, bind. by rewrite Hl.
  - exists (log TagList (Exit0 []) w1). split_and!; try done.
    + unfold execute, plan, bind. rewrite Hl. simpl. fold w1.
      unfold delete_phase, bind. by rewrite Hl1.
    + unfold since. simpl. by rewrite <- app_assoc, drop_app_length.
Qed.

Lemma empty_store_nothing_to_do_witness :
  (∃ w', audit empty_git_repo = Return AuditReport0 w' ∧
         refs_of w' = refs_of empty_git_repo) ∧
  (∃ w', plan empty_git_repo = Return CleanupPlan0 w' ∧
         refs_of w' = refs_of empty_git_repo) ∧
  (∃ w', execute None None empty_git_repo = Return ExecuteResult0 w' ∧
         refs_of w' = refs_of empty_git_repo ∧
         since empty_git_repo w' = [(TagList, Exit0 []); (TagList, Exit0 [])]).
Proof.
  apply (empty_store_nothing_to_do None None empty_git_repo).
  - reflexivity.
  - intros k Hk. reflexivity.
Defined.

(** ** One entry with a remote *)

(** X23: with a remote that has the old tag and not the target, an entry whose
    target is not there locally and whose six invocations meet no fault is
    renamed on both sides: locally and on the remote the target is on the
    stripped commit of the old tag and the old tag is gone; the rename is
    recorded, the target protected, and the invocations were: list, resolve,
    create, push, delete, remote delete. *)
Theorem rename_entry_mirrored_on_remote remote rem there old new rest result prot w
    c_old c_rem :
  truthy remote = Some rem →
  refnames w →
  local_tags w !! old = Some c_old →
  local_tags w !! new = None →
  remotes w !! rem = Some there →
  there !! old = Some c_rem →
  there !! new = None →
  calm 6 w →
  ∃ w',
    rename_phase remote (mkRenameEntry old new :: rest) (result, prot) w
      = rename_phase remote rest
          (add_renamed result (old +:+ " -> " +:+ new), {[new]} ∪ prot) w' ∧
    local_tags w' = delete old (<[new := strip c_old]> (local_tags w)) ∧
    remotes w' = <[rem := delete old (<[new := strip c_old]> there)]> (remotes w) ∧
    remote_tag w' rem new = Some (strip c_old) ∧
    remote_tag w' rem old = None ∧
    releases w' = releases w ∧
    (since w w').*1
      = [TagList; RevList old; TagCreate new (strip c_old); PushTag rem new;
         TagDelete old; PushDelete rem old].
Proof.
  intros Hremote Hw Hold Hnew Hrem Hrold Hrnew Hcalm.
  assert (old ≠ new) as Hne by congruence.
  set (w1 := log TagList (Exit0 (map_to_list (local_tags w)).*1) w).
  set (w2 := log (RevList old) (Exit0 [c_old]) w1).
  assert (calm 5 w1) as Hcalm1 by apply calm_log, Hcalm.
  assert (calm 4 w2) as Hcalm2 by apply calm_log, Hcalm1.
  set (lt3 := <[new := strip c_old]> (local_tags w)).
  assert (perform (TagCreate new (strip c_old)) w2
          = (Exit0 [], mkWorld lt3 (remotes w) (releases w) (faults w) (history w2)))
    as Hp3.
  { simpl. by rewrite Hnew. }
  set (w3 := log (TagCreate new (strip c_old))
                 (perform (TagCreate new (strip c_old)) w2).1
                 (perform (TagCreate new (strip c_old)) w2).2).
  assert (calm 3 w3) as Hcalm3 by apply calm_step, Hcalm2.
  set (rm4 := <[rem := <[new := strip c_old]> there]> (remotes w)).
  assert (perform (PushTag rem new) w3
          = (Exit0 [], mkWorld lt3 rm4 (releases w) (faults w) (history w3))) as Hp4.
  { unfold w3. rewrite Hp3. simpl. rewrite Hrem. unfold lt3.
    rewrite lookup_insert_eq, Hrnew. done. }
  set (w4 := log (PushTag rem new) (perform (PushTag rem new) w3).1
                 (perform (PushTag rem new) w3).2).
  assert (calm 2 w4) as Hcalm4 by apply calm_step, Hcalm3.
  assert (perform (TagDelete old) w4
          = (Exit0 ["Deleted tag '" +:+ old +:+ "' (was " +:+ c_old +:+ ")"],
             mkWorld (delete old lt3) rm4 (releases w) (faults w) (history w4))) as Hp5.
  { unfold w4. rewrite Hp4. simpl. unfold lt3.
    rewrite lookup_insert_ne by done. by rewrite Hold. }
  set (w5 := log (TagDelete old) (perform (TagDelete old) w4).1
                 (perform (TagDelete old) w4).2).
  assert (calm 1 w5) as Hcalm5 by apply calm_step, Hcalm4.
  set (rm6 := <[rem := delete old (<[new := strip c_old]> there)]> rm4).
  assert (perform (PushDelete rem old) w5
          = (Exit0 [], mkWorld (delete old lt3) rm6 (releases w) (faults w) (history w5)))
    as Hp6.
  { unfold w5. rewrite Hp5. simpl. unfold rm4. rewrite lookup_insert_eq.
    rewrite lookup_insert_ne by done. by rewrite Hrold. }
  set (w6 := log (PushDelete rem old) (perform (PushDelete rem old) w5).1
                 (perform (PushDelete rem old) w5).2).
  exists w6. split.
  { cbn [rename_phase]. unfold rename_step. cbn [old_name new_name]. unfold bind.
    rewrite (list_tags_calm _ w Hcalm).
    rewrite decide_False by (by apply tag_listing_absent). fold w1.
    rewrite (get_tag_commit_calm _ _ old c_old Hcalm1 Hold). fold w2.
    rewrite (try_run_git_calm _ (TagCreate new (strip c_old)) w2 Hcalm2). fold w3.
    rewrite Hp3. cbn [fst]. rewrite Hremote.
    rewrite (try_run_git_calm _ (PushTag rem new) w3 Hcalm3). fold w4.
    rewrite Hp4. cbn [fst]. unfold ret at 1.
    unfold _delete_tag_local, bind.
    rewrite (try_run_git_calm _ (TagDelete old) w4 Hcalm4). fold w5.
    rewrite Hp5. cbn [fst snd]. unfold ret at 1.
    unfold _delete_tag_remote, bind.
    rewrite (try_run_git_calm _ (PushDelete rem old) w5 Hcalm5). fold w6.
    rewrite Hp6. cbn [fst snd]. reflexivity. }
  assert (rm6 = <[rem := delete old (<[new := strip c_old]> there)]> (remotes w)) as Hrm6.
  { unfold rm6, rm4. by rewrite insert_insert_eq. }
  unfold w6. rewrite Hp6. cbn [fst snd log local_tags remotes releases faults].
  unfold remote_tag. cbn [log remotes]. rewrite ?Hrm6, !lookup_insert_eq.
  split_and!; try done.
  - simpl. rewrite lookup_delete_ne by done. by rewrite lookup_insert_eq.
  - simpl. by rewrite lookup_delete_eq.
  - assert (history w5
            = history w ++ [(TagList, Exit0 (map_to_list (local_tags w)).*1);
                            (RevList old, Exit0 [c_old]);
                            (TagCreate new (strip c_old), Exit0 []);
                            (PushTag rem new, Exit0 []);
                            (TagDelete old,
                             Exit0 ["Deleted tag '" +:+ old +:+ "' (was "
                                    +:+ c_old +:+ ")"])]) as Hh5.
    { unfold w5. cbn [log history]. rewrite perform_history, Hp5.
      unfold w4. cbn [log history]. rewrite perform_history, Hp4.
      unfold w3. cbn [log history]. rewrite perform_history, Hp3.
      unfold w2, w1. cbn [log history fst]. by rewrite <- !app_assoc. }
    unfold since. cbn [log history]. rewrite Hh5, <- app_assoc, drop_app_length.
    done.
Qed.

Lemma rename_entry_mirrored_on_remote_witness :
  ∃ w',
    rename_phase (Some "origin") [mkRenameEntry "nWave_v1.1.21" "v1.1.21"]
                 (ExecuteResult0, ∅) temp_git_repo_with_remote
      = Return (add_renamed ExecuteResult0 "nWave_v1.1.21 -> v1.1.21", {["v1.1.21"]} ∪ ∅)
               w' ∧
    remote_tag w' "origin" "v1.1.21" = Some commit0 ∧
    remote_tag w' "origin" "nWave_v1.1.21" = None ∧
    (since temp_git_repo_with_remote w').*1
      = [TagList; RevList "nWave_v1.1.21"; TagCreate "v1.1.21" commit0;
         PushTag "origin" "v1.1.21"; TagDelete "nWave_v1.1.21";
         PushDelete "origin" "nWave_v1.1.21"].
Proof.
  destruct (rename_entry_mirrored_on_remote (Some "origin") "origin"
              (local_tags temp_git_repo_with_remote)
              "nWave_v1.1.21" "v1.1.21" [] ExecuteResult0 ∅
              temp_git_repo_with_remote commit0 commit0)
    as (w' & Hrun & _ & _ & Hnew & Hold & _ & Hsince).
  - reflexivity.
  - apply (refnames_list_to_map
             ((λ n, (n, commit0)) <$>
                ["v2.17.0"; "v2.17.1"; "v2.17.2"; "nWave_v1.1.21"; "v1.4.8"]));
      [reflexivity|].
    repeat constructor; try discriminate.
  - vm_compute. reflexivity.
  - vm_compute. reflexivity.
  - vm_compute. reflexivity.
  - vm_compute. reflexivity.
  - vm_compute. reflexivity.
  - intros k Hk. reflexivity.
  - exists w'. split_and!; [exact Hrun|exact Hnew|exact Hold|exact Hsince].
Defined.

(** ** The command line *)

Lemma list_tags_outcome w :
  match _list_tags w with
  | Return _ w' => refs_of w' = refs_of w
  | Raise e w' => refs_of w' = refs_of w ∧ read_failed e w'
  end.
Proof.
  unfold _list_tags, _run_git, subprocess_run, bind, ret.
  destruct (invoke TagList w) as [[out|err] w'] eqn:Hinv.
  - exact (invoke_read_refs TagList _ _ _ I Hinv).
  - split; [exact (invoke_read_refs TagList _ _ _ I Hinv)|].
    exists (history w), TagList. split; [by apply invoke_history|done].
Qed.

(** X24: without [--execute], [main] changes nothing in the store: it returns
    the exit status 0, or it lets the error of a failed listing through,
    having printed nothing. *)
Theorem main_without_execute_is_read_only args w :
  args_execute args = false →
  refs_of (world_of (main args w).2) = refs_of w ∧
  match (main args w).2 with
  | Return code _ => code = 0
  | Raise stderr w' => (main args w).1 = [] ∧ read_failed stderr w'
  end.
Proof.
  intros Hexec. unfold main. rewrite Hexec.
  pose proof (list_tags_outcome w) as Hl.
  destruct (args_plan args); unfold plan, audit, bind, ret;
    (destruct (_list_tags w) as [tags' w'|e w']; simpl;
     [by split|destruct Hl; by split_and!]).
Qed.

Lemma main_without_execute_is_read_only_witness :
  let args := mkNamespace "owner/repo" true false None in
  length (main args temp_git_repo).1 = 13 ∧
  refs_of (world_of (main args temp_git_repo).2) = refs_of temp_git_repo ∧
  match (main args temp_git_repo).2 with
  | Return code _ => code = 0
  | Raise stderr w' => (main args temp_git_repo).1 = [] ∧ read_failed stderr w'
  end.
Proof.
  intros args. split; [vm_compute; reflexivity|].
  apply (main_without_execute_is_read_only args temp_git_repo). reflexivity.
Defined.




(** ** Resolving a tag, deleting on a remote *)

(** X26: [_get_tag_commit] makes one [git rev-list -n 1] invocation, which
    changes nothing.  When the invocation exits 0, the result is its standard
    output with surrounding white space stripped: for an output of one line,
    that line stripped; in any case a text that [strip] leaves as it is.  When
    the invocation exits non-zero, the error is raised, not caught. *)
Theorem get_tag_commit_outcome tag w r w' :
  invoke (RevList tag) w = (r, w') →
  _get_tag_commit tag w
  = match r with
    | Exit0 out => Return (strip (unlines out)) w'
    | ExitFail stderr => Raise stderr w'
    end ∧
  since w w' = [(RevList tag, r)] ∧
  refs_of w' = refs_of w ∧
  (∀ line, r = Exit0 [line] → _get_tag_commit tag w = Return (strip line) w') ∧
  (∀ commit w'', _get_tag_commit tag w = Return commit w'' → strip commit = commit).
Proof.
  intros Hinv.
  assert (_get_tag_commit tag w
          = match r with
            | Exit0 out => Return (strip (unlines out)) w'
            | ExitFail stderr => Raise stderr w'
            end) as Heval.
  { unfold _get_tag_commit, _run_git, subprocess_run, bind, ret. rewrite Hinv.
    by destruct r. }
  split_and!.
  - exact Heval.
  - by apply since_invoke.
  - exact (invoke_read_refs (RevList tag) _ _ _ I Hinv).
  - intros line ->. by rewrite Heval, strip_unlines_one.
  - intros commit w''. rewrite Heval. destruct r; [|done].
    intros [= <- _]. apply strip_strip.
Qed.

Lemma get_tag_commit_outcome_witness :
  let w := conflict_different_commit_repo in
  let r := (invoke (RevList "v1.1.21") w).1 in
  let w' := (invoke (RevList "v1.1.21") w).2 in
  _get_tag_commit "v1.1.21" w = Return commit1 w' ∧
  _get_tag_commit "v1.1.21" w
  = match r with
    | Exit0 out => Return (strip (unlines out)) w'
    | ExitFail stderr => Raise stderr w'
    end ∧
  since w w' = [(RevList "v1.1.21", r)] ∧
  refs_of w' = refs_of w ∧
  (∀ line, r = Exit0 [line] → _get_tag_commit "v1.1.21" w = Return (strip line) w') ∧
  (∀ commit w'', _get_tag_commit "v1.1.21" w = Return commit w'' → strip commit = commit).
Proof.
  intros w r w'. split; [vm_compute; reflexivity|].
  apply (get_tag_commit_outcome "v1.1.21" w r w'). vm_compute. reflexivity.
Defined.




(** ** The two phases in the history *)

Lemma steps_history ψ w w' :
  steps ψ w w' →
  ∃ h, history w' = history w ++ h ∧ Forall (λ cr, ∃ w1, ψ w1 cr.1 cr.2) h.
Proof.
  induction 1 as [|w1 w2 c r _ (h & Hh & Hall) Hinv Hψ].
  - exists []. by rewrite app_nil_r.
  - exists (h ++ [(c, r)]). split.
    + by rewrite (invoke_history _ _ _ _ Hinv), Hh, app_assoc.
    + apply Forall_app. split; [done|]. apply Forall_singleton. by exists w1.
Qed.

Lemma renames_rename_command w c r : renames w c r → rename_command c.
Proof.
  destruct c; simpl; try done.
  - intros (old & c_old & ? & ? & _). by exists old.
  - by intros [? _].
Qed.

Lemma deletes_delete_command prot w c r : deletes prot w c r → delete_command c.
Proof. destruct c; simpl; try done; by intros [_ ?]. Qed.

(** X28: the invocations of a run of [execute], returned or raised, are those of
    a rename phase followed by those of a delete phase.  The first part lists
    and resolves, creates or pushes only rename targets of legacy names and
    deletes only legacy names; the second part lists and deletes, locally, on
    the remote or as a release, only tags classified [DELETE]. *)
Theorem execute_two_phases gh_repo remote w :
  ∃ l1 l2,
    since w (world_of (execute gh_repo remote w)) = l1 ++ l2 ∧
    Forall (λ cr, rename_command cr.1) l1 ∧
    Forall (λ cr, delete_command cr.1) l2.
Proof.
  apply (wp_world_of (execute gh_repo remote) w
           (λ w', ∃ l1 l2, since w w' = l1 ++ l2 ∧
                    Forall (λ cr, rename_command cr.1) l1 ∧
                    Forall (λ cr, delete_command cr.1) l2)).
  assert (∀ w1, steps renames w w1 →
            ∃ l1, history w1 = history w ++ l1 ∧
                  Forall (λ cr, rename_command cr.1) l1) as Hone.
  { intros w1 (h & Hh & Hall)%steps_history. exists h. split; [done|].
    eapply Forall_impl; [exact Hall|]. intros [c r] [w2 H].
    by eapply renames_rename_command. }
  assert (∀ prot w1 w', steps renames w w1 → steps (deletes prot) w1 w' →
            ∃ l1 l2, since w w' = l1 ++ l2 ∧
                     Forall (λ cr, rename_command cr.1) l1 ∧
                     Forall (λ cr, delete_command cr.1) l2) as Htwo.
  { intros prot w1 w' (l1 & Hh1 & Hall1)%Hone (l2 & Hh2 & Hall2)%steps_history.
    exists l1, l2. split_and!; [|done|].
    - unfold since. by rewrite Hh2, Hh1, <- app_assoc, drop_app_length.
    - eapply Forall_impl; [exact Hall2|]. intros [c r] [w2 H].
      by eapply deletes_delete_command. }
  eapply wp_mono; [apply execute_walk|..]; cbn beta.
  - intros result w' (st & w1 & (Hs & _) & Hs' & _). by eapply Htwo.
  - intros e w' [Hs|(st & w1 & (Hs & _) & Hs')]; [|by eapply Htwo].
    destruct (Hone _ Hs) as (l1 & Hh & Hall). exists l1, [].
    split_and!; [|done|constructor].
    unfold since. by rewrite Hh, app_nil_r, drop_app_length.
Qed.

(** ** A store without legacy tags *)

Lemma tag_listing_keys w t :
  refnames w → t ∈ tag_listing w → is_Some (local_tags w !! t).
Proof.
  intros Hw (_ & n & Hn & <-)%elem_of_tag_listing.
  destruct (Hw n Hn) as [-> _]. done.
Qed.

(** X29: on a store in which no tag has the legacy prefix (names without
    surrounding white space), a run of [execute] that returns and in which no
    [git] invocation fails deletes every local tag: no tag is left, nothing
    is renamed, no error is recorded, and the tags recorded as deleted are
    tags of the start.  So a second run after a successful first one deletes
    the tags the first run created. *)
Theorem execute_without_legacy_tags_deletes_all gh_repo remote w result w' :
  refnames w →
  (∀ t, is_Some (local_tags w !! t) → startswith t NWAVE_PREFIX = false) →
  execute gh_repo remote w = Return result w' →
  forallb git_ok (since w w') = true →
  local_tags w' = ∅ ∧
  renamed_tags result = [] ∧
  errors result = [] ∧
  Forall (λ t, is_Some (local_tags w !! t)) (deleted_tags result).
Proof.
  intros Hw Hplain (w0 & st & w1 & _ & Hinv0 & Hphase1 & Hphase2)%execute_Return Hok.
  pose proof (invoke_local_tags _ _ _ _ Hinv0) as Hl0. cbn [local_after] in Hl0.
  pose proof (invoke_history _ _ _ _ Hinv0) as Hh0.
  assert (to_rename (foldl plan_step CleanupPlan0 (tag_listing w)) = []) as Hnone.
  { rewrite plan_to_rename.
    destruct (filter (λ t, classify_tag t = RENAME) (tag_listing w)) as [|t l] eqn:Hf;
      [done|].
    assert (t ∈ filter (λ t, classify_tag t = RENAME) (tag_listing w)) as Hin
      by (rewrite Hf; by left).
    apply list_elem_of_filter in Hin as [Hren Hin%(tag_listing_keys _ _ Hw)].
    apply classify_tag_RENAME in Hren. rewrite (Hplain t Hin) in Hren. done. }
  rewrite Hnone in Hphase1. injection Hphase1 as <- <-. cbn [fst snd] in Hphase2.
  pose proof (wp_Return _ _ _ _ _ _
                (delete_phase_deletes gh_repo remote ∅ ExecuteResult0 w0
                   (λ _ _, True) (λ _ _ _, I)) Hphase2)
    as (Hs & Hren & _ & (ds & Hds & Hall & _) & Hsurv).
  assert (reported w0 (λ _, False) result w') as (h & Hh & Hreal).
  { refine (wp_Return _ _ _ _
              (λ result' w', reported w0 (λ _, False) result' w') (λ _ _, True) _ Hphase2).
    apply (inv_delete_phase (λ result _, reported w0 (λ _, False) result) (λ _ _, True));
      try done.
    - intros ? ? ? ? ? ?. apply reported_invoke.
    - intros ? ? ? ? ? ? ?. apply reported_described.
    - intros ? ? ? ? ? ? ?. apply reported_invoke.
    - exists []. split; [by rewrite app_nil_r|constructor]. }
  assert (forallb git_ok h = true) as Hokh.
  { unfold since in Hok. rewrite Hh, Hh0, <- app_assoc, drop_app_length in Hok.
    by apply andb_true_iff in Hok as [_ ?]. }
  assert (errors result = []) as Herrors.
  { destruct (errors result) as [|msg more]; [done|]. exfalso.
    apply Forall_cons in Hreal as [[(c & e & Hin & Hd)|(? & ? & ? & ? & [] & _)] _].
    rewrite forallb_forall in Hokh. apply list_elem_of_In, Hokh in Hin.
    by destruct c. }
  split_and!; try done.
  - apply map_empty. intros t. destruct (local_tags w' !! t) as [c|] eqn:Hc; [|done].
    exfalso. assert (is_Some (local_tags w !! t)) as Hin.
    { exists c. rewrite <- Hl0. by eapply deletes_only_shrinks. }
    destruct (Hsurv t (Hw t Hin)) as [Hp|[Hr|[e He]]]; [by exists c|..].
    + by apply not_elem_of_empty in Hp.
    + apply classify_tag_RENAME in Hr. by rewrite (Hplain t Hin) in Hr.
    + rewrite Herrors in He. by apply not_elem_of_nil in He.
  - rewrite Hds. simpl. eapply Forall_impl; [exact Hall|].
    intros t (_ & _ & Ht & _). by rewrite <- Hl0.
Qed.

Lemma execute_without_legacy_tags_deletes_all_witness :
  let w := repo_with ["v1.1.20"; "v1.1.21"] in
  let run := execute None None w in
  local_tags (world_of (execute None None temp_git_repo)) = local_tags w ∧
  deleted_tags (value_of ExecuteResult0 run) = ["v1.1.20"; "v1.1.21"] ∧
  local_tags (world_of run) = ∅ ∧
  renamed_tags (value_of ExecuteResult0 run) = [] ∧
  errors (value_of ExecuteResult0 run) = [] ∧
  Forall (λ t, is_Some (local_tags w !! t)) (deleted_tags (value_of ExecuteResult0 run)).
Proof.
  intros w run.
  split; [vm_compute; reflexivity|]. split; [vm_compute; reflexivity|].
  apply (execute_without_legacy_tags_deletes_all None None w
           (value_of ExecuteResult0 run) (world_of run)).
  - apply (refnames_list_to_map [("v1.1.20", commit0); ("v1.1.21", commit0)]);
      [reflexivity|].
    repeat constructor; try discriminate.
  - intros t [c Ht]. unfold w, repo_with in Ht. cbn [local_tags fmap list_fmap] in Ht.
    apply elem_of_list_to_map_2 in Ht.
    apply elem_of_cons in Ht as [Ht|Ht]; [by simplify_eq|].
    apply elem_of_cons in Ht as [Ht|Ht]; [by simplify_eq|].
    by apply elem_of_nil in Ht.
  - vm_compute. reflexivity.
  - vm_compute. reflexivity.
Defined.

(** ** The invocations of a whole run *)

Lemma trail_trans w l1 w1 l2 w2 :
  trail w l1 w1 → trail w1 l2 w2 → trail w (l1 ++ l2) w2.
Proof. unfold trail. intros H1 H2. by rewrite H2, H1, app_assoc. Qed.

Lemma trail_invoke c w r w' : invoke c w = (r, w') → trail w [(c, r)] w'.
Proof. intros H. by apply invoke_history. Qed.

Lemma rename_step_entry_trail remote entry result prot w :
  wp (rename_step remote entry (result, prot)) w
    (λ _ w', ∃ l, trail w l w' ∧ entry_trail remote entry l)
    (λ _ _, True).
Proof.
  destruct entry as [old new]. unfold rename_step, entry_trail. cbn [old_name new_name].
  apply wp_bind. unfold _list_tags. eapply (trail_read w []); [apply trail_nil|].
  intros out0 w1 Hl1. simpl app in Hl1.
  destruct (decide _) as [Hin|Hnotin].
  - apply wp_bind. unfold _get_tag_commit. eapply (trail_read w); [exact Hl1|].
    intros out1 w2 Hl2. apply wp_bind. eapply (trail_read w); [exact Hl2|].
    intros out2 w3 Hl3. simpl app in Hl3. destruct (decide _) as [Heq|Hne].
    + apply wp_bind; eapply (trail_delete_tag_local w); [exact Hl3|].
      intros r4 w4 Hl4 _.
      apply wp_bind; eapply (trail_delete_tag_remote_if w); [exact Hl4|].
      intros l' d' w5 Hl5 Hl' _ _ _ _ _. apply wp_ret.
      eexists. split; [exact Hl5|]. exists out0, out1. eexists. split.
      { rewrite <- !app_assoc. simpl. reflexivity. }
      right. left. split; [exact Hin|]. exists out2, r4, l'. by split_and!.
    + apply wp_ret. eexists. split; [exact Hl3|]. exists out0, out1. eexists.
      split; [reflexivity|]. left. split; [exact Hin|]. exists out2.
      split; [|done]. intros Heq. by apply Hne.
  - apply wp_bind. unfold _get_tag_commit. eapply (trail_read w); [exact Hl1|].
    intros out1 w2 Hl2. simpl app in Hl2.
    apply wp_bind; eapply (trail_try w); [exact Hl2|].
    intros r3 w3 Hl3 _. simpl app in Hl3. destruct r3 as [out3|err3].
    + apply wp_bind.
      match goal with Hl : trail w ?l w3 |- wp ?m w3 _ _ =>
        assert (wp m w3 (λ _ w4,
                  ∃ l', trail w (l ++ l') w4 ∧
                        on_remote remote (λ rem, PushTag rem new) l')
                  (λ _ _, True)) as Hpush
      end.
      { unfold on_remote. destruct (truthy remote) as [rem|].
        - apply wp_bind; eapply (trail_try w); [exact Hl3|].
          intros r w4 Hl4 _. destruct r; apply wp_ret; eexists [_];
            (split; [exact Hl4|by eexists]).
        - apply wp_ret. exists []. rewrite app_nil_r. done. }
      eapply wp_mono; [exact Hpush| |done]. clear Hpush.
      intros result' w4 (l4 & Hl4 & Hpushed). cbn beta.
      apply wp_bind; eapply (trail_delete_tag_local w); [exact Hl4|].
      intros r5 w5 Hl5 _.
      apply wp_bind; eapply (trail_delete_tag_remote_if w); [exact Hl5|].
      intros l6 d' w6 Hl6 Hdeleted _ _ _ _ _. apply wp_ret.
      eexists. split; [exact Hl6|]. exists out0, out1. eexists. split.
      { rewrite <- !app_assoc. simpl. reflexivity. }
      right. right. right. split; [exact Hnotin|]. exists out3, l4, r5, l6.
      by split_and!.
    + apply wp_ret. eexists. split; [exact Hl3|]. exists out0, out1. eexists.
      split; [reflexivity|]. right. right. left. split; [exact Hnotin|].
      by exists err3.
Qed.

Lemma rename_phase_trail remote entries st w :
  wp (rename_phase remote entries st) w
    (λ _ w', ∃ l, trail w l w' ∧ trail_of_each (entry_trail remote) entries l)
    (λ _ _, True).
Proof.
  revert st w. induction entries as [|entry rest IH]; intros [result prot] w; simpl.
  - apply wp_ret. exists []. split; [apply trail_nil|done].
  - apply wp_bind. eapply wp_mono; [apply rename_step_entry_trail| |done].
    intros st1 w1 (l1 & Hl1 & He). cbn beta.
    eapply wp_mono; [apply IH| |done].
    intros st2 w2 (l2 & Hl2 & Hrest). cbn beta.
    exists (l1 ++ l2). split; [by eapply trail_trans|]. by exists l1, l2.
Qed.

Lemma delete_step_tag_trail gh_repo remote prot tag result w :
  wp (delete_step gh_repo remote prot tag result) w
    (λ _ w', ∃ l, trail w l w' ∧ tag_trail gh_repo remote prot tag l)
    (λ _ _, False).
Proof.
  unfold delete_step, tag_trail.
  destruct (decide (tag ∈ prot)) as [Hin|Hnot].
  { apply wp_ret. exists []. split; [apply trail_nil|]. left. split; [done|by left]. }
  destruct (decide (classify_tag tag = DELETE)) as [Hdel|Hren].
  2:{ apply wp_ret. exists []. split; [apply trail_nil|]. left. split; [done|].
      right. by destruct (classify_tag tag). }
  apply wp_bind; eapply (trail_delete_tag_local w []); [apply trail_nil|].
  intros r1 w1 Hl1 Hinv1. simpl app in Hl1. destruct r1 as [out|stderr]; cbn [fst snd].
  - apply wp_bind; eapply (trail_delete_tag_remote_if w _ w1 _ _ (true, result));
      [exact Hl1|].
    intros l2 d' w2 Hl2 Hremote _ _ _ _ _. cbn [fst snd] in *.
    unfold on_remote at 2. destruct (truthy gh_repo) as [repo|].
    + unfold _delete_gh_release. apply wp_bind, wp_bind.
      change (subprocess_run (ReleaseDelete repo tag))
        with (_run_git (ReleaseDelete repo tag)).
      eapply (trail_try w); [exact Hl2|].
      intros r3 w3 Hl3 _.
      assert (∃ l, trail w l w3 ∧
                (l = [] ∧ (tag ∈ prot ∨ classify_tag tag = RENAME) ∨
                 (tag ∉ prot) ∧ classify_tag tag = DELETE ∧
                 ((∃ stderr, l = [(TagDelete tag, ExitFail stderr)]) ∨
                  (∃ out l_remote l_release,
                     l = (TagDelete tag, Exit0 out) :: l_remote ++ l_release ∧
                     on_remote remote (λ rem, PushDelete rem tag) l_remote ∧
                     ∃ r, l_release = [(ReleaseDelete repo tag, r)])))) as Hgoal.
      { eexists. split; [exact Hl3|]. right. split_and!; try done. right.
        exists out, l2, [(ReleaseDelete repo tag, r3)].
        split_and!; [by rewrite <- app_assoc|done|by eexists]. }
      destruct r3; apply wp_ret, wp_ret; exact Hgoal.
    + apply wp_ret. eexists. split; [exact Hl2|]. right. split_and!; try done.
      right. exists out, l2, []. by rewrite app_nil_r.
  - apply wp_ret. eexists. split; [exact Hl1|]. right. split_and!; try done.
    left. by exists stderr.
Qed.

Lemma delete_loop_trail gh_repo remote prot tags' result w :
  wp (delete_loop gh_repo remote prot tags' result) w
    (λ _ w', ∃ l, trail w l w' ∧ trail_of_each (tag_trail gh_repo remote prot) tags' l)
    (λ _ _, False).
Proof.
  revert result w. induction tags' as [|tag rest IH]; intros result w; simpl.
  - apply wp_ret. exists []. split; [apply trail_nil|done].
  - apply wp_bind. eapply wp_mono; [apply delete_step_tag_trail| |done].
    intros result1 w1 (l1 & Hl1 & Ht). cbn beta.
    eapply wp_mono; [apply IH| |done].
    intros result2 w2 (l2 & Hl2 & Hrest). cbn beta.
    exists (l1 ++ l2). split; [by eapply trail_trans|]. by exists l1, l2.
Qed.

Lemma trail_of_each_elem {X} (P : X → list (Command * Completed) → Prop) xs l x :
  trail_of_each P xs l → x ∈ xs →
  ∃ lx, P x lx ∧ ∀ cr, cr ∈ lx → cr ∈ l.
Proof.
  revert l. induction xs as [|y xs IH]; intros l; simpl.
  - by intros _ ?%elem_of_nil.
  - intros (l1 & l2 & -> & Hy & Hrest) [->|Hin]%elem_of_cons.
    + exists l1. split; [done|]. intros cr Hcr. apply elem_of_app. by left.
    + destruct (IH _ Hrest Hin) as (lx & Hx & Hsub). exists lx. split; [done|].
      intros cr Hcr. apply elem_of_app. right. by apply Hsub.
Qed.

(** The phases of a run that returned, and the invocations of each. *)
Lemma execute_trail gh_repo remote w result w' :
  execute gh_repo remote w = Return result w' →
  ∃ p w0 st w1 current_tags w2 out0 out1 l1 l2,
    plan w = Return p w0 ∧
    rename_phase remote (to_rename p) (ExecuteResult0, ∅) w0 = Return st w1 ∧
    _list_tags w1 = Return current_tags w2 ∧
    delete_loop gh_repo remote st.2 current_tags st.1 w2 = Return result w' ∧
    trail w [(TagList, Exit0 out0)] w0 ∧
    trail w0 l1 w1 ∧
    trail w1 [(TagList, Exit0 out1)] w2 ∧
    trail w2 l2 w' ∧
    trail_of_each (entry_trail remote) (to_rename p) l1 ∧
    trail_of_each (tag_trail gh_repo remote st.2) current_tags l2.
Proof.
  unfold execute, bind at 1.
  destruct (plan w) as [p w0|] eqn:Hplan; [|done].
  unfold bind at 1.
  destruct (rename_phase remote (to_rename p) (ExecuteResult0, ∅) w0)
    as [st w1|] eqn:Hphase1; [|done].
  unfold delete_phase, bind at 1.
  destruct (_list_tags w1) as [current_tags w2|] eqn:Hlist; [|done].
  intros Hloop.
  assert (∃ out0, trail w [(TagList, Exit0 out0)] w0) as [out0 Ht0].
  { unfold plan, bind, ret in Hplan.
    destruct (_list_tags w) as [tags' w0'|] eqn:Hl; [|done]. injection Hplan as _ <-.
    destruct (list_tags_Return _ _ _ Hl) as (out & Hinv & _). exists out.
    by apply trail_invoke. }
  assert (∃ out1, trail w1 [(TagList, Exit0 out1)] w2) as [out1 Ht1].
  { destruct (list_tags_Return _ _ _ Hlist) as (out & Hinv & _). exists out.
    by apply trail_invoke. }
  destruct (wp_Return _ _ _ _ _ _ (rename_phase_trail remote _ _ _) Hphase1)
    as (l1 & Hl1 & Heach1).
  destruct (wp_Return _ _ _ _ _ _ (delete_loop_trail gh_repo remote _ _ _ _) Hloop)
    as (l2 & Hl2 & Heach2).
  exists p, w0, st, w1, current_tags, w2, out0, out1, l1, l2. by split_and!.
Qed.

(** ** A legacy tag whose target is already there on another commit *)

Lemma rename_step_conflict remote entry result prot w old c_old c_new :
  startswith old NWAVE_PREFIX = true → refname (rename_target old) →
  strip c_old ≠ strip c_new →
  legacy_entry entry →
  local_tags w !! old = Some c_old →
  local_tags w !! rename_target old = Some c_new →
  rename_target old ∉ prot →
  wp (rename_step remote entry (result, prot)) w
    (λ st' w',
       local_tags w' !! old = Some c_old ∧
       local_tags w' !! rename_target old = Some c_new ∧
       (rename_target old ∉ st'.2) ∧
       (∀ m, m ∈ errors result → m ∈ errors st'.1) ∧
       (old_name entry = old →
        conflict_message old (rename_target old) (strip c_old) (strip c_new)
          ∈ errors st'.1))
    (λ _ _, True).
Proof.
  intros Hold Href Hdiff [Hleg Hnew] HA HB Hprot. destruct entry as [o n].
  cbn [old_name new_name] in Hleg, Hnew. subst n.
  set (T := λ (_ : World) (_ : Command) (_ : Completed), True).
  pose proof (legacy_not_target o old Hleg) as Hont.
  pose proof (legacy_not_target old o Hold) as Hnot.
  unfold rename_step. cbn [old_name new_name].
  apply wp_bind, (steps_list_tags T w); [done|apply steps_refl| |done].
  intros w1 _ Hl1. apply (f_equal (λ x, x.1.1)) in Hl1. cbn in Hl1.
  destruct (decide (rename_target o ∈ tag_listing w)) as [Hin|Hnotin].
  - apply wp_bind, (steps_get_tag_commit T w1); [done|apply steps_refl| |done].
    intros c_o w2 _ Hl2 Ho.
    apply wp_bind, (steps_get_tag_commit T w2); [done|apply steps_refl| |done].
    intros c_n w3 _ Hl3 Hn.
    destruct (decide (strip c_o = strip c_n)) as [Heq|Hne].
    + assert (o ≠ old) as Hoo.
      { intros ->. rewrite Hl1 in Ho. rewrite Hl2, Hl1 in Hn. congruence. }
      assert (rename_target o ≠ rename_target old) as Htt.
      { intros H. by apply Hoo, rename_target_inj. }
      apply wp_bind, (steps_delete_tag_local T w3); [apply steps_refl|done|].
      intros r w4 Hinv4 _. pose proof (invoke_local_tags _ _ _ _ Hinv4) as Hl4.
      apply wp_bind, (steps_delete_tag_remote_if T w4); [apply steps_refl|done|].
      intros d' w5 _ Hl5 _ _ _ Herr. apply wp_ret. cbn [fst snd].
      split_and!.
      * rewrite Hl5, Hl4, Hl3, Hl2, Hl1. destruct r; cbn [local_after]; [|done].
        by rewrite lookup_delete_ne.
      * rewrite Hl5, Hl4, Hl3, Hl2, Hl1. destruct r; cbn [local_after]; [|done].
        by rewrite lookup_delete_ne.
      * intros [H%elem_of_singleton|H]%elem_of_union; [by apply Htt|done].
      * intros m Hm. simpl. apply Herr. destruct r; simpl; [done|].
        apply elem_of_app. by left.
      * done.
    + apply wp_ret. cbn [fst snd]. split_and!.
      * by rewrite Hl3, Hl2, Hl1.
      * by rewrite Hl3, Hl2, Hl1.
      * done.
      * intros m Hm. simpl. apply elem_of_app. by left.
      * intros ->. rewrite Hl1 in Ho. rewrite Hl2, Hl1 in Hn.
        assert (c_o = c_old) as -> by congruence.
        assert (c_n = c_new) as -> by congruence.
        simpl. apply elem_of_app. right. by left.
  - assert (o ≠ old) as Hoo.
    { intros ->. apply Hnotin, tag_listing_present; [done|]. by rewrite HB. }
    assert (rename_target o ≠ rename_target old) as Htt.
    { intros H. by apply Hoo, rename_target_inj. }
    apply wp_bind, (steps_get_tag_commit T w1); [done|apply steps_refl| |done].
    intros c_o w2 _ Hl2 Ho.
    apply wp_bind, (steps_try T w2); [apply steps_refl|done|].
    intros r w3 Hinv3 _. pose proof (invoke_local_tags _ _ _ _ Hinv3) as Hl3.
    assert (local_tags w3 !! old = Some c_old ∧
            local_tags w3 !! rename_target old = Some c_new) as [HA3 HB3].
    { rewrite Hl3, Hl2, Hl1. destruct r; cbn [local_after]; [|done].
      by rewrite !lookup_insert_ne. }
    destruct r as [out|err].
    + apply wp_bind.
      match goal with |- wp ?comp w3 _ _ =>
        assert (wp comp w3 (λ result' w4,
                  local_tags w4 = local_tags w3 ∧
                  ∀ m, m ∈ errors result → m ∈ errors result')
                  (λ _ _, True)) as Hpush
      end.
      { destruct (truthy remote) as [rem|]; [|by apply wp_ret].
        apply wp_bind, (steps_try T w3); [apply steps_refl|done|].
        intros r w4 Hinv4 _. pose proof (invoke_local_tags _ _ _ _ Hinv4) as Hl4.
        destruct r; apply wp_ret; (split; [done|]); [done|].
        intros m Hm. simpl. apply elem_of_app. by left. }
      eapply wp_mono; [exact Hpush| |done]. clear Hpush.
      intros result' w4 (Hl4 & Herr4). cbn beta.
      apply wp_bind, (steps_delete_tag_local T w4); [apply steps_refl|done|].
      intros r w5 Hinv5 _. pose proof (invoke_local_tags _ _ _ _ Hinv5) as Hl5.
      apply wp_bind, (steps_delete_tag_remote_if T w5); [apply steps_refl|done|].
      intros d' w6 _ Hl6 _ _ _ Herr. apply wp_ret. cbn [fst snd].
      split_and!.
      * rewrite Hl6, Hl5, Hl4. destruct r; cbn [local_after]; [|done].
        by rewrite lookup_delete_ne.
      * rewrite Hl6, Hl5, Hl4. destruct r; cbn [local_after]; [|done].
        by rewrite lookup_delete_ne.
      * intros [H%elem_of_singleton|H]%elem_of_union; [by apply Htt|done].
      * intros m Hm. simpl. apply Herr. destruct r; simpl; [by apply Herr4|].
        apply elem_of_app. left. by apply Herr4.
      * done.
    + apply wp_ret. cbn [fst snd]. split_and!; try done.
      intros m Hm. simpl. apply elem_of_app. by left.
Qed.

Lemma rename_phase_conflict remote entries old c_old c_new :
  startswith old NWAVE_PREFIX = true → refname (rename_target old) →
  strip c_old ≠ strip c_new →
  Forall legacy_entry entries →
  ∀ st w,
    local_tags w !! old = Some c_old →
    local_tags w !! rename_target old = Some c_new →
    rename_target old ∉ st.2 →
    wp (rename_phase remote entries st) w
      (λ st' w',
         local_tags w' !! old = Some c_old ∧
         local_tags w' !! rename_target old = Some c_new ∧
         (rename_target old ∉ st'.2) ∧
         (∀ m, m ∈ errors st.1 → m ∈ errors st'.1) ∧
         (old ∈ old_name <$> entries →
          conflict_message old (rename_target old) (strip c_old) (strip c_new)
            ∈ errors st'.1))
      (λ _ _, True).
Proof.
  intros Hold Href Hdiff Hall. induction Hall as [|entry rest Hentry Hall IH];
    intros [result prot] w HA HB Hprot; simpl.
  - apply wp_ret. split_and!; try done. by intros ?%elem_of_nil.
  - apply wp_bind.
    eapply wp_mono; [by eapply rename_step_conflict| |done].
    intros st1 w1 (HA1 & HB1 & Hprot1 & Herr1 & Hmsg1). cbn beta.
    eapply wp_mono; [by apply IH| |done].
    intros st2 w2 (HA2 & HB2 & Hprot2 & Herr2 & Hmsg2). cbn beta.
    split_and!; try done.
    + intros m Hm. by apply Herr2, Herr1.
    + intros [->|Hin]%elem_of_cons; [by apply Herr2, Hmsg1|by apply Hmsg2].
Qed.

(** C3, as the code has it.  While it handles a rename entry whose target
    exists and resolves to another commit than the old tag, [execute] appends
    exactly one error, which names both tags and the two commit ids cut to
    eight characters; it invokes nothing but the listing and the two resolves,
    changes no tag and protects none, and the loop goes on with the next
    entry; a legacy [old] stays what it was to the end of the run.  Not so the
    target.  In every run of [execute] that returns, on a store in which a
    legacy tag and its rename target sit on different commits, the conflict
    error is recorded and the legacy tag is on its commit at the end, but the
    target is not in the protected set the rename phase ends with: the delete
    phase invokes its deletion, and at the end it is gone, or the failure of
    its deletion is recorded. *)
Theorem conflict_different_commits_skipped remote old new c_old c_new :
  refname new →
  strip c_old ≠ strip c_new →
  (∀ rest result prot w,
     local_tags w !! old = Some c_old →
     local_tags w !! new = Some c_new →
     calm 3 w →
     ∃ w' msg,
       rename_phase remote (mkRenameEntry old new :: rest) (result, prot) w
         = rename_phase remote rest (add_error result msg, prot) w' ∧
       errors (add_error result msg) = errors result ++ [msg] ∧
       msg = "Conflict: " +:+ old +:+ " and " +:+ new
             +:+ " point to different commits. "
             +:+ "Old: " +:+ slice_to 8 (strip c_old)
             +:+ ", existing: " +:+ slice_to 8 (strip c_new) +:+ ". Skipped." ∧
       occurs_in old msg ∧ occurs_in new msg ∧
       refs_of w' = refs_of w ∧
       faults w' = faults w ∧
       since w w' = [(TagList, Exit0 (map_to_list (local_tags w)).*1);
                     (RevList old, Exit0 [c_old]); (RevList new, Exit0 [c_new])] ∧
       (∀ gh_repo,
          startswith old NWAVE_PREFIX = true →
          Forall legacy_entry rest → old ∉ old_name <$> rest →
          same_tag old w
            (world_of (execute_from gh_repo remote (mkRenameEntry old new :: rest)
                                    (result, prot) w)))) ∧
  (∀ gh_repo w result w',
     startswith old NWAVE_PREFIX = true →
     new = rename_target old →
     refname old →
     local_tags w !! old = Some c_old →
     local_tags w !! new = Some c_new →
     execute gh_repo remote w = Return result w' →
     conflict_message old new (strip c_old) (strip c_new) ∈ errors result ∧
     local_tags w' !! old = Some c_old ∧
     (∃ p w0 st w1,
        plan w = Return p w0 ∧
        rename_phase remote (to_rename p) (ExecuteResult0, ∅) w0 = Return st w1 ∧
        mkRenameEntry old new ∈ to_rename p ∧
        (new ∉ st.2) ∧
        local_tags w1 !! new = Some c_new ∧
        ∃ r, (TagDelete new, r) ∈ since w1 w') ∧
     (local_tags w' !! new = None ∨
      ∃ e, ("Failed to delete local tag " +:+ new +:+ ": " +:+ e) ∈ errors result)).
Proof.
  intros Href Hne. split.
  - intros rest result prot w Hold Hnew Hcalm.
    pose proof (calm_log _ TagList (Exit0 (map_to_list (local_tags w)).*1) _ Hcalm)
      as Hcalm1.
    pose proof (calm_log _ (RevList old) (Exit0 [c_old]) _ Hcalm1) as Hcalm2.
    exists (log (RevList new) (Exit0 [c_new])
              (log (RevList old) (Exit0 [c_old])
                 (log TagList (Exit0 (map_to_list (local_tags w)).*1) w))).
    eexists.
    assert (rename_phase remote (mkRenameEntry old new :: rest) (result, prot) w
            = rename_phase remote rest
                (add_error result (conflict_message old new (strip c_old) (strip c_new)),
                 prot)
                (log (RevList new) (Exit0 [c_new])
                   (log (RevList old) (Exit0 [c_old])
                      (log TagList (Exit0 (map_to_list (local_tags w)).*1) w))))
      as Hrun.
    { cbn [rename_phase]. unfold rename_step. cbn [old_name new_name]. unfold bind.
      rewrite (list_tags_calm _ w Hcalm).
      rewrite decide_True by (apply tag_listing_present; [done|by rewrite Hnew]).
      rewrite (get_tag_commit_calm _ _ old c_old Hcalm1 Hold).
      rewrite (get_tag_commit_calm _ _ new c_new Hcalm2 Hnew).
      rewrite decide_False by done.
      reflexivity. }
    split; [exact Hrun|]. split_and!; try reflexivity.
    + apply occurs_in_app_l, occurs_in_head.
    + do 3 apply occurs_in_app_l. apply occurs_in_head.
    + unfold since. simpl. by rewrite <- !app_assoc, drop_app_length.
    + intros gh_repo Hlegacy Hrest Hnot.
      rewrite (execute_from_cons _ _ _ _ _ _ _ _ Hrun).
      eapply same_tag_trans; [|by apply execute_from_spares_legacy].
      by apply same_tag_refs.
  - intros gh_repo w result w' Hleg -> Holdname HA HB Hrun.
    destruct (execute_trail _ _ _ _ _ Hrun)
      as (p & w0 & st & w1 & current & w2 & out0 & out1 & l1 & l2
          & Hplan & Hphase1 & Hlist & Hloop & Ht0 & Ht1 & Ht2 & Ht3 & _ & Heach).
    assert (p = foldl plan_step CleanupPlan0 (tag_listing w) ∧
            local_tags w0 = local_tags w) as [-> Hl0].
    { unfold plan, bind, ret in Hplan.
      destruct (_list_tags w) as [tags' w0'|] eqn:Hl; [|done]. injection Hplan as <- <-.
      by destruct (list_tags_listing _ _ _ Hl) as [-> ?]. }
    destruct (plan_entries (tag_listing w)) as [Hall Hnames]. cbn zeta in Hall, Hnames.
    assert (old ∈ tag_listing w) as Hlisted.
    { apply tag_listing_present; [done|]. by rewrite HA. }
    assert (mkRenameEntry old (rename_target old)
              ∈ to_rename (foldl plan_step CleanupPlan0 (tag_listing w))) as Hentry.
    { rewrite plan_to_rename. apply list_elem_of_fmap. exists old. split; [done|].
      apply list_elem_of_filter. split; [by apply classify_tag_RENAME|done]. }
    assert (old ∈ old_name <$> to_rename (foldl plan_step CleanupPlan0 (tag_listing w)))
      as Hin.
    { apply list_elem_of_fmap. by eexists (mkRenameEntry old (rename_target old)). }
    pose proof (wp_Return _ _ _ _ _ _
                  (rename_phase_conflict remote _ old c_old c_new Hleg Href Hne Hall
                     (ExecuteResult0, ∅) w0
                     ltac:(by rewrite Hl0) ltac:(by rewrite Hl0)
                     ltac:(by intros ?%not_elem_of_empty))
                  Hphase1) as (HA1 & HB1 & Hprot1 & _ & Hmsg1).
    cbn beta in *. specialize (Hmsg1 Hin).
    assert (delete_phase gh_repo remote st.2 st.1 w1 = Return result w') as Hphase2.
    { unfold delete_phase, bind. by rewrite Hlist. }
    pose proof (wp_Return _ _ _ _ _ _
                  (delete_phase_deletes gh_repo remote st.2 st.1 w1
                     (λ _ _, True) (λ _ _ _, I)) Hphase2)
      as (Hs & _ & Herr & _ & Hsurv).
    cbn beta in *.
    assert (classify_tag (rename_target old) = DELETE) as Hclass
      by apply classify_rename_target.
    split_and!.
    + by apply Herr.
    + rewrite (deletes_spares _ _ _ old Hs); [done|].
      right. by apply classify_tag_RENAME.
    + exists (foldl plan_step CleanupPlan0 (tag_listing w)), w0, st, w1.
      split_and!; try done.
      assert (rename_target old ∈ current) as Hcur.
      { destruct (list_tags_listing _ _ _ Hlist) as [-> _].
        apply tag_listing_present; [done|]. by rewrite HB1. }
      destruct (trail_of_each_elem _ _ _ _ Heach Hcur) as (lx & Hx & Hsub).
      assert (∃ r, (TagDelete (rename_target old), r) ∈ lx) as [r Hr].
      { destruct Hx as [(_ & [?|Hren])|(_ & _ & [(e & ->)|(out & lr & lh & -> & _)])].
        - done.
        - congruence.
        - eexists. by left.
        - eexists. by left. }
      exists r. rewrite (trail_since _ _ _ (trail_trans _ _ _ _ _ Ht2 Ht3)).
      right. by apply Hsub.
    + destruct (local_tags w' !! rename_target old) as [c|] eqn:Hc; [|by left].
      right. destruct (Hsurv (rename_target old) Href ltac:(by exists c))
        as [?|[?|?]]; [done|congruence|done].
Qed.

Lemma conflict_different_commits_skipped_witness :
  let w := conflict_different_commit_repo in
  let run := execute None None w in
  (∃ w' msg,
     rename_phase None [mkRenameEntry "nWave_v1.1.21" "v1.1.21"] (ExecuteResult0, ∅) w
       = Return (add_error ExecuteResult0 msg, ∅) w' ∧
     msg = "Conflict: nWave_v1.1.21 and v1.1.21 point to different commits. Old: 3b18e512, existing: 9fceb02d. Skipped." ∧
     refs_of w' = refs_of w) ∧
  conflict_message "nWave_v1.1.21" "v1.1.21" (strip commit0) (strip commit1)
    ∈ errors (value_of ExecuteResult0 run) ∧
  local_tags (world_of run) !! "nWave_v1.1.21" = Some commit0 ∧
  local_tags (world_of run) !! "v1.1.21" = None ∧
  (∃ r, (TagDelete "v1.1.21", r) ∈ since w (world_of run)).
Proof.
  intros w run.
  destruct (conflict_different_commits_skipped None "nWave_v1.1.21" "v1.1.21"
              commit0 commit1) as [Hentry Hwhole].
  - split; [vm_compute; reflexivity|discriminate].
  - vm_compute. discriminate.
  - split_and!.
    + destruct (Hentry [] ExecuteResult0 ∅ w)
        as (w' & msg & Hrun & _ & Hmsg & _ & _ & Hrefs & _).
      * vm_compute. reflexivity.
      * vm_compute. reflexivity.
      * intros k _. reflexivity.
      * exists w', msg.
        split_and!; [exact Hrun|rewrite Hmsg; vm_compute; reflexivity|exact Hrefs].
    + destruct (Hwhole None w (value_of ExecuteResult0 run) (world_of run))
        as (Hmsg & _); try (vm_compute; reflexivity).
      * split; [vm_compute; reflexivity|discriminate].
      * exact Hmsg.
    + vm_compute. reflexivity.
    + vm_compute. reflexivity.
    + eexists. vm_compute. do 5 apply list_elem_of_further. apply list_elem_of_here.
Defined.

(** In the run as a whole the target of the skipped entry does not survive:
    the delete phase finds it unprotected and deletes it. *)
Lemma conflict_target_deleted_by_delete_phase :
  local_tags conflict_different_commit_repo !! "nWave_v1.1.21" = Some commit0 ∧
  local_tags conflict_different_commit_repo !! "v1.1.21" = Some commit1 ∧
  ∃ result w',
    execute None None conflict_different_commit_repo = Return result w' ∧
    errors result
    = ["Conflict: nWave_v1.1.21 and v1.1.21 point to different commits. Old: 3b18e512, existing: 9fceb02d. Skipped."] ∧
    deleted_tags result = ["v1.1.21"] ∧
    local_tags w' !! "v1.1.21" = None ∧
    local_tags w' !! "nWave_v1.1.21" = Some commit0.
Proof.
  split; [vm_compute; reflexivity|]. split; [vm_compute; reflexivity|].
  exists (value_of ExecuteResult0 (execute None None conflict_different_commit_repo)),
         (world_of (execute None None conflict_different_commit_repo)).
  vm_compute. repeat split.
Qed.

(** ** What makes a run raise, and what does not *)


